(** * LRU cache with TTL: a shallow embedding of [src/lru.go] and
      [src/lru_cache.go], and the properties of the specification.

    The repository holds the same cache twice, as two Go packages:
    - package [lru] ([src/lru.go]): the eviction pass runs, deferred, at the
      end of every [Update] and every [Get], and looks at capacity and age;
    - package [cache] ([src/lru_cache.go]): the eviction pass runs only after
      an insert, looks at capacity alone, and there is a [Delete].

    Both are modelled below, each in a module of its own ([Lru], [Cache]),
    over a common model of Go's [int64], of [container/list] and of the
    pointers that the map and the list share. *)

From Equations Require Import Equations.
From Equations.Prop Require Import Logic.
From stdpp Require Import base decidable option numbers list strings gmap fin_maps.

Local Open Scope Z_scope.

(** ** Go's [int64]

    Signed 64-bit integers are integers of [Z]; [+] and [-] wrap around, as the
    Go specification says they do. *)

Definition int64_min : Z := - 2 ^ 63.
Definition int64_max : Z := 2 ^ 63 - 1.

Definition is_int64 (z : Z) : Prop := int64_min ≤ z ≤ int64_max.

Definition wrap64 (z : Z) : Z := (z + 2 ^ 63) `mod` 2 ^ 64 - 2 ^ 63.

Definition add64 (a b : Z) : Z := wrap64 (a + b).
Definition sub64 (a b : Z) : Z := wrap64 (a - b).

(** [x++] and [x--] on an [int64] field. *)
Definition incr64 (a : Z) : Z := add64 a 1.
Definition decr64 (a : Z) : Z := sub64 a 1.

(** ** Entries and the pointers to them

    [lruMap] maps a key to a [*list.Element], and the list links the same
    elements: one element is reached both ways. An element is given here by its
    [handle], the index of its cell in a [heap] of entries; a cell is
    allocated by [PushBack] and lives on after the element leaves the list, as
    a Go object does while something still points to it. *)

Definition handle := nat.

Section Entry.
Context {V : Type}.

(** [type entry struct { key string; value interface{}; createAt int64 }] *)
Record entry : Type := Entry {
  key : string;
  value : V;
  createAt : Z
}.

(** [item.value = value; item.createAt = now], through the pointer. *)
Definition refresh (item : entry) (v : V) (now : Z) : entry :=
  {| key := key item; value := v; createAt := now |}.
End Entry.

Arguments entry : clear implicits.

(** ** [container/list], on handles

    The list is the sequence of its elements, front first. An element is in a
    list at most once; [Remove] and [MoveToBack] do nothing to an element that
    is not in the list ([e.list != l] in Go). *)

Definition Front (l : list handle) : option handle := head l.

Definition Remove (e : handle) (l : list handle) : list handle :=
  filter (λ x, x ≠ e) l.

Definition MoveToBack (e : handle) (l : list handle) : list handle :=
  if decide (e ∈ l) then Remove e l ++ [e] else l.

(** [PushBack] allocates the element: its handle is the next free cell. *)
Definition PushBack {V} (item : entry V) (l : list handle) (heap : list (entry V))
  : handle * list handle * list (entry V) :=
  let e := length heap in (e, l ++ [e], heap ++ [item]).

(** Clock readings [ts] that never go back, and start at [t0] or later. *)
Fixpoint nondecreasing_from (t0 : Z) (ts : list Z) : Prop :=
  match ts with
  | [] => True
  | t :: ts => t0 ≤ t ∧ nondecreasing_from t ts
  end.

(** The readings of a Unix clock: [int64] values, none before the epoch, none
    before the one read before it. *)
Definition unix_clock (ts : list Z) : Prop :=
  nondecreasing_from 0 ts ∧ Forall is_int64 ts.

(** The errors of the two packages ([ErrLruNotFoundKey], [ErrKeyNotFound]). *)
Inductive error : Set := ErrLruNotFoundKey | ErrKeyNotFound.

(** ** The index and the list agree

    [consistent l m heap n]: the list [l] has no element twice; every key of
    the map [m] points to an element of [l] whose entry carries that key; every
    element of [l] is the one its entry's key is mapped to; and [n] (the
    [keyCount] field, an [int64]) is the length of [l]. Written with [Forall]
    and [map_Forall], so that it can be decided on a concrete state. *)

Section Consistent.
Context {V : Type}.
Implicit Types (l : list handle) (m : gmap string handle).
Implicit Types (heap : list (entry V)) (n : Z) (e : handle) (k : string).

(** The key of the entry an element holds. *)
Definition key_at heap e : option string := key <$> heap !! e.

(** The entry found by following the map, then the pointer. *)
Definition find m heap k : option (entry V) := m !! k ≫= λ e, heap !! e.

Definition consistent l m heap n : Prop :=
  NoDup l ∧
  map_Forall (λ k e, e ∈ l ∧ key_at heap e = Some k) m ∧
  Forall (λ e, key_at heap e ≫= (λ k, m !! k) = Some e) l ∧
  n = Z.of_nat (length l) ∧
  n ≤ int64_max.

#[global] Instance consistent_dec l m heap n : Decision (consistent l m heap n).
Proof. unfold consistent. apply _. Defined.

(** The keys of the entries of the list, front first. *)
Definition keys_of l heap : list string := omap (key_at heap) l.

(** The index and the list are in bijection: the keys of the entries of the
    list are the keys of the index, each of them once; a key is mapped to an
    element exactly when the element is in the list and holds that key; and
    [n] is the size of the index. *)
Definition bijection l m heap n : Prop :=
  NoDup l ∧
  NoDup (keys_of l heap) ∧
  length (keys_of l heap) = length l ∧
  dom m = list_to_set (keys_of l heap) ∧
  (∀ k e, m !! k = Some e ↔ e ∈ l ∧ key_at heap e = Some k) ∧
  n = Z.of_nat (size m).

(** The age of an entry has reached [ttl]: [now - createAt >= ttl]. *)
Definition stale (now ttl : Z) (item : entry V) : Prop :=
  ttl ≤ now - createAt item.
End Consistent.

(** ** What an eviction pass does to the index and the list

    [swept n l m heap cnt l' m' cnt']: the first [n] elements of [l] are gone
    from the list, their keys are gone from the map, the other keys are mapped
    as before, and the count went down by [n]. *)

Section Swept.
Context {V : Type}.

Definition swept (n : nat) (l : list handle) (m : gmap string handle)
    (heap : list (entry V)) (cnt : Z)
    (l' : list handle) (m' : gmap string handle) (cnt' : Z) : Prop :=
  (n ≤ length l)%nat ∧
  l' = drop n l ∧
  (∀ k, m' !! k = if decide (k ∈ keys_of (take n l) heap) then None else m !! k) ∧
  cnt' = cnt - Z.of_nat n.

(** The entry of [k] is what it was, or [k] has left the index. *)
Definition kept_or_gone (k : string)
    (m : gmap string handle) (heap : list (entry V))
    (m' : gmap string handle) (heap' : list (entry V)) : Prop :=
  m' !! k = None ∨ (m' !! k = m !! k ∧ find m' heap' k = find m heap k).
End Swept.

(** ** Package [lru] ([src/lru.go])

    The mutex is left out: every method holds it from its first statement to
    its last, so the methods run one after another, and one call is a function
    from the state before it to the state after it. [time.Now().Unix()] is an
    input of the call, one argument for each place where the clock is read.
    A result [None] is a run-time panic: an element without an entry. *)

Module Lru.
Section Defs.
Context {V : Type}.

Record LRUCache : Type := mkLRUCache {
  maxCount : Z;                    (* max cache key counts *)
  ttl : Z;                         (* seconds ttl *)
  lruList : list handle;           (* list, front first *)
  lruMap : gmap string handle;     (* map *)
  reqCount : Z;                    (* request counts *)
  hitCount : Z;                    (* hit counts *)
  keyCount : Z;                    (* current cache key counts *)
  heap : list (entry V)            (* the entries the elements point to *)
}.

(** [maxCount] and [ttl] arrive as [int] and are converted to [int64],
    which keeps their value. *)
Definition NewLRUCache (maxCount ttl : Z) : LRUCache :=
  {| maxCount := maxCount; ttl := ttl; lruList := []; lruMap := ∅;
     reqCount := 0; hitCount := 0; keyCount := 0; heap := [] |}.

(** [cache.lruList.Remove(ele); delete(cache.lruMap, k); cache.keyCount--] *)
Definition remove_entry (ele : handle) (k : string) (c : LRUCache) : LRUCache :=
  {| maxCount := maxCount c; ttl := ttl c;
     lruList := Remove ele (lruList c);
     lruMap := delete k (lruMap c);
     reqCount := reqCount c; hitCount := hitCount c;
     keyCount := decr64 (keyCount c);
     heap := heap c |}.

(** The loop of [checkWithLocked], with [now] read once before it:
    [for cache.lruList.Front() != nil { ... }]. Every turn takes the front out
    of the list, so the length of the list is a measure. *)
Equations? checkWithLocked (now : Z) (c : LRUCache) : option LRUCache
  by wf (length (lruList c)) lt :=
  checkWithLocked now c with inspect (Front (lruList c)) := {
    | exist _ None _ => Some c
    | exist _ (Some front) Hfront with heap c !! front := {
        | None => None
        | Some e =>
            (* key count not greater and key not expired *)
            if decide (keyCount c ≤ maxCount c ∧ now < add64 (createAt e) (ttl c))
            then Some c
            else checkWithLocked now (remove_entry front (key e) c) } }.
Proof.
  simpl. destruct (lruList c) as [|front' rest]; [done|].
  injection Hfront as ->. unfold Remove.
  rewrite filter_cons_False by (intros Hne; by apply Hne). simpl.
  pose proof (length_filter (λ x, x ≠ front) rest). lia.
Qed.

(** [item.value = v; item.createAt = now], for the entry of [ele]. *)
Definition set_entry (ele : handle) (item : entry V) (c : LRUCache) : LRUCache :=
  {| maxCount := maxCount c; ttl := ttl c; lruList := lruList c;
     lruMap := lruMap c;
     reqCount := reqCount c; hitCount := hitCount c; keyCount := keyCount c;
     heap := <[ele := item]> (heap c) |}.

(** [cache.lruList.MoveToBack(ele)] *)
Definition move_to_back (ele : handle) (c : LRUCache) : LRUCache :=
  {| maxCount := maxCount c; ttl := ttl c;
     lruList := MoveToBack ele (lruList c);
     lruMap := lruMap c;
     reqCount := reqCount c; hitCount := hitCount c; keyCount := keyCount c;
     heap := heap c |}.

(** [cache.lruMap[k] = cache.lruList.PushBack(item); cache.keyCount++] *)
Definition push_back (k : string) (item : entry V) (c : LRUCache) : LRUCache :=
  let '(ele, l, hp) := PushBack item (lruList c) (heap c) in
  {| maxCount := maxCount c; ttl := ttl c;
     lruList := l;
     lruMap := <[k := ele]> (lruMap c);
     reqCount := reqCount c; hitCount := hitCount c;
     keyCount := incr64 (keyCount c);
     heap := hp |}.

(** [cache.reqCount++] *)
Definition count_request (c : LRUCache) : LRUCache :=
  {| maxCount := maxCount c; ttl := ttl c; lruList := lruList c;
     lruMap := lruMap c;
     reqCount := incr64 (reqCount c); hitCount := hitCount c;
     keyCount := keyCount c; heap := heap c |}.

(** [cache.hitCount++] *)
Definition count_hit (c : LRUCache) : LRUCache :=
  {| maxCount := maxCount c; ttl := ttl c; lruList := lruList c;
     lruMap := lruMap c;
     reqCount := reqCount c; hitCount := incr64 (hitCount c);
     keyCount := keyCount c; heap := heap c |}.

(** The body of [Update], before the deferred eviction pass. *)
Definition Update_body (k : string) (v : V) (now : Z) (c : LRUCache)
  : option LRUCache :=
  match lruMap c !! k with
  | Some ele =>                                             (* exist *)
      item ← heap c !! ele;
      Some (move_to_back ele (set_entry ele (refresh item v now) c))
  | None =>                                                 (* new *)
      Some (push_back k {| key := k; value := v; createAt := now |} c)
  end.

(** [Update]: the body at clock [now], then the deferred pass at clock
    [now']; the error returned is always [nil]. *)
Definition Update (k : string) (v : V) (now now' : Z) (c : LRUCache)
  : option (option error * LRUCache) :=
  c1 ← Update_body k v now c;
  c2 ← checkWithLocked now' c1;
  Some (None, c2).

(** The body of [Get]; the pair is the pair of results of the Go method. *)
Definition Get_body (k : string) (now : Z) (c0 : LRUCache)
  : option ((option V * option error) * LRUCache) :=
  let c := count_request c0 in
  match lruMap c !! k with
  | Some ele =>
      item ← heap c !! ele;
      if decide (add64 (createAt item) (ttl c) > now) then
        Some ((Some (value item), None), move_to_back ele (count_hit c))
      else                                                  (* expire *)
        Some ((None, Some ErrLruNotFoundKey), remove_entry ele (key item) c)
  | None => Some ((None, Some ErrLruNotFoundKey), c)
  end.

(** [Get]: the results are fixed by the [return] of the body; the deferred
    pass, at clock [now'], runs after that and cannot change them. *)
Definition Get (k : string) (now now' : Z) (c : LRUCache)
  : option ((option V * option error) * LRUCache) :=
  '(r, c1) ← Get_body k now c;
  c2 ← checkWithLocked now' c1;
  Some (r, c2).

Definition GetReqCount (c : LRUCache) : Z := reqCount c.
Definition GetHitCount (c : LRUCache) : Z := hitCount c.
Definition GetKeysCount (c : LRUCache) : Z := keyCount c.

(** Calls of the public methods, and runs of them. *)
Inductive op : Type :=
| OpUpdate (k : string) (v : V) (now now' : Z)
| OpGet (k : string) (now now' : Z).

Definition step (o : op) (c : LRUCache) : option LRUCache :=
  match o with
  | OpUpdate k v now now' => snd <$> Update k v now now' c
  | OpGet k now now' => snd <$> Get k now now' c
  end.

Fixpoint run (os : list op) (c : LRUCache) : option LRUCache :=
  match os with
  | [] => Some c
  | o :: os => c' ← step o c; run os c'
  end.

(** The clock readings of a call, in the order they are made. *)
Definition op_clock (o : op) : list Z :=
  match o with OpUpdate _ _ now now' => [now; now'] | OpGet _ now now' => [now; now'] end.

Definition Inv (c : LRUCache) : Prop :=
  consistent (lruList c) (lruMap c) (heap c) (keyCount c).

#[global] Instance Inv_dec (c : LRUCache) : Decision (Inv c).
Proof. unfold Inv. apply _. Defined.

(** The test of the loop: key count not greater and key not expired. *)
Definition settled (now : Z) (c : LRUCache) (cnt : Z) (item : entry V) : Prop :=
  cnt ≤ maxCount c ∧ now < add64 (createAt item) (ttl c).

(** The pass has nothing left to do: the list is empty, or its front passes
    the test. *)
Definition at_rest (now : Z) (c : LRUCache) : Prop :=
  match lruList c with
  | [] => True
  | front :: _ =>
      ∃ item, heap c !! front = Some item ∧ settled now c (keyCount c) item
  end.

(** Each of the first [n] entries failed the test at its turn, when the
    entries before it were gone. *)
Definition due (now : Z) (c : LRUCache) (n : nat) : Prop :=
  ∀ (i : nat) e item, (i < n)%nat →
    lruList c !! i = Some e → heap c !! e = Some item →
    ¬ settled now c (keyCount c - Z.of_nat i) item.

(** Everything but the index, the list and the count. *)
Definition same_rest (c c' : LRUCache) : Prop :=
  maxCount c' = maxCount c ∧ ttl c' = ttl c ∧
  reqCount c' = reqCount c ∧ hitCount c' = hitCount c ∧ heap c' = heap c.

(** The call [o] wrote the entry that [k] has in [c']. *)
Definition written (o : op) (k : string) (c' : LRUCache) : Prop :=
  match o with
  | OpUpdate k0 v now _ =>
      k0 = k ∧ find (lruMap c') (heap c') k = Some {| key := k; value := v; createAt := now |}
  | OpGet _ _ _ => False
  end.

(** The clock readings of a run, in the order they are made. *)
Definition clock (os : list op) : list Z := os ≫= op_clock.

(** No entry of the index was created before [t0] or after [t1]. *)
Definition created_within (t0 t1 : Z) (c : LRUCache) : Prop :=
  ∀ k item, find (lruMap c) (heap c) k = Some item → t0 ≤ createAt item ≤ t1.

(** The index has [item] for [k], or has no [k]. *)
Definition holds_or_gone (k : string) (item : entry V) (c : LRUCache) : Prop :=
  lruMap c !! k = None ∨ find (lruMap c) (heap c) k = Some item.

(** The call [o] is an [Update] of [k]: the only call that inserts [k]. *)
Definition inserts (k : string) (o : op) : Prop :=
  match o with OpUpdate k0 _ _ _ => k0 = k | OpGet _ _ _ => False end.
End Defs.
Arguments LRUCache : clear implicits.
Arguments op : clear implicits.
End Lru.

(** ** Package [cache] ([src/lru_cache.go])

    Same conventions. Here no method defers the eviction pass: [Update] calls
    it after an insert only, and it never reads the clock. *)

Module Cache.
Section Defs.
Context {V : Type}.

Record LRUCache : Type := mkLRUCache {
  maxCount : Z;                    (* max cache key counts *)
  ttl : Z;                         (* seconds ttl *)
  lruList : list handle;           (* list, front first *)
  lruMap : gmap string handle;     (* map *)
  keyCount : Z;                    (* current cache key counts *)
  totalReqTimes : Z;               (* total request times *)
  totalHitTimes : Z;               (* total hit times *)
  heap : list (entry V)            (* the entries the elements point to *)
}.

Definition NewLRUCache (maxCount ttl : Z) : LRUCache :=
  {| maxCount := maxCount; ttl := ttl; lruList := []; lruMap := ∅;
     keyCount := 0; totalReqTimes := 0; totalHitTimes := 0; heap := [] |}.

(** [cache.lruList.Remove(ele); delete(cache.lruMap, k); cache.keyCount--] *)
Definition remove_entry (ele : handle) (k : string) (c : LRUCache) : LRUCache :=
  {| maxCount := maxCount c; ttl := ttl c;
     lruList := Remove ele (lruList c);
     lruMap := delete k (lruMap c);
     keyCount := decr64 (keyCount c);
     totalReqTimes := totalReqTimes c; totalHitTimes := totalHitTimes c;
     heap := heap c |}.

(** [for cache.keyCount > cache.maxCount && cache.lruList.Front() != nil] *)
Equations? checkWithLocked (c : LRUCache) : option LRUCache
  by wf (length (lruList c)) lt :=
  checkWithLocked c with decide (keyCount c > maxCount c) := {
    | right _ => Some c
    | left _ with inspect (Front (lruList c)) := {
        | exist _ None _ => Some c
        | exist _ (Some front) Hfront with heap c !! front := {
            | None => None
            | Some item => checkWithLocked (remove_entry front (key item) c) } } }.
Proof.
  simpl. destruct (lruList c) as [|front' rest]; [done|].
  injection Hfront as ->. unfold Remove.
  rewrite filter_cons_False by (intros Hne; by apply Hne). simpl.
  pose proof (length_filter (λ x, x ≠ front) rest). lia.
Qed.

(** [item.value = v; item.createAt = now], for the entry of [ele]. *)
Definition set_entry (ele : handle) (item : entry V) (c : LRUCache) : LRUCache :=
  {| maxCount := maxCount c; ttl := ttl c; lruList := lruList c;
     lruMap := lruMap c; keyCount := keyCount c;
     totalReqTimes := totalReqTimes c; totalHitTimes := totalHitTimes c;
     heap := <[ele := item]> (heap c) |}.

(** [cache.lruList.MoveToBack(ele)] *)
Definition move_to_back (ele : handle) (c : LRUCache) : LRUCache :=
  {| maxCount := maxCount c; ttl := ttl c;
     lruList := MoveToBack ele (lruList c);
     lruMap := lruMap c; keyCount := keyCount c;
     totalReqTimes := totalReqTimes c; totalHitTimes := totalHitTimes c;
     heap := heap c |}.

(** [cache.lruMap[k] = cache.lruList.PushBack(item); cache.keyCount++] *)
Definition push_back (k : string) (item : entry V) (c : LRUCache) : LRUCache :=
  let '(ele, l, hp) := PushBack item (lruList c) (heap c) in
  {| maxCount := maxCount c; ttl := ttl c;
     lruList := l;
     lruMap := <[k := ele]> (lruMap c);
     keyCount := incr64 (keyCount c);
     totalReqTimes := totalReqTimes c; totalHitTimes := totalHitTimes c;
     heap := hp |}.

(** [cache.totalReqTimes++] *)
Definition count_request (c : LRUCache) : LRUCache :=
  {| maxCount := maxCount c; ttl := ttl c; lruList := lruList c;
     lruMap := lruMap c; keyCount := keyCount c;
     totalReqTimes := incr64 (totalReqTimes c); totalHitTimes := totalHitTimes c;
     heap := heap c |}.

(** [cache.totalHitTimes++] *)
Definition count_hit (c : LRUCache) : LRUCache :=
  {| maxCount := maxCount c; ttl := ttl c; lruList := lruList c;
     lruMap := lruMap c; keyCount := keyCount c;
     totalReqTimes := totalReqTimes c; totalHitTimes := incr64 (totalHitTimes c);
     heap := heap c |}.

Definition Update (k : string) (v : V) (now : Z) (c : LRUCache)
  : option (option error * LRUCache) :=
  match lruMap c !! k with
  | Some ele =>                                             (* exist *)
      item ← heap c !! ele;
      Some (None, move_to_back ele (set_entry ele (refresh item v now) c))
  | None =>                                                 (* new *)
      c' ← checkWithLocked
             (push_back k {| key := k; value := v; createAt := now |} c);
      Some (None, c')
  end.

Definition Get (k : string) (now : Z) (c0 : LRUCache)
  : option ((option V * option error) * LRUCache) :=
  let c := count_request c0 in
  match lruMap c !! k with
  | Some ele =>
      item ← heap c !! ele;
      if decide (add64 (createAt item) (ttl c) > now) then
        Some ((Some (value item), None), move_to_back ele (count_hit c))
      else                                                  (* expire *)
        Some ((None, Some ErrKeyNotFound), remove_entry ele k c)
  | None => Some ((None, Some ErrKeyNotFound), c)
  end.

(** [Delete] does not look into the entry, so it cannot panic. *)
Definition Delete (k : string) (c0 : LRUCache) : option error * LRUCache :=
  let c := count_request c0 in
  match lruMap c !! k with
  | Some ele => (None, remove_entry ele k (count_hit c))
  | None => (Some ErrKeyNotFound, c)
  end.

Definition GetKeyCount (c : LRUCache) : Z := keyCount c.
Definition GetTotalReqTimes (c : LRUCache) : Z := totalReqTimes c.
Definition GetTotalHitTimes (c : LRUCache) : Z := totalHitTimes c.

(** Calls of the public methods, and runs of them. *)
Inductive op : Type :=
| OpUpdate (k : string) (v : V) (now : Z)
| OpGet (k : string) (now : Z)
| OpDelete (k : string).

Definition step (o : op) (c : LRUCache) : option LRUCache :=
  match o with
  | OpUpdate k v now => snd <$> Update k v now c
  | OpGet k now => snd <$> Get k now c
  | OpDelete k => Some (snd (Delete k c))
  end.

Fixpoint run (os : list op) (c : LRUCache) : option LRUCache :=
  match os with
  | [] => Some c
  | o :: os => c' ← step o c; run os c'
  end.

Definition op_clock (o : op) : list Z :=
  match o with OpUpdate _ _ now => [now] | OpGet _ now => [now] | OpDelete _ => [] end.

Definition Inv (c : LRUCache) : Prop :=
  consistent (lruList c) (lruMap c) (heap c) (keyCount c).

#[global] Instance Inv_dec (c : LRUCache) : Decision (Inv c).
Proof. unfold Inv. apply _. Defined.

(** The pass has nothing left to do: the count is within [maxCount], or the
    list is empty. *)
Definition at_rest (c : LRUCache) : Prop :=
  keyCount c ≤ maxCount c ∨ lruList c = [].

(** Each of the first [n] entries was taken out while the count, with the
    entries before it gone, was above [maxCount]. *)
Definition due (c : LRUCache) (n : nat) : Prop :=
  ∀ i : nat, (i < n)%nat → keyCount c - Z.of_nat i > maxCount c.

(** Everything but the index, the list and the count. *)
Definition same_rest (c c' : LRUCache) : Prop :=
  maxCount c' = maxCount c ∧ ttl c' = ttl c ∧
  totalReqTimes c' = totalReqTimes c ∧ totalHitTimes c' = totalHitTimes c ∧
  heap c' = heap c.

(** The call [o] wrote the entry that [k] has in [c']. *)
Definition written (o : op) (k : string) (c' : LRUCache) : Prop :=
  match o with
  | OpUpdate k0 v now =>
      k0 = k ∧ find (lruMap c') (heap c') k = Some {| key := k; value := v; createAt := now |}
  | _ => False
  end.

(** The clock readings of a run, in the order they are made. *)
Definition clock (os : list op) : list Z := os ≫= op_clock.

(** No entry of the index was created before [t0] or after [t1]. *)
Definition created_within (t0 t1 : Z) (c : LRUCache) : Prop :=
  ∀ k item, find (lruMap c) (heap c) k = Some item → t0 ≤ createAt item ≤ t1.

(** The index has [item] for [k], or has no [k]. *)
Definition holds_or_gone (k : string) (item : entry V) (c : LRUCache) : Prop :=
  lruMap c !! k = None ∨ find (lruMap c) (heap c) k = Some item.

(** The call [o] is an [Update] of [k]: the only call that inserts [k]. *)
Definition inserts (k : string) (o : op) : Prop :=
  match o with OpUpdate k0 _ _ => k0 = k | _ => False end.
End Defs.
Arguments LRUCache : clear implicits.
Arguments op : clear implicits.
End Cache.

(** ** States used in the examples

    Each is the state after the [Update]s its comment names; the values are
    integers. *)

(** Two entries written at time 0 into a cache of [src/lru.go] for 10 keys
    that live 5 seconds. *)
Definition lru_two_old : Lru.LRUCache Z :=
  {| Lru.maxCount := 10; Lru.ttl := 5;
     Lru.lruList := [0%nat; 1%nat];
     Lru.lruMap := {[ "a" := 0%nat; "b" := 1%nat ]};
     Lru.reqCount := 0; Lru.hitCount := 0; Lru.keyCount := 2;
     Lru.heap := [Entry "a" 7 0; Entry "b" 8 0] |}.

(** One entry written at time 0 into a cache of [src/lru_cache.go] for 2 keys
    that live 5 seconds. *)
Definition cache_one_old : Cache.LRUCache Z :=
  {| Cache.maxCount := 2; Cache.ttl := 5;
     Cache.lruList := [0%nat];
     Cache.lruMap := {[ "a" := 0%nat ]};
     Cache.keyCount := 1; Cache.totalReqTimes := 0; Cache.totalHitTimes := 0;
     Cache.heap := [Entry "a" 7 0] |}.

(** Two entries written at time 0 into a cache of [src/lru_cache.go] for 10
    keys that live 5 seconds. *)
Definition cache_two_old : Cache.LRUCache Z :=
  {| Cache.maxCount := 10; Cache.ttl := 5;
     Cache.lruList := [0%nat; 1%nat];
     Cache.lruMap := {[ "a" := 0%nat; "b" := 1%nat ]};
     Cache.keyCount := 2; Cache.totalReqTimes := 0; Cache.totalHitTimes := 0;
     Cache.heap := [Entry "a" 7 0; Entry "b" 8 0] |}.

(** [cache_two_old] in a cache for 2 keys: the cache is full. *)
Definition cache_two_full : Cache.LRUCache Z :=
  {| Cache.maxCount := 2; Cache.ttl := 5;
     Cache.lruList := [0%nat; 1%nat];
     Cache.lruMap := {[ "a" := 0%nat; "b" := 1%nat ]};
     Cache.keyCount := 2; Cache.totalReqTimes := 0; Cache.totalHitTimes := 0;
     Cache.heap := [Entry "a" 7 0; Entry "b" 8 0] |}.

(** ** Runs of one kind of call *)

Section Runs.
Context {V : Type}.

(** The calls of a run of [src/lru.go] that count a request: the [Get]s. *)
Fixpoint lru_requests (os : list (Lru.op V)) : nat :=
  match os with
  | [] => 0
  | Lru.OpGet _ _ _ :: os => S (lru_requests os)
  | Lru.OpUpdate _ _ _ _ :: os => lru_requests os
  end.

(** The calls of a run of [src/lru_cache.go] that count a request: the
    [Get]s and the [Delete]s. *)
Fixpoint cache_requests (os : list (Cache.op V)) : nat :=
  match os with
  | [] => 0
  | Cache.OpUpdate _ _ _ :: os => cache_requests os
  | _ :: os => S (cache_requests os)
  end.

(** [Update(k, v)] at time [now], for each [(k, v, now)] of a list. *)
Definition cache_updates (us : list (string * V * Z)) : list (Cache.op V) :=
  (λ u, Cache.OpUpdate u.1.1 u.1.2 u.2) <$> us.

(** The number of keys a cache made with [maxCount] holds at most. *)
Definition capacity (maxCount : Z) : nat := Z.to_nat (Z.max 0 maxCount).
End Runs.

(** ** The two files side by side *)

Section SideBySide.
Context {V : Type}.

(** The state of [src/lru_cache.go] with the fields of a state of
    [src/lru.go]: [reqCount] is [totalReqTimes], [hitCount] is
    [totalHitTimes]. *)
Definition to_cache (c : Lru.LRUCache V) : Cache.LRUCache V :=
  {| Cache.maxCount := Lru.maxCount c; Cache.ttl := Lru.ttl c;
     Cache.lruList := Lru.lruList c; Cache.lruMap := Lru.lruMap c;
     Cache.keyCount := Lru.keyCount c;
     Cache.totalReqTimes := Lru.reqCount c; Cache.totalHitTimes := Lru.hitCount c;
     Cache.heap := Lru.heap c |}.

(** The same call, on [src/lru_cache.go]: it reads the clock once. *)
Definition to_cache_op (o : Lru.op V) : Cache.op V :=
  match o with
  | Lru.OpUpdate k v now _ => Cache.OpUpdate k v now
  | Lru.OpGet k now _ => Cache.OpGet k now
  end.

(** The error of [src/lru_cache.go] where [src/lru.go] has one. *)
Definition to_cache_error (e : option error) : option error :=
  match e with Some _ => Some ErrKeyNotFound | None => None end.

(** No entry of the index is expired at [now]: [now < createAt + ttl]. *)
Definition unexpired (now : Z) (c : Lru.LRUCache V) : Prop :=
  ∀ k item, find (Lru.lruMap c) (Lru.heap c) k = Some item →
            now < add64 (createAt item) (Lru.ttl c).
End SideBySide.

(** * Facts *)

(** ** [int64] arithmetic *)

Lemma wrap64_id z : is_int64 z → wrap64 z = z.
Proof.
  unfold is_int64, int64_min, int64_max, wrap64. intros Hz.
  rewrite Z.mod_small; lia.
Qed.

Lemma wrap64_int64 z : is_int64 (wrap64 z).
Proof.
  unfold is_int64, int64_min, int64_max, wrap64.
  pose proof (Z.mod_pos_bound (z + 2 ^ 63) (2 ^ 64)). lia.
Qed.

Lemma incr64_id a : int64_min ≤ a < int64_max → incr64 a = a + 1.
Proof. intros Ha. apply wrap64_id. unfold is_int64. lia. Qed.

Lemma decr64_id a : int64_min < a ≤ int64_max → decr64 a = a - 1.
Proof. intros Ha. apply wrap64_id. unfold is_int64. lia. Qed.

Lemma add64_id a b : is_int64 (a + b) → add64 a b = a + b.
Proof. apply wrap64_id. Qed.

(** ** The list *)

Lemma Remove_cons_eq e l : Remove e (e :: l) = Remove e l.
Proof. unfold Remove. by rewrite filter_cons_False by (intros Hne; by apply Hne). Qed.

Lemma Remove_notin e l : e ∉ l → Remove e l = l.
Proof.
  intros He. unfold Remove. induction l as [|x l IH]; [done|].
  rewrite not_elem_of_cons in He. destruct He as [Hne Hl].
  rewrite filter_cons_True by done. by rewrite IH.
Qed.

Lemma Remove_front e l : NoDup (e :: l) → Remove e (e :: l) = l.
Proof.
  intros [Hnotin _]%NoDup_cons. rewrite Remove_cons_eq. by apply Remove_notin.
Qed.

Lemma elem_of_Remove x e l : x ∈ Remove e l ↔ x ∈ l ∧ x ≠ e.
Proof. unfold Remove. by rewrite list_elem_of_filter, (comm and). Qed.

Lemma NoDup_Remove e l : NoDup l → NoDup (Remove e l).
Proof. apply NoDup_filter. Qed.

Lemma Remove_length e l :
  NoDup l → e ∈ l → S (length (Remove e l)) = length l.
Proof.
  induction l as [|x l IH]; intros Hnd Hin; [by apply elem_of_nil in Hin|].
  apply NoDup_cons in Hnd as [Hx Hnd].
  destruct (decide (x = e)) as [->|Hne].
  - rewrite Remove_cons_eq, Remove_notin by done. done.
  - unfold Remove in *. rewrite filter_cons_True by done. simpl.
    rewrite IH; [done..|]. apply elem_of_cons in Hin as [->|Hin]; done.
Qed.

Lemma MoveToBack_Permutation e l : NoDup l → MoveToBack e l ≡ₚ l.
Proof.
  intros Hnd. unfold MoveToBack. case_decide as Hin; [|done].
  apply NoDup_Permutation; [|done|].
  - apply NoDup_app. split_and!; [by apply NoDup_Remove| |apply NoDup_singleton].
    intros x [_ Hx]%elem_of_Remove ->%list_elem_of_singleton. done.
  - intros x. rewrite elem_of_app, elem_of_Remove, list_elem_of_singleton.
    destruct (decide (x = e)) as [->|Hne]; tauto.
Qed.

(** [MoveToBack] keeps the order of the other elements. *)
Lemma MoveToBack_Remove e l : NoDup l → e ∈ l → Remove e (MoveToBack e l) = Remove e l.
Proof.
  intros Hnd Hin. unfold MoveToBack. rewrite decide_True by done.
  unfold Remove. rewrite filter_app, list_filter_filter. simpl.
  rewrite filter_cons_False by naive_solver. rewrite filter_nil, app_nil_r.
  apply list_filter_iff. intros x. tauto.
Qed.

(** ** Consistency of the index and the list *)

Section ConsistentFacts.
Context {V : Type}.
Implicit Types (l : list handle) (m : gmap string handle).
Implicit Types (heap : list (entry V)) (n : Z) (e : handle) (k : string).

Lemma key_at_Some heap e k :
  key_at heap e = Some k ↔ ∃ item, heap !! e = Some item ∧ key item = k.
Proof.
  unfold key_at. destruct (heap !! e) as [item|]; simpl; split.
  - intros [= <-]. eauto.
  - intros (? & [= <-] & <-). done.
  - done.
  - by intros (? & ? & _).
Qed.

Lemma consistent_lookup l m heap n k e :
  consistent l m heap n → m !! k = Some e → e ∈ l ∧ key_at heap e = Some k.
Proof. intros (_ & Hm & _) Hk. exact (Hm k e Hk). Qed.

Lemma consistent_elem l m heap n e :
  consistent l m heap n → e ∈ l →
  ∃ item, heap !! e = Some item ∧ m !! key item = Some e.
Proof.
  intros (_ & _ & Hl & _) He. rewrite Forall_forall in Hl.
  specialize (Hl e He). unfold key_at in Hl.
  destruct (heap !! e) as [item|]; [|done]. eauto.
Qed.

Lemma consistent_find l m heap n k e :
  consistent l m heap n → m !! k = Some e →
  ∃ item, heap !! e = Some item ∧ key item = k ∧ find m heap k = Some item.
Proof.
  intros Hc Hk. destruct (consistent_lookup _ _ _ _ _ _ Hc Hk) as [_ Hkey].
  apply key_at_Some in Hkey as (item & Hitem & <-).
  exists item. unfold find. rewrite Hk. done.
Qed.

Lemma consistent_count l m heap n :
  consistent l m heap n → n = Z.of_nat (length l) ∧ 0 ≤ n ≤ int64_max.
Proof. intros (_ & _ & _ & -> & ?). lia. Qed.

(** Two keys never share an element. *)
Lemma consistent_inj l m heap n k1 k2 e :
  consistent l m heap n → m !! k1 = Some e → m !! k2 = Some e → k1 = k2.
Proof.
  intros Hc H1 H2.
  destruct (consistent_lookup _ _ _ _ _ _ Hc H1) as [_ E1].
  destruct (consistent_lookup _ _ _ _ _ _ Hc H2) as [_ E2]. congruence.
Qed.

Lemma consistent_empty : consistent (V:=V) [] ∅ [] 0.
Proof.
  unfold consistent. split_and!; [constructor|apply map_Forall_empty|constructor|done|done].
Qed.

(** [Remove(ele); delete(m, k); n--], for a key [k] that points to [ele]. *)
Lemma consistent_Remove l m heap n k e :
  consistent l m heap n → m !! k = Some e →
  consistent (Remove e l) (delete k m) heap (decr64 n) ∧ decr64 n = n - 1.
Proof.
  intros Hc Hk.
  destruct (consistent_lookup _ _ _ _ _ _ Hc Hk) as [Hin Hkey].
  pose proof (consistent_count _ _ _ _ Hc) as [Hn Hrange].
  pose proof Hc as (Hnd & Hm & Hl & _ & _).
  pose proof (Remove_length e l Hnd Hin) as Hlen.
  assert (decr64 n = n - 1) as Hdecr.
  { apply decr64_id. unfold int64_min. lia. }
  split; [|done]. unfold consistent. split_and!.
  - by apply NoDup_Remove.
  - intros k' e' Hk'. apply lookup_delete_Some in Hk' as [Hne Hk'].
    destruct (Hm k' e' Hk') as [Hin' Hkey']. split; [|done].
    apply elem_of_Remove. split; [done|]. intros ->. congruence.
  - apply Forall_forall. intros e' [Hin' Hne]%elem_of_Remove.
    rewrite Forall_forall in Hl. specialize (Hl e' Hin').
    destruct (key_at heap e') as [k'|] eqn:Hk'; [|done]. simpl in *.
    rewrite lookup_delete_ne; [done|]. intros <-. congruence.
  - rewrite Hdecr. lia.
  - lia.
Qed.

(** The front of the list is the element of its own key. *)
Lemma consistent_front l m heap n front rest :
  consistent l m heap n → l = front :: rest →
  ∃ item, heap !! front = Some item ∧ m !! key item = Some front ∧
          Remove front l = rest.
Proof.
  intros Hc ->. destruct (consistent_elem _ _ _ _ front Hc) as (item & ? & ?).
  { apply elem_of_cons; by left. }
  exists item. split_and!; [done..|]. apply Remove_front. apply Hc.
Qed.

(** A change of the order of the list. *)
Lemma consistent_Permutation l l' m heap n :
  consistent l m heap n → l' ≡ₚ l → consistent l' m heap n.
Proof.
  intros (Hnd & Hm & Hl & Hn & Hmax) Hp. unfold consistent. split_and!.
  - by rewrite Hp.
  - intros k e Hk. destruct (Hm k e Hk). split; [by rewrite Hp|done].
  - by rewrite Hp.
  - by rewrite Hp.
  - done.
Qed.

(** A change of entries that keeps their keys. *)
Lemma consistent_heap l m heap heap' n :
  consistent l m heap n → (∀ e, key_at heap' e = key_at heap e) →
  consistent l m heap' n.
Proof.
  intros (Hnd & Hm & Hl & Hn & Hmax) Hk. unfold consistent. split_and!; [done| | |done..].
  - intros k e Hke. rewrite Hk. by apply Hm.
  - eapply Forall_impl; [exact Hl|]. intros e. simpl. by rewrite Hk.
Qed.

Lemma key_at_refresh heap e item v now e' :
  heap !! e = Some item →
  key_at (<[e := refresh item v now]> heap) e' = key_at heap e'.
Proof.
  intros He. unfold key_at. destruct (decide (e = e')) as [<-|Hne].
  - rewrite list_lookup_insert_eq by (by eapply lookup_lt_Some). by rewrite He.
  - by rewrite list_lookup_insert_ne.
Qed.

(** [item.value = v; item.createAt = now; MoveToBack(ele)] *)
Lemma consistent_refresh l m heap n e item v now :
  consistent l m heap n → heap !! e = Some item →
  consistent (MoveToBack e l) m (<[e := refresh item v now]> heap) n.
Proof.
  intros Hc He. eapply consistent_Permutation.
  - eapply consistent_heap; [exact Hc|]. intros e'. by apply key_at_refresh.
  - apply MoveToBack_Permutation, Hc.
Qed.

Lemma consistent_MoveToBack l m heap n e :
  consistent l m heap n → consistent (MoveToBack e l) m heap n.
Proof.
  intros Hc. eapply consistent_Permutation; [exact Hc|].
  apply MoveToBack_Permutation, Hc.
Qed.

(** Every element of the list was allocated. *)
Lemma consistent_allocated l m heap n e :
  consistent l m heap n → e ∈ l → (e < length heap)%nat.
Proof.
  intros Hc He. destruct (consistent_elem _ _ _ _ _ Hc He) as (item & Hitem & _).
  by eapply lookup_lt_Some.
Qed.

(** [m[k] = PushBack(item); n++], for a key [k] that is not in the map. *)
Lemma consistent_PushBack l m heap n k v now :
  consistent l m heap n → m !! k = None → n < int64_max →
  consistent (l ++ [length heap]) (<[k := length heap]> m)
             (heap ++ [Entry k v now]) (incr64 n)
  ∧ incr64 n = n + 1.
Proof.
  intros Hc Hk Hlt.
  pose proof (consistent_count _ _ _ _ Hc) as [Hn Hrange].
  pose proof Hc as (Hnd & Hm & Hl & _ & _).
  assert (incr64 n = n + 1) as Hincr.
  { apply incr64_id. unfold int64_min. lia. }
  assert (∀ e, e ∈ l → key_at (heap ++ [Entry k v now]) e = key_at heap e) as Hold.
  { intros e He. unfold key_at. rewrite lookup_app_l; [done|].
    by eapply consistent_allocated. }
  assert (key_at (heap ++ [Entry k v now]) (length heap) = Some k) as Hnew.
  { unfold key_at. by rewrite list_lookup_middle. }
  split; [|done]. unfold consistent. split_and!.
  - apply NoDup_app. split_and!; [done| |apply NoDup_singleton].
    intros e He ->%list_elem_of_singleton.
    pose proof (consistent_allocated _ _ _ _ _ Hc He). lia.
  - intros k' e Hk'. apply lookup_insert_Some in Hk' as [[<- <-]|[Hne Hk']].
    + split; [|done]. apply elem_of_app. right. by apply list_elem_of_singleton.
    + destruct (Hm k' e Hk') as [Hin Hkey]. split.
      * apply elem_of_app. by left.
      * by rewrite Hold.
  - apply Forall_app. split.
    + apply Forall_forall. intros e He. rewrite Hold by done.
      rewrite Forall_forall in Hl. specialize (Hl e He).
      destruct (key_at heap e) as [k'|] eqn:Hk'; [|done]. simpl in *.
      rewrite lookup_insert_ne; [done|]. intros <-. congruence.
    + apply Forall_singleton. rewrite Hnew. simpl. by rewrite lookup_insert_eq.
  - rewrite Hincr, length_app. simpl. lia.
  - lia.
Qed.
End ConsistentFacts.

Section FindFacts.
Context {V : Type}.
Implicit Types (l : list handle) (m : gmap string handle).
Implicit Types (heap : list (entry V)) (n : Z) (e : handle) (k : string).

Lemma find_refresh_eq m heap k e item v now :
  m !! k = Some e → heap !! e = Some item → key item = k →
  find m (<[e := refresh item v now]> heap) k = Some (Entry k v now).
Proof.
  intros Hk Hitem <-. unfold find. rewrite Hk. simpl.
  rewrite list_lookup_insert_eq by (by eapply lookup_lt_Some). done.
Qed.

Lemma find_refresh_ne l m heap n k k' e item :
  consistent l m heap n → m !! k = Some e → k' ≠ k →
  find m (<[e := item]> heap) k' = find m heap k'.
Proof.
  intros Hc Hk Hne. unfold find. destruct (m !! k') as [e'|] eqn:Hk'; [|done].
  simpl. rewrite list_lookup_insert_ne; [done|].
  intros <-. apply Hne. by eapply consistent_inj.
Qed.

Lemma find_PushBack_eq m heap k item :
  find (<[k := length heap]> m) (heap ++ [item]) k = Some item.
Proof. unfold find. rewrite lookup_insert_eq. simpl. by rewrite list_lookup_middle. Qed.

Lemma find_PushBack_ne l m heap n k k' item :
  consistent l m heap n → k' ≠ k →
  find (<[k := length heap]> m) (heap ++ [item]) k' = find m heap k'.
Proof.
  intros Hc Hne. unfold find. rewrite lookup_insert_ne by done.
  destruct (m !! k') as [e'|] eqn:Hk'; [|done]. simpl.
  apply lookup_app_l. destruct (consistent_lookup _ _ _ _ _ _ Hc Hk') as [Hin _].
  by eapply consistent_allocated.
Qed.

Lemma find_delete_ne m heap k k' :
  k' ≠ k → find (delete k m) heap k' = find m heap k'.
Proof. intros Hne. unfold find. by rewrite lookup_delete_ne. Qed.

Lemma find_Some_lookup m heap k item :
  find m heap k = Some item → ∃ e, m !! k = Some e ∧ heap !! e = Some item.
Proof. unfold find. destruct (m !! k) as [e|]; [|done]. simpl. eauto. Qed.
End FindFacts.

Section KeysFacts.
Context {V : Type}.
Implicit Types (l : list handle) (m : gmap string handle).
Implicit Types (heap : list (entry V)) (n : Z) (e : handle) (k : string).

Lemma keys_of_cons heap e l item :
  heap !! e = Some item → keys_of (e :: l) heap = key item :: keys_of l heap.
Proof. intros He. unfold keys_of, key_at. simpl. by rewrite He. Qed.

Lemma elem_of_keys_of heap l k :
  k ∈ keys_of l heap ↔ ∃ e, e ∈ l ∧ key_at heap e = Some k.
Proof. unfold keys_of. apply list_elem_of_omap. Qed.

(** The keys of the list are the keys of the map. *)
Lemma consistent_keys l m heap n k :
  consistent l m heap n → k ∈ keys_of l heap ↔ is_Some (m !! k).
Proof.
  intros Hc. rewrite elem_of_keys_of. split.
  - intros (e & He & Hk). destruct (consistent_elem _ _ _ _ _ Hc He) as (item & Hi & Hm).
    apply key_at_Some in Hk as (item' & Hi' & <-). by simplify_eq.
  - intros [e Hk]. exists e. by eapply consistent_lookup.
Qed.

Lemma keys_of_NoDup_aux l m heap :
  NoDup l → Forall (λ e, key_at heap e ≫= (λ k, m !! k) = Some e) l →
  NoDup (keys_of l heap) ∧ length (keys_of l heap) = length l.
Proof.
  induction l as [|e l IH]; intros Hnd Hl.
  - split; [constructor|done].
  - apply NoDup_cons in Hnd as [He Hnd]. apply Forall_cons in Hl as [Hhd Hl].
    destruct (IH Hnd Hl) as [IH1 IH2].
    destruct (key_at heap e) as [k|] eqn:Hk; [|done]. simpl in Hhd.
    apply key_at_Some in Hk as (item & Hi & <-). rewrite (keys_of_cons _ _ _ _ Hi).
    split; [|simpl; by rewrite IH2].
    apply NoDup_cons. split; [|done].
    intros (e' & He' & Hk')%elem_of_keys_of.
    rewrite Forall_forall in Hl. specialize (Hl e' He').
    rewrite Hk' in Hl. simpl in Hl. congruence.
Qed.

Lemma consistent_keys_NoDup l m heap n :
  consistent l m heap n →
  NoDup (keys_of l heap) ∧ length (keys_of l heap) = length l.
Proof. intros (Hnd & _ & Hl & _). by eapply keys_of_NoDup_aux. Qed.

Lemma consistent_dom l m heap n :
  consistent l m heap n → dom m = list_to_set (keys_of l heap).
Proof.
  intros Hc. apply set_eq. intros k.
  rewrite elem_of_dom, elem_of_list_to_set. symmetry. by eapply consistent_keys.
Qed.

(** [keyCount] is the size of the map. *)
Lemma consistent_size l m heap n :
  consistent l m heap n → n = Z.of_nat (size m).
Proof.
  intros Hc. destruct (consistent_keys_NoDup _ _ _ _ Hc) as [Hnd Hlen].
  rewrite <- size_dom, (consistent_dom _ _ _ _ Hc), size_list_to_set by done.
  rewrite Hlen. apply Hc.
Qed.
End KeysFacts.


Section SweptFacts.
Context {V : Type}.
Implicit Types (l : list handle) (m : gmap string handle).
Implicit Types (heap : list (entry V)) (n : Z) (e : handle) (k : string).

Lemma swept_0 l m heap n : swept 0 l m heap n l m n.
Proof.
  unfold swept. split_and!; [lia|done| |lia].
  intros k. case_decide as Hk; [|done]. exfalso. revert Hk.
  unfold keys_of. rewrite take_0. apply not_elem_of_nil.
Qed.

Lemma swept_S (i : nat) front rest m heap n item l' m' n' :
  heap !! front = Some item →
  swept i rest (delete (key item) m) heap (n - 1) l' m' n' →
  swept (S i) (front :: rest) m heap n l' m' n'.
Proof.
  intros Hitem (Hlen & Hl & Hm & Hn). unfold swept. split_and!.
  - simpl. lia.
  - done.
  - intros k. rewrite Hm.
    change (take (S i) (front :: rest)) with (front :: take i rest).
    rewrite (keys_of_cons _ _ _ _ Hitem).
    destruct (decide (k = key item)) as [->|Hne].
    + rewrite lookup_delete_eq.
      rewrite (decide_True (P := _ ∈ _ :: _)) by apply list_elem_of_here.
      by case_decide.
    + rewrite lookup_delete_ne by done.
      apply decide_ext. rewrite elem_of_cons. tauto.
  - lia.
Qed.

Lemma swept_kept_or_gone (i : nat) l m heap n l' m' n' k :
  swept i l m heap n l' m' n' → kept_or_gone k m heap m' heap.
Proof.
  intros (_ & _ & Hm & _). unfold kept_or_gone, find. rewrite Hm.
  case_decide; [by left|by right].
Qed.

Lemma swept_lookup_None (i : nat) l m heap n l' m' n' k :
  swept i l m heap n l' m' n' → m !! k = None → m' !! k = None.
Proof. intros (_ & _ & Hm & _) Hk. rewrite Hm. by case_decide. Qed.

Lemma swept_length (i : nat) l m heap n l' m' n' :
  swept i l m heap n l' m' n' → (length l' ≤ length l)%nat ∧ n' ≤ n.
Proof. intros (_ & -> & _ & ->). rewrite length_drop. lia. Qed.
End SweptFacts.

Section KeptFacts.
Context {V : Type}.
Implicit Types (m : gmap string handle) (heap : list (entry V)) (k : string).

Lemma kept_or_gone_trans k m0 heap0 m1 heap1 m2 heap2 :
  kept_or_gone k m0 heap0 m1 heap1 → kept_or_gone k m1 heap1 m2 heap2 →
  kept_or_gone k m0 heap0 m2 heap2.
Proof.
  intros [H1|[H1 H1']] [H2|[H2 H2']]; try (by left).
  - left. congruence.
  - right. split; congruence.
Qed.

Lemma kept_or_gone_None k m heap m' heap' :
  kept_or_gone k m heap m' heap' → m !! k = None → m' !! k = None.
Proof. intros [?|[? _]] ?; congruence. Qed.

Lemma kept_or_gone_find k m heap m' heap' item :
  kept_or_gone k m heap m' heap' → find m' heap' k = Some item →
  find m heap k = Some item.
Proof.
  intros [Hgone|[_ Hfind]] Hitem; [|congruence].
  unfold find in Hitem. by rewrite Hgone in Hitem.
Qed.
End KeptFacts.

(** ** Package [lru] *)

Section LruFacts.
Context {V : Type}.
Implicit Types (c : Lru.LRUCache V) (k : string) (e : handle).

Lemma Lru_checkWithLocked_unfold now c :
  Lru.checkWithLocked now c =
  match Front (Lru.lruList c) with
  | None => Some c
  | Some front =>
      match Lru.heap c !! front with
      | None => None
      | Some item =>
          if decide (Lru.keyCount c ≤ Lru.maxCount c
                     ∧ now < add64 (createAt item) (Lru.ttl c))
          then Some c
          else Lru.checkWithLocked now (Lru.remove_entry front (key item) c)
      end
  end.
Proof.
  funelim (Lru.checkWithLocked now c);
    repeat match goal with
      | E : sigmaI _ _ _ = _ |- _ => clear E
      | E : Front (Lru.lruList c) = _ |- _ => rewrite E; clear E
      | E : Lru.heap c !! _ = _ |- _ => rewrite E; clear E
      end; reflexivity.
Qed.

Lemma Lru_remove_entry_Inv c k e :
  Lru.Inv c → Lru.lruMap c !! k = Some e →
  Lru.Inv (Lru.remove_entry e k c) ∧
  Lru.keyCount (Lru.remove_entry e k c) = Lru.keyCount c - 1.
Proof. intros Hc Hk. by apply consistent_Remove. Qed.

(** The eviction pass of [src/lru.go]: it ends, and what it leaves. *)
Lemma Lru_checkWithLocked_spec now c :
  Lru.Inv c →
  ∃ c' n, Lru.checkWithLocked now c = Some c' ∧ Lru.Inv c' ∧
    Lru.same_rest c c' ∧
    swept n (Lru.lruList c) (Lru.lruMap c) (Lru.heap c) (Lru.keyCount c)
            (Lru.lruList c') (Lru.lruMap c') (Lru.keyCount c') ∧
    Lru.at_rest now c' ∧ Lru.due now c n.
Proof.
  remember (length (Lru.lruList c)) as len eqn:Hlen.
  revert c Hlen. induction len as [len IH] using lt_wf_ind. intros c Hlen Hc.
  rewrite Lru_checkWithLocked_unfold.
  destruct (Lru.lruList c) as [|front rest] eqn:Hl; simpl.
  { exists c, 0%nat. split_and!; [done..| | |].
    - rewrite Hl. apply swept_0.
    - unfold Lru.at_rest. by rewrite Hl.
    - intros i ? ? Hi. lia. }
  destruct (consistent_front _ _ _ _ front rest Hc Hl) as (item & Hitem & Hkey & Hrem).
  rewrite Hitem. case_decide as Htest.
  { exists c, 0%nat. split_and!; [done..| | |].
    - rewrite Hl. apply swept_0.
    - unfold Lru.at_rest. rewrite Hl. eauto.
    - intros i ? ? Hi. lia. }
  destruct (Lru_remove_entry_Inv c _ _ Hc Hkey) as [Hc1 Hcnt1].
  set (c1 := Lru.remove_entry front (key item) c) in *.
  assert (Lru.lruList c1 = rest) as Hl1 by (by rewrite <- Hrem).
  destruct (IH (length rest)) with (c := c1) as (c' & n & Hrun & Hc' & Hsame & Hsw & Hrest & Hdue).
  { subst len. simpl. lia. }
  { by rewrite Hl1. }
  { done. }
  exists c', (S n). split_and!; [done..| | |done|].
  - destruct Hsame as (? & ? & ? & ? & ?). by split_and!.
  - eapply swept_S; [exact Hitem|]. rewrite Hl1, Hcnt1 in Hsw. exact Hsw.
  - intros i e item' Hi He Hitem'. rewrite Hl in He. destruct i as [|i].
    + simpl in He. injection He as <-. rewrite Hitem in Hitem'.
      injection Hitem' as <-. unfold Lru.settled.
      change (Z.of_nat 0) with 0. rewrite Z.sub_0_r. exact Htest.
    + simpl in He. unfold Lru.due in Hdue.
      specialize (Hdue i e item'). rewrite Hl1, Hcnt1 in Hdue.
      replace (Lru.keyCount c - Z.of_nat (S i)) with (Lru.keyCount c - 1 - Z.of_nat i) by lia.
      apply Hdue; [lia|done..].
Qed.

Lemma Lru_move_to_back_Inv c e : Lru.Inv c → Lru.Inv (Lru.move_to_back e c).
Proof. apply consistent_MoveToBack. Qed.

Lemma Lru_New_Inv maxCount ttl : Lru.Inv (Lru.NewLRUCache (V:=V) maxCount ttl).
Proof. unfold Lru.Inv. simpl. apply consistent_empty. Qed.

(** The body of [Update] does not panic, writes the entry of [k], and
    leaves the entries of the other keys as they are. *)
Lemma Lru_Update_body_spec k v now c :
  Lru.Inv c → Lru.keyCount c < int64_max →
  ∃ c1, Lru.Update_body k v now c = Some c1 ∧ Lru.Inv c1 ∧
    Lru.maxCount c1 = Lru.maxCount c ∧ Lru.ttl c1 = Lru.ttl c ∧
    Lru.reqCount c1 = Lru.reqCount c ∧ Lru.hitCount c1 = Lru.hitCount c ∧
    find (Lru.lruMap c1) (Lru.heap c1) k = Some (Entry k v now) ∧
    (∀ k', k' ≠ k → Lru.lruMap c1 !! k' = Lru.lruMap c !! k' ∧
       find (Lru.lruMap c1) (Lru.heap c1) k' = find (Lru.lruMap c) (Lru.heap c) k') ∧
    Lru.keyCount c ≤ Lru.keyCount c1 ≤ Lru.keyCount c + 1.
Proof.
  intros Hc Hlt. unfold Lru.Update_body.
  destruct (Lru.lruMap c !! k) as [ele|] eqn:Hk.
  - destruct (consistent_find _ _ _ _ _ _ Hc Hk) as (item & Hitem & Hkey & _).
    rewrite Hitem. simpl. eexists. split; [done|]. split_and!; try done.
    + by apply consistent_refresh.
    + simpl. by apply find_refresh_eq.
    + intros k' Hne. split; [done|]. simpl.
      eapply find_refresh_ne; [exact Hc|done..].
    + simpl. lia.
  - eexists. split; [done|].
    destruct (consistent_PushBack _ _ _ _ k v now Hc Hk Hlt) as [Hc1 Hcnt].
    split_and!; try done.
    + simpl. by apply find_PushBack_eq.
    + intros k' Hne. simpl. split; [by rewrite lookup_insert_ne|].
      eapply find_PushBack_ne; [exact Hc|done].
    + simpl. rewrite Hcnt. lia.
    + simpl. rewrite Hcnt. lia.
Qed.

(** The three ways through the body of [Get]. *)
Lemma Lru_Get_body_miss k now c :
  Lru.lruMap c !! k = None →
  Lru.Get_body k now c = Some ((None, Some ErrLruNotFoundKey), Lru.count_request c).
Proof. intros Hk. unfold Lru.Get_body. simpl. by rewrite Hk. Qed.

Lemma Lru_Get_body_hit k now c e item :
  Lru.lruMap c !! k = Some e → Lru.heap c !! e = Some item →
  add64 (createAt item) (Lru.ttl c) > now →
  Lru.Get_body k now c =
    Some ((Some (value item), None),
          Lru.move_to_back e (Lru.count_hit (Lru.count_request c))).
Proof.
  intros Hk He Hfresh. unfold Lru.Get_body. simpl. rewrite Hk, He. simpl.
  by rewrite decide_True.
Qed.

Lemma Lru_Get_body_stale k now c e item :
  Lru.lruMap c !! k = Some e → Lru.heap c !! e = Some item →
  ¬ add64 (createAt item) (Lru.ttl c) > now →
  Lru.Get_body k now c =
    Some ((None, Some ErrLruNotFoundKey),
          Lru.remove_entry e (key item) (Lru.count_request c)).
Proof.
  intros Hk He Hstale. unfold Lru.Get_body. simpl. rewrite Hk, He. simpl.
  by rewrite decide_False.
Qed.

(** The body of [Get] does not panic, counts the request, and touches no
    entry; the key it looked up may leave the index. *)
Lemma Lru_Get_body_spec k now c :
  Lru.Inv c →
  ∃ r c1, Lru.Get_body k now c = Some (r, c1) ∧ Lru.Inv c1 ∧
    Lru.maxCount c1 = Lru.maxCount c ∧ Lru.ttl c1 = Lru.ttl c ∧
    Lru.heap c1 = Lru.heap c ∧
    Lru.reqCount c1 = incr64 (Lru.reqCount c) ∧
    (∀ k', kept_or_gone k' (Lru.lruMap c) (Lru.heap c) (Lru.lruMap c1) (Lru.heap c1)) ∧
    Lru.keyCount c1 ≤ Lru.keyCount c ∧
    ((r = (None, Some ErrLruNotFoundKey) ∧ Lru.hitCount c1 = Lru.hitCount c ∧
      Lru.lruMap c1 !! k = None)
     ∨ (∃ item, find (Lru.lruMap c) (Lru.heap c) k = Some item ∧
          add64 (createAt item) (Lru.ttl c) > now ∧
          r = (Some (value item), None) ∧
          Lru.hitCount c1 = incr64 (Lru.hitCount c) ∧
          Lru.lruMap c1 = Lru.lruMap c ∧ Lru.keyCount c1 = Lru.keyCount c)).
Proof.
  intros Hc. destruct (Lru.lruMap c !! k) as [e|] eqn:Hk.
  - destruct (consistent_find _ _ _ _ _ _ Hc Hk) as (item & Hitem & Hkey & Hfind).
    destruct (decide (add64 (createAt item) (Lru.ttl c) > now)) as [Hfresh|Hstale].
    + rewrite (Lru_Get_body_hit _ _ _ _ _ Hk Hitem Hfresh).
      eexists _, _. split; [done|]. split_and!; try done.
      * by apply Lru_move_to_back_Inv.
      * intros k'. by right.
      * right. exists item. by split_and!.
    + rewrite (Lru_Get_body_stale _ _ _ _ _ Hk Hitem Hstale).
      destruct (Lru_remove_entry_Inv (Lru.count_request c) (key item) e) as [Hc1 Hcnt];
        [done|by rewrite Hkey|].
      eexists _, _. split; [done|]. split_and!; try done.
      * intros k'. simpl. rewrite Hkey. destruct (decide (k' = k)) as [->|Hne].
        -- left. apply lookup_delete_eq.
        -- right. split; [by rewrite lookup_delete_ne|by apply find_delete_ne].
      * rewrite Hcnt. simpl. lia.
      * left. split_and!; [done..|]. simpl. rewrite Hkey. apply lookup_delete_eq.
  - rewrite (Lru_Get_body_miss _ _ _ Hk).
    eexists _, _. split; [done|]. split_and!; try done.
    + intros k'. by right.
    + by left.
Qed.

Lemma Lru_at_rest_bounded now c :
  Lru.Inv c → Lru.at_rest now c → Lru.keyCount c ≤ Z.max 0 (Lru.maxCount c).
Proof.
  intros Hc Hrest. unfold Lru.at_rest in Hrest.
  destruct (Lru.lruList c) as [|front rest] eqn:Hl.
  - destruct (consistent_count _ _ _ _ Hc) as [-> _]. rewrite Hl. simpl. lia.
  - destruct Hrest as (item & _ & Hle & _). lia.
Qed.

(** [Update] as a whole: the body, then the pass. *)
Lemma Lru_Update_spec k v now now' c :
  Lru.Inv c → Lru.keyCount c < int64_max →
  ∃ c', Lru.Update k v now now' c = Some (None, c') ∧ Lru.Inv c' ∧
    Lru.maxCount c' = Lru.maxCount c ∧ Lru.ttl c' = Lru.ttl c ∧
    Lru.reqCount c' = Lru.reqCount c ∧ Lru.hitCount c' = Lru.hitCount c ∧
    Lru.keyCount c' ≤ Lru.keyCount c + 1 ∧
    Lru.at_rest now' c' ∧
    (Lru.lruMap c' !! k = None
     ∨ find (Lru.lruMap c') (Lru.heap c') k = Some (Entry k v now)) ∧
    (∀ k', k' ≠ k →
       kept_or_gone k' (Lru.lruMap c) (Lru.heap c) (Lru.lruMap c') (Lru.heap c')).
Proof.
  intros Hc Hlt.
  destruct (Lru_Update_body_spec k v now c Hc Hlt)
    as (c1 & Hbody & Hc1 & Hmax1 & Httl1 & Hreq1 & Hhit1 & Hfind1 & Hother1 & Hcnt1).
  destruct (Lru_checkWithLocked_spec now' c1 Hc1)
    as (c' & n & Hpass & Hc' & (Hmax & Httl & Hreq & Hhit & Hheap) & Hsw & Hrest & _).
  exists c'. unfold Lru.Update. rewrite Hbody. simpl. rewrite Hpass. simpl.
  split; [done|]. split_and!; try congruence; try done.
  - destruct (swept_length _ _ _ _ _ _ _ _ Hsw). lia.
  - pose proof (swept_kept_or_gone _ _ _ _ _ _ _ _ k Hsw) as [Hgone|[_ Hkept]].
    + by left.
    + right. rewrite Hheap. congruence.
  - intros k' Hne. destruct (Hother1 k' Hne) as [Hm1 Hf1].
    eapply kept_or_gone_trans; [right; split; [exact Hm1|exact Hf1]|].
    rewrite Hheap. by eapply swept_kept_or_gone.
Qed.

(** [Get] as a whole: the body, then the pass. *)
Lemma Lru_Get_spec k now now' c :
  Lru.Inv c →
  ∃ r c', Lru.Get k now now' c = Some (r, c') ∧ Lru.Inv c' ∧
    Lru.maxCount c' = Lru.maxCount c ∧ Lru.ttl c' = Lru.ttl c ∧
    Lru.heap c' = Lru.heap c ∧
    Lru.reqCount c' = incr64 (Lru.reqCount c) ∧
    Lru.keyCount c' ≤ Lru.keyCount c ∧
    Lru.at_rest now' c' ∧
    (∀ k', kept_or_gone k' (Lru.lruMap c) (Lru.heap c) (Lru.lruMap c') (Lru.heap c')) ∧
    ((r = (None, Some ErrLruNotFoundKey) ∧ Lru.hitCount c' = Lru.hitCount c)
     ∨ (∃ item, find (Lru.lruMap c) (Lru.heap c) k = Some item ∧
          add64 (createAt item) (Lru.ttl c) > now ∧
          r = (Some (value item), None) ∧
          Lru.hitCount c' = incr64 (Lru.hitCount c))).
Proof.
  intros Hc.
  destruct (Lru_Get_body_spec k now c Hc)
    as (r & c1 & Hbody & Hc1 & Hmax1 & Httl1 & Hheap1 & Hreq1 & Hkept1 & Hcnt1 & Hres).
  destruct (Lru_checkWithLocked_spec now' c1 Hc1)
    as (c' & n & Hpass & Hc' & (Hmax & Httl & Hreq & Hhit & Hheap) & Hsw & Hrest & _).
  exists r, c'. unfold Lru.Get. rewrite Hbody. simpl. rewrite Hpass. simpl.
  split; [done|]. split_and!; try congruence; try done.
  - destruct (swept_length _ _ _ _ _ _ _ _ Hsw). lia.
  - intros k'. eapply kept_or_gone_trans; [apply Hkept1|].
    rewrite Hheap. by eapply swept_kept_or_gone.
  - destruct Hres as [(-> & Hh & _)|(item & ? & ? & -> & Hh & _)].
    + left. split; [done|congruence].
    + right. exists item. split_and!; [done..|congruence].
Qed.

(** Any call, from a consistent state whose count can still grow. *)
Lemma Lru_step_spec o c :
  Lru.Inv c → Lru.keyCount c < int64_max →
  ∃ c', Lru.step o c = Some c' ∧ Lru.Inv c' ∧
    Lru.maxCount c' = Lru.maxCount c ∧ Lru.ttl c' = Lru.ttl c ∧
    Lru.keyCount c' ≤ Lru.keyCount c + 1 ∧
    Lru.keyCount c' ≤ Z.max 0 (Lru.maxCount c) ∧
    (∀ k, kept_or_gone k (Lru.lruMap c) (Lru.heap c) (Lru.lruMap c') (Lru.heap c')
          ∨ Lru.written o k c').
Proof.
  intros Hc Hlt. destruct o as [k v now now'|k now now'].
  - destruct (Lru_Update_spec k v now now' c Hc Hlt)
      as (c' & Hrun & Hc' & Hmax & Httl & _ & _ & Hcnt & Hrest & Hk & Hother).
    exists c'. simpl. rewrite Hrun. split; [done|]. split_and!; try done.
    + rewrite <- Hmax. by eapply Lru_at_rest_bounded.
    + intros k'. destruct (decide (k' = k)) as [->|Hne].
      * destruct Hk as [Hgone|Hfind]; [left; by left|right; by split].
      * left. by apply Hother.
  - destruct (Lru_Get_spec k now now' c Hc)
      as (r & c' & Hrun & Hc' & Hmax & Httl & _ & _ & Hcnt & Hrest & Hkept & _).
    exists c'. simpl. rewrite Hrun. split; [done|]. split_and!; try done.
    + lia.
    + rewrite <- Hmax. by eapply Lru_at_rest_bounded.
    + intros k'. left. apply Hkept.
Qed.

(** Runs: a property that every call keeps is kept by the run, and the run
    does not panic. *)
Lemma Lru_run_spec (P : Lru.LRUCache V → Prop) os c :
  (∀ o c c', o ∈ os → Lru.Inv c → Lru.keyCount c < int64_max → P c →
             Lru.step o c = Some c' → P c') →
  Lru.Inv c → Lru.keyCount c + Z.of_nat (length os) ≤ int64_max → P c →
  ∃ c', Lru.run os c = Some c' ∧ Lru.Inv c' ∧ P c' ∧
    Lru.maxCount c' = Lru.maxCount c ∧ Lru.ttl c' = Lru.ttl c ∧
    Lru.keyCount c' ≤ Lru.keyCount c + Z.of_nat (length os) ∧
    (os ≠ [] → Lru.keyCount c' ≤ Z.max 0 (Lru.maxCount c)).
Proof.
  revert c. induction os as [|o os IH]; intros c Hstep Hc Hlen HP.
  - exists c. simpl. split_and!; try done. lia.
  - simpl in Hlen.
    destruct (Lru_step_spec o c Hc) as (c1 & Hrun1 & Hc1 & Hmax1 & Httl1 & Hcnt1 & Hbound1 & _);
      [lia|].
    destruct (IH c1) as (c' & Hrun & Hc' & HP' & Hmax & Httl & Hcnt & Hbound).
    { intros o' c0 c0' Hin. apply Hstep. by apply elem_of_cons; right. }
    { done. }
    { lia. }
    { eapply (Hstep o c c1); [apply list_elem_of_here|done|lia|done..]. }
    exists c'. simpl. rewrite Hrun1. simpl. split; [done|].
    split_and!; try congruence; try done.
    + lia.
    + intros _. destruct os as [|o' os'].
      * simpl in Hrun. by simplify_eq.
      * rewrite <- Hmax1. by apply Hbound.
Qed.
End LruFacts.

(** ** Package [cache] *)

Section CacheFacts.
Context {V : Type}.
Implicit Types (c : Cache.LRUCache V) (k : string) (e : handle).

Lemma Cache_checkWithLocked_unfold c :
  Cache.checkWithLocked c =
  if decide (Cache.keyCount c > Cache.maxCount c) then
    match Front (Cache.lruList c) with
    | None => Some c
    | Some front =>
        match Cache.heap c !! front with
        | None => None
        | Some item => Cache.checkWithLocked (Cache.remove_entry front (key item) c)
        end
    end
  else Some c.
Proof.
  funelim (Cache.checkWithLocked c);
    repeat match goal with
      | E : sigmaI _ _ _ = _ |- _ => clear E
      | E : decide _ = _ |- _ => rewrite E; clear E
      | E : Front (Cache.lruList c) = _ |- _ => rewrite E; clear E
      | E : Cache.heap c !! _ = _ |- _ => rewrite E; clear E
      end; reflexivity.
Qed.

Lemma Cache_New_Inv maxCount ttl : Cache.Inv (Cache.NewLRUCache (V:=V) maxCount ttl).
Proof. unfold Cache.Inv. simpl. apply consistent_empty. Qed.

Lemma Cache_remove_entry_Inv c k e :
  Cache.Inv c → Cache.lruMap c !! k = Some e →
  Cache.Inv (Cache.remove_entry e k c) ∧
  Cache.keyCount (Cache.remove_entry e k c) = Cache.keyCount c - 1.
Proof. intros Hc Hk. by apply consistent_Remove. Qed.

Lemma Cache_move_to_back_Inv c e : Cache.Inv c → Cache.Inv (Cache.move_to_back e c).
Proof. apply consistent_MoveToBack. Qed.

(** The eviction pass of [src/lru_cache.go]: it ends, and what it leaves. *)
Lemma Cache_checkWithLocked_spec c :
  Cache.Inv c →
  ∃ c' n, Cache.checkWithLocked c = Some c' ∧ Cache.Inv c' ∧
    Cache.same_rest c c' ∧
    swept n (Cache.lruList c) (Cache.lruMap c) (Cache.heap c) (Cache.keyCount c)
            (Cache.lruList c') (Cache.lruMap c') (Cache.keyCount c') ∧
    Cache.at_rest c' ∧ Cache.due c n.
Proof.
  remember (length (Cache.lruList c)) as len eqn:Hlen.
  revert c Hlen. induction len as [len IH] using lt_wf_ind. intros c Hlen Hc.
  rewrite Cache_checkWithLocked_unfold.
  case_decide as Hover.
  2:{ exists c, 0%nat. split_and!; [done..|apply swept_0| |].
      - left. lia.
      - intros i Hi. lia. }
  destruct (Cache.lruList c) as [|front rest] eqn:Hl; simpl.
  { exists c, 0%nat. split_and!; [done..| | |].
    - rewrite Hl. apply swept_0.
    - by right.
    - intros i Hi. lia. }
  destruct (consistent_front _ _ _ _ front rest Hc Hl) as (item & Hitem & Hkey & Hrem).
  rewrite Hitem.
  destruct (Cache_remove_entry_Inv c _ _ Hc Hkey) as [Hc1 Hcnt1].
  set (c1 := Cache.remove_entry front (key item) c) in *.
  assert (Cache.lruList c1 = rest) as Hl1 by (by rewrite <- Hrem).
  destruct (IH (length rest)) with (c := c1)
    as (c' & n & Hrun & Hc' & Hsame & Hsw & Hrest & Hdue).
  { subst len. simpl. lia. }
  { by rewrite Hl1. }
  { done. }
  exists c', (S n). split_and!; [done..| | |done|].
  - destruct Hsame as (? & ? & ? & ? & ?). by split_and!.
  - eapply swept_S; [exact Hitem|]. rewrite Hl1, Hcnt1 in Hsw. exact Hsw.
  - intros i Hi. destruct i as [|i].
    + change (Z.of_nat 0) with 0. lia.
    + unfold Cache.due in Hdue. specialize (Hdue i). rewrite Hcnt1 in Hdue.
      change (Cache.maxCount c1) with (Cache.maxCount c) in Hdue. lia.
Qed.

Lemma Cache_at_rest_bounded c :
  Cache.Inv c → Cache.at_rest c → Cache.keyCount c ≤ Z.max 0 (Cache.maxCount c).
Proof.
  intros Hc [Hle|Hnil]; [lia|].
  destruct (consistent_count _ _ _ _ Hc) as [-> _]. rewrite Hnil. simpl. lia.
Qed.

(** [Update]: no panic; the entry of [k] is written; after an insert the
    pass may take entries out, the one of [k] included. *)
Lemma Cache_Update_spec k v now c :
  Cache.Inv c → Cache.keyCount c < int64_max →
  ∃ c', Cache.Update k v now c = Some (None, c') ∧ Cache.Inv c' ∧
    Cache.maxCount c' = Cache.maxCount c ∧ Cache.ttl c' = Cache.ttl c ∧
    Cache.totalReqTimes c' = Cache.totalReqTimes c ∧
    Cache.totalHitTimes c' = Cache.totalHitTimes c ∧
    Cache.keyCount c' ≤ Cache.keyCount c + 1 ∧
    (Cache.keyCount c ≤ Z.max 0 (Cache.maxCount c) →
     Cache.keyCount c' ≤ Z.max 0 (Cache.maxCount c)) ∧
    (Cache.lruMap c' !! k = None
     ∨ find (Cache.lruMap c') (Cache.heap c') k = Some (Entry k v now)) ∧
    (∀ k', k' ≠ k →
       kept_or_gone k' (Cache.lruMap c) (Cache.heap c) (Cache.lruMap c') (Cache.heap c')).
Proof.
  intros Hc Hlt. unfold Cache.Update.
  destruct (Cache.lruMap c !! k) as [ele|] eqn:Hk.
  - destruct (consistent_find _ _ _ _ _ _ Hc Hk) as (item & Hitem & Hkey & _).
    rewrite Hitem. simpl. eexists. split; [done|]. split_and!; try done.
    + by apply consistent_refresh.
    + simpl. lia.
    + right. simpl. by apply find_refresh_eq.
    + intros k' Hne. right. split; [done|]. simpl.
      eapply find_refresh_ne; [exact Hc|done..].
  - destruct (consistent_PushBack _ _ _ _ k v now Hc Hk Hlt) as [Hc1 Hcnt1].
    set (c1 := Cache.push_back k (Entry k v now) c).
    destruct (Cache_checkWithLocked_spec c1 Hc1)
      as (c' & n & Hpass & Hc' & (Hmax & Httl & Hreq & Hhit & Hheap) & Hsw & Hrest & _).
    rewrite Hpass. simpl. exists c'. split; [done|].
    destruct (swept_length _ _ _ _ _ _ _ _ Hsw) as [_ Hle]. simpl in Hle.
    split_and!; try done.
    + lia.
    + intros _. change (Cache.maxCount c) with (Cache.maxCount c1).
      rewrite <- Hmax. by apply Cache_at_rest_bounded.
    + pose proof (swept_kept_or_gone _ _ _ _ _ _ _ _ k Hsw) as [Hgone|[_ Hkept]].
      * by left.
      * right. rewrite Hheap, Hkept. apply find_PushBack_eq.
    + intros k' Hne. eapply kept_or_gone_trans.
      * right. split; [|by eapply find_PushBack_ne].
        simpl. by rewrite lookup_insert_ne.
      * rewrite Hheap. by eapply swept_kept_or_gone.
Qed.

(** The three ways through [Get]. *)
Lemma Cache_Get_miss k now c :
  Cache.lruMap c !! k = None →
  Cache.Get k now c = Some ((None, Some ErrKeyNotFound), Cache.count_request c).
Proof. intros Hk. unfold Cache.Get. simpl. by rewrite Hk. Qed.

Lemma Cache_Get_hit k now c e item :
  Cache.lruMap c !! k = Some e → Cache.heap c !! e = Some item →
  add64 (createAt item) (Cache.ttl c) > now →
  Cache.Get k now c =
    Some ((Some (value item), None),
          Cache.move_to_back e (Cache.count_hit (Cache.count_request c))).
Proof.
  intros Hk He Hfresh. unfold Cache.Get. simpl. rewrite Hk, He. simpl.
  by rewrite decide_True.
Qed.

Lemma Cache_Get_stale k now c e item :
  Cache.lruMap c !! k = Some e → Cache.heap c !! e = Some item →
  ¬ add64 (createAt item) (Cache.ttl c) > now →
  Cache.Get k now c =
    Some ((None, Some ErrKeyNotFound),
          Cache.remove_entry e k (Cache.count_request c)).
Proof.
  intros Hk He Hstale. unfold Cache.Get. simpl. rewrite Hk, He. simpl.
  by rewrite decide_False.
Qed.

Lemma Cache_Get_spec k now c :
  Cache.Inv c →
  ∃ r c', Cache.Get k now c = Some (r, c') ∧ Cache.Inv c' ∧
    Cache.maxCount c' = Cache.maxCount c ∧ Cache.ttl c' = Cache.ttl c ∧
    Cache.heap c' = Cache.heap c ∧
    Cache.totalReqTimes c' = incr64 (Cache.totalReqTimes c) ∧
    Cache.keyCount c' ≤ Cache.keyCount c ∧
    (∀ k', kept_or_gone k' (Cache.lruMap c) (Cache.heap c)
                           (Cache.lruMap c') (Cache.heap c')) ∧
    ((r = (None, Some ErrKeyNotFound) ∧
      Cache.totalHitTimes c' = Cache.totalHitTimes c ∧
      Cache.lruMap c' !! k = None)
     ∨ (∃ item, find (Cache.lruMap c) (Cache.heap c) k = Some item ∧
          add64 (createAt item) (Cache.ttl c) > now ∧
          r = (Some (value item), None) ∧
          Cache.totalHitTimes c' = incr64 (Cache.totalHitTimes c) ∧
          Cache.lruMap c' = Cache.lruMap c ∧ Cache.keyCount c' = Cache.keyCount c)).
Proof.
  intros Hc. destruct (Cache.lruMap c !! k) as [e|] eqn:Hk.
  - destruct (consistent_find _ _ _ _ _ _ Hc Hk) as (item & Hitem & Hkey & Hfind).
    destruct (decide (add64 (createAt item) (Cache.ttl c) > now)) as [Hfresh|Hstale].
    + rewrite (Cache_Get_hit _ _ _ _ _ Hk Hitem Hfresh).
      eexists _, _. split; [done|]. split_and!; try done.
      * by apply Cache_move_to_back_Inv.
      * intros k'. by right.
      * right. exists item. by split_and!.
    + rewrite (Cache_Get_stale _ _ _ _ _ Hk Hitem Hstale).
      destruct (Cache_remove_entry_Inv (Cache.count_request c) k e) as [Hc1 Hcnt];
        [done..|].
      eexists _, _. split; [done|]. split_and!; try done.
      * rewrite Hcnt. simpl. lia.
      * intros k'. simpl. destruct (decide (k' = k)) as [->|Hne].
        -- left. apply lookup_delete_eq.
        -- right. split; [by rewrite lookup_delete_ne|by apply find_delete_ne].
      * left. split_and!; [done..|]. simpl. apply lookup_delete_eq.
  - rewrite (Cache_Get_miss _ _ _ Hk).
    eexists _, _. split; [done|]. split_and!; try done.
    + intros k'. by right.
    + by left.
Qed.

(** The two ways through [Delete]. *)
Lemma Cache_Delete_present k c e :
  Cache.lruMap c !! k = Some e →
  Cache.Delete k c =
    (None, Cache.remove_entry e k (Cache.count_hit (Cache.count_request c))).
Proof. intros Hk. unfold Cache.Delete. simpl. by rewrite Hk. Qed.

Lemma Cache_Delete_absent k c :
  Cache.lruMap c !! k = None →
  Cache.Delete k c = (Some ErrKeyNotFound, Cache.count_request c).
Proof. intros Hk. unfold Cache.Delete. simpl. by rewrite Hk. Qed.

Lemma Cache_Delete_spec k c :
  Cache.Inv c →
  let c' := snd (Cache.Delete k c) in
  Cache.Inv c' ∧
  Cache.maxCount c' = Cache.maxCount c ∧ Cache.ttl c' = Cache.ttl c ∧
  Cache.heap c' = Cache.heap c ∧
  Cache.keyCount c' ≤ Cache.keyCount c ∧
  (∀ k', kept_or_gone k' (Cache.lruMap c) (Cache.heap c)
                         (Cache.lruMap c') (Cache.heap c')).
Proof.
  intros Hc. destruct (Cache.lruMap c !! k) as [e|] eqn:Hk.
  - rewrite (Cache_Delete_present _ _ _ Hk). simpl.
    destruct (Cache_remove_entry_Inv (Cache.count_hit (Cache.count_request c)) k e)
      as [Hc1 Hcnt]; [done..|].
    split_and!; try done.
    + simpl in Hcnt. simpl. lia.
    + intros k'. destruct (decide (k' = k)) as [->|Hne].
      * left. apply lookup_delete_eq.
      * right. split; [by rewrite lookup_delete_ne|by apply find_delete_ne].
  - rewrite (Cache_Delete_absent _ _ Hk). simpl. split_and!; try done.
    intros k'. by right.
Qed.

(** Any call, from a consistent state whose count can still grow. *)
Lemma Cache_step_spec o c :
  Cache.Inv c → Cache.keyCount c < int64_max →
  ∃ c', Cache.step o c = Some c' ∧ Cache.Inv c' ∧
    Cache.maxCount c' = Cache.maxCount c ∧ Cache.ttl c' = Cache.ttl c ∧
    Cache.keyCount c' ≤ Cache.keyCount c + 1 ∧
    (Cache.keyCount c ≤ Z.max 0 (Cache.maxCount c) →
     Cache.keyCount c' ≤ Z.max 0 (Cache.maxCount c)) ∧
    (∀ k, kept_or_gone k (Cache.lruMap c) (Cache.heap c)
                         (Cache.lruMap c') (Cache.heap c')
          ∨ Cache.written o k c').
Proof.
  intros Hc Hlt. destruct o as [k v now|k now|k].
  - destruct (Cache_Update_spec k v now c Hc Hlt)
      as (c' & Hrun & Hc' & Hmax & Httl & _ & _ & Hcnt & Hbound & Hk & Hother).
    exists c'. simpl. rewrite Hrun. split; [done|]. split_and!; try done.
    intros k'. destruct (decide (k' = k)) as [->|Hne].
    + destruct Hk as [Hgone|Hfind]; [left; by left|right; by split].
    + left. by apply Hother.
  - destruct (Cache_Get_spec k now c Hc)
      as (r & c' & Hrun & Hc' & Hmax & Httl & _ & _ & Hcnt & Hkept & _).
    exists c'. simpl. rewrite Hrun. split; [done|]. split_and!; try done.
    + lia.
    + lia.
    + intros k'. left. apply Hkept.
  - destruct (Cache_Delete_spec k c Hc) as (Hc' & Hmax & Httl & _ & Hcnt & Hkept).
    eexists. simpl. split; [done|]. split_and!; try done.
    + lia.
    + lia.
    + intros k'. left. apply Hkept.
Qed.

Lemma Cache_run_spec (P : Cache.LRUCache V → Prop) os c :
  (∀ o c c', o ∈ os → Cache.Inv c → Cache.keyCount c < int64_max → P c →
             Cache.step o c = Some c' → P c') →
  Cache.Inv c → Cache.keyCount c + Z.of_nat (length os) ≤ int64_max → P c →
  ∃ c', Cache.run os c = Some c' ∧ Cache.Inv c' ∧ P c' ∧
    Cache.maxCount c' = Cache.maxCount c ∧ Cache.ttl c' = Cache.ttl c ∧
    Cache.keyCount c' ≤ Cache.keyCount c + Z.of_nat (length os) ∧
    (Cache.keyCount c ≤ Z.max 0 (Cache.maxCount c) →
     Cache.keyCount c' ≤ Z.max 0 (Cache.maxCount c)).
Proof.
  revert c. induction os as [|o os IH]; intros c Hstep Hc Hlen HP.
  - exists c. simpl. split_and!; try done. lia.
  - simpl in Hlen.
    destruct (Cache_step_spec o c Hc)
      as (c1 & Hrun1 & Hc1 & Hmax1 & Httl1 & Hcnt1 & Hbound1 & _); [lia|].
    destruct (IH c1) as (c' & Hrun & Hc' & HP' & Hmax & Httl & Hcnt & Hbound).
    { intros o' c0 c0' Hin. apply Hstep. by apply elem_of_cons; right. }
    { done. }
    { lia. }
    { eapply (Hstep o c c1); [apply list_elem_of_here|done|lia|done..]. }
    exists c'. simpl. rewrite Hrun1. simpl. split; [done|].
    split_and!; try congruence; try done.
    + lia.
    + intros Hb. rewrite <- Hmax1. apply Hbound. rewrite Hmax1. by apply Hbound1.
Qed.
End CacheFacts.

(** ** The model on the test cases of the specification

    The two files agree on these runs. Every entry lives 100 seconds, and
    the clock goes up by one second per call. *)

(** LRU order: capacity 2; [Update(a,1)], [Update(b,2)], [Get(a)],
    [Update(c,3)]: [b] is evicted, [a] and [c] are still there. *)
Example Lru_lru_order :
  ∃ c ca cc,
    Lru.run [Lru.OpUpdate "a" 1 0 0; Lru.OpUpdate "b" 2 1 1; Lru.OpGet "a" 2 2;
             Lru.OpUpdate "c" 3 3 3] (Lru.NewLRUCache 2 100) = Some c ∧
    Lru.lruMap c !! "b" = None ∧
    Lru.Get "a" 4 4 c = Some ((Some 1, None), ca) ∧
    Lru.Get "c" 4 4 c = Some ((Some 3, None), cc).
Proof.
  eexists _, _, _. split_and!.
  - by vm_compute.
  - by vm_compute.
  - by vm_compute.
  - by vm_compute.
Qed.

Example Cache_lru_order :
  ∃ c ca cc,
    Cache.run [Cache.OpUpdate "a" 1 0; Cache.OpUpdate "b" 2 1; Cache.OpGet "a" 2;
               Cache.OpUpdate "c" 3 3] (Cache.NewLRUCache 2 100) = Some c ∧
    Cache.lruMap c !! "b" = None ∧
    Cache.Get "a" 4 c = Some ((Some 1, None), ca) ∧
    Cache.Get "c" 4 c = Some ((Some 3, None), cc).
Proof.
  eexists _, _, _. split_and!.
  - by vm_compute.
  - by vm_compute.
  - by vm_compute.
  - by vm_compute.
Qed.

(** Recency refresh on write: capacity 2; [Update(a,1)], [Update(b,2)],
    [Update(a,3)], [Update(c,4)]: [b] is evicted, not [a], and [Get(a)]
    returns 3. *)
Example Lru_refresh_on_write :
  ∃ c ca,
    Lru.run [Lru.OpUpdate "a" 1 0 0; Lru.OpUpdate "b" 2 1 1; Lru.OpUpdate "a" 3 2 2;
             Lru.OpUpdate "c" 4 3 3] (Lru.NewLRUCache 2 100) = Some c ∧
    Lru.lruMap c !! "b" = None ∧
    Lru.Get "a" 4 4 c = Some ((Some 3, None), ca).
Proof.
  eexists _, _. split_and!.
  - by vm_compute.
  - by vm_compute.
  - by vm_compute.
Qed.

Example Cache_refresh_on_write :
  ∃ c ca,
    Cache.run [Cache.OpUpdate "a" 1 0; Cache.OpUpdate "b" 2 1; Cache.OpUpdate "a" 3 2;
               Cache.OpUpdate "c" 4 3] (Cache.NewLRUCache 2 100) = Some c ∧
    Cache.lruMap c !! "b" = None ∧
    Cache.Get "a" 4 c = Some ((Some 3, None), ca).
Proof.
  eexists _, _. split_and!.
  - by vm_compute.
  - by vm_compute.
  - by vm_compute.
Qed.

(** Hit and request counting: one [Get] of an absent key counts one request
    and no hit; one [Update] and one [Get] of its key count one request and
    one hit. *)
Example Lru_hit_request_counting :
  (∃ c, Lru.run [Lru.OpGet "a" 0 0] (Lru.NewLRUCache (V:=Z) 2 100) = Some c ∧
        Lru.GetReqCount c = 1 ∧ Lru.GetHitCount c = 0) ∧
  (∃ c, Lru.run [Lru.OpUpdate "a" 1 0 0; Lru.OpGet "a" 1 1] (Lru.NewLRUCache 2 100)
          = Some c ∧
        Lru.GetReqCount c = 1 ∧ Lru.GetHitCount c = 1).
Proof.
  split; eexists; (split_and!; [by vm_compute|done|done]).
Qed.

Example Cache_hit_request_counting :
  (∃ c, Cache.run [Cache.OpGet "a" 0] (Cache.NewLRUCache (V:=Z) 2 100) = Some c ∧
        Cache.GetTotalReqTimes c = 1 ∧ Cache.GetTotalHitTimes c = 0) ∧
  (∃ c, Cache.run [Cache.OpUpdate "a" 1 0; Cache.OpGet "a" 1] (Cache.NewLRUCache 2 100)
          = Some c ∧
        Cache.GetTotalReqTimes c = 1 ∧ Cache.GetTotalHitTimes c = 1).
Proof.
  split; eexists; (split_and!; [by vm_compute|done|done]).
Qed.

(** Eviction terminates: capacity 0 and entries that are all expired leave
    no key. *)
Example Lru_eviction_terminates :
  ∃ c, Lru.checkWithLocked 100
         {| Lru.maxCount := 0; Lru.ttl := 5;
            Lru.lruList := [0%nat; 1%nat];
            Lru.lruMap := {[ "a" := 0%nat; "b" := 1%nat ]};
            Lru.reqCount := 0; Lru.hitCount := 0; Lru.keyCount := 2;
            Lru.heap := [Entry "a" 7 0; Entry "b" 8 0] |} = Some c ∧
       Lru.GetKeysCount c = 0 ∧ Lru.lruList c = [] ∧ Lru.lruMap c = ∅.
Proof. eexists. split_and!; [by vm_compute|done..]. Qed.

(** The example states are states of runs. *)
Example lru_two_old_reached :
  Lru.run [Lru.OpUpdate "a" 7 0 0; Lru.OpUpdate "b" 8 0 0] (Lru.NewLRUCache 10 5)
    = Some lru_two_old.
Proof. by vm_compute. Qed.

Example cache_one_old_reached :
  Cache.run [Cache.OpUpdate "a" 7 0] (Cache.NewLRUCache 2 5) = Some cache_one_old.
Proof. by vm_compute. Qed.

Example cache_two_old_reached :
  Cache.run [Cache.OpUpdate "a" 7 0; Cache.OpUpdate "b" 8 0] (Cache.NewLRUCache 10 5)
    = Some cache_two_old.
Proof. by vm_compute. Qed.

(** * The claims of the specification *)

(** ** C1: the eviction pass *)

Section Claim1.
Context {V : Type}.

(** C1, as amended. In [src/lru.go] every invocation of the eviction pass
    ends, and takes out of the index and of the list the first [n] entries
    of the list, counting [keyCount] down by [n]: each of them failed the
    test "count within [maxCount] and not expired" at its turn, and the pass
    stops when the list is empty or its front passes that test; so a front
    entry that is expired is removed, even with the count within
    [maxCount]. In [src/lru_cache.go] the pass looks at the count alone: it
    takes entries out while the count is above [maxCount] and the list is not
    empty, and changes nothing when the count is within [maxCount], whatever
    the age of the front entry. *)
Theorem C1_eviction_pass :
  (∀ (now : Z) (c : Lru.LRUCache V), Lru.Inv c →
     ∃ c' n, Lru.checkWithLocked now c = Some c' ∧ Lru.Inv c' ∧
       Lru.same_rest c c' ∧
       swept n (Lru.lruList c) (Lru.lruMap c) (Lru.heap c) (Lru.keyCount c)
               (Lru.lruList c') (Lru.lruMap c') (Lru.keyCount c') ∧
       Lru.due now c n ∧ Lru.at_rest now c' ∧
       (∀ front rest item,
          Lru.lruList c = front :: rest → Lru.heap c !! front = Some item →
          ¬ (now < add64 (createAt item) (Lru.ttl c)) →
          (front ∉ Lru.lruList c') ∧ Lru.lruMap c' !! key item = None ∧
          Lru.keyCount c' < Lru.keyCount c))
  ∧
  (∀ (c : Cache.LRUCache V), Cache.Inv c →
     ∃ c' n, Cache.checkWithLocked c = Some c' ∧ Cache.Inv c' ∧
       Cache.same_rest c c' ∧
       swept n (Cache.lruList c) (Cache.lruMap c) (Cache.heap c) (Cache.keyCount c)
               (Cache.lruList c') (Cache.lruMap c') (Cache.keyCount c') ∧
       Cache.due c n ∧ Cache.at_rest c' ∧
       (Cache.keyCount c ≤ Cache.maxCount c → c' = c)).
Proof.
  split.
  - intros now c Hc.
    destruct (Lru_checkWithLocked_spec now c Hc)
      as (c' & n & Hrun & Hc' & Hsame & Hsw & Hrest & Hdue).
    exists c', n. split_and!; [done..|].
    intros front rest item Hl Hitem Hexp.
    destruct Hsw as (Hlen & Hdrop & Hm & Hcnt).
    destruct Hsame as (_ & Httl & _ & _ & Hheap).
    destruct n as [|n].
    { exfalso. unfold Lru.at_rest in Hrest. rewrite Hdrop, Hl in Hrest.
      simpl in Hrest. destruct Hrest as (item' & Hitem' & _ & Hfresh).
      rewrite Hheap, Hitem in Hitem'. injection Hitem' as <-.
      apply Hexp. by rewrite <- Httl. }
    split_and!.
    + rewrite Hdrop, Hl. simpl. intros Hin%subseteq_drop.
      destruct Hc as (Hnd & _). rewrite Hl in Hnd.
      by apply NoDup_cons in Hnd as [? _].
    + rewrite Hm, Hl. change (take (S n) (front :: rest)) with (front :: take n rest).
      rewrite (keys_of_cons _ _ _ _ Hitem).
      rewrite decide_True; [done|apply list_elem_of_here].
    + lia.
  - intros c Hc.
    destruct (Cache_checkWithLocked_spec c Hc)
      as (c' & n & Hrun & Hc' & Hsame & Hsw & Hrest & Hdue).
    exists c', n. split_and!; [done..|].
    intros Hle. rewrite Cache_checkWithLocked_unfold in Hrun.
    rewrite decide_False in Hrun by lia. by injection Hrun.
Qed.
End Claim1.

(** C1 at two states: the pass of [src/lru.go] at time 100 on [lru_two_old],
    the pass of [src/lru_cache.go] on [cache_one_old]. *)
Lemma C1_eviction_pass_witness :
  (Lru.Inv lru_two_old ∧
   ∃ c', Lru.checkWithLocked 100 lru_two_old = Some c' ∧ Lru.lruList c' = [] ∧
         Lru.keyCount c' = 0)
  ∧ (Cache.Inv cache_one_old ∧
     Cache.checkWithLocked cache_one_old = Some cache_one_old).
Proof.
  destruct (C1_eviction_pass (V:=Z)) as [Hlru Hcache].
  assert (Lru.Inv lru_two_old) as HL by compute_done.
  assert (Cache.Inv cache_one_old) as HC by compute_done.
  split; split; [done| |done|].
  - destruct (Hlru 100 lru_two_old HL) as (c' & n & Hrun & _).
    exists c'. split; [done|]. vm_compute in Hrun. by injection Hrun as <-.
  - destruct (Hcache cache_one_old HC) as (c' & n & Hrun & _ & _ & _ & _ & _ & Hsame).
    rewrite Hrun. f_equal. apply Hsame. by vm_compute.
Defined.

(** C1 fails on [src/lru_cache.go]: [cache_one_old] is the state after one
    [Update] at time 0; its front entry, with 5 seconds to live, is expired at
    time 100, the count is within [maxCount], and the pass leaves the entry in
    the index and in the list. *)
Lemma C1_counterexample :
  Cache.run [Cache.OpUpdate "a" 7 0] (Cache.NewLRUCache 2 5) = Some cache_one_old ∧
  (∃ front item,
     Front (Cache.lruList cache_one_old) = Some front ∧
     Cache.heap cache_one_old !! front = Some item ∧
     ¬ add64 (createAt item) (Cache.ttl cache_one_old) > 100 ∧
     ∃ c', Cache.checkWithLocked cache_one_old = Some c' ∧
           front ∈ Cache.lruList c' ∧
           Cache.lruMap c' !! key item = Some front ∧
           Cache.keyCount c' = Cache.keyCount cache_one_old).
Proof.
  split; [by vm_compute|].
  exists 0%nat, (Entry "a" 7 0). split_and!; [done|done|by vm_compute|].
  exists cache_one_old. split_and!; [by vm_compute| |by vm_compute|done].
  apply list_elem_of_here.
Qed.

(** ** C2: time to live

    Between the [Update] and the [Get] of [k], any calls may happen but an
    [Update] of [k]: a [Get] of [k] moves its element and leaves its entry as
    it is. [holds_or_gone k item c]: the index of [c] has [item] for [k], or
    has no [k]. *)

Section Claim2.
Context {V : Type}.

(** A run of [src/lru.go] without an [Update] of [k] leaves [k] with its
    entry, or without one. *)
Lemma Lru_run_no_update (k : string) (item : entry V) os (c : Lru.LRUCache V) :
  Lru.Inv c → Lru.keyCount c + Z.of_nat (length os) ≤ int64_max →
  (∀ o, o ∈ os → ¬ Lru.inserts k o) →
  Lru.holds_or_gone k item c →
  ∃ c', Lru.run os c = Some c' ∧ Lru.Inv c' ∧ Lru.ttl c' = Lru.ttl c ∧
        Lru.holds_or_gone k item c'.
Proof.
  intros Hc Hlen Hkeys HP.
  destruct (Lru_run_spec (Lru.holds_or_gone k item) os c)
    as (c' & Hrun & Hc' & HP' & _ & Httl & _); [|done..|by exists c'].
  intros o c0 c0' Hin Hc0 Hlt0 HP0 Hstep.
  destruct (Lru_step_spec o c0 Hc0 Hlt0) as (c1 & Hstep1 & _ & _ & _ & _ & _ & Hkept).
  rewrite Hstep in Hstep1. injection Hstep1 as <-.
  destruct (Hkept k) as [Hk|Hw].
  - destruct Hk as [Hgone|[Hm Hf]]; [by left|].
    destruct HP0 as [Hnone|Hitem]; [left; congruence|right; congruence].
  - exfalso. apply (Hkeys o Hin). destruct o; [|done]. by destruct Hw as [-> _].
Qed.

Lemma Cache_run_no_update (k : string) (item : entry V) os (c : Cache.LRUCache V) :
  Cache.Inv c → Cache.keyCount c + Z.of_nat (length os) ≤ int64_max →
  (∀ o, o ∈ os → ¬ Cache.inserts k o) →
  Cache.holds_or_gone k item c →
  ∃ c', Cache.run os c = Some c' ∧ Cache.Inv c' ∧ Cache.ttl c' = Cache.ttl c ∧
        Cache.holds_or_gone k item c'.
Proof.
  intros Hc Hlen Hkeys HP.
  destruct (Cache_run_spec (Cache.holds_or_gone k item) os c)
    as (c' & Hrun & Hc' & HP' & _ & Httl & _); [|done..|by exists c'].
  intros o c0 c0' Hin Hc0 Hlt0 HP0 Hstep.
  destruct (Cache_step_spec o c0 Hc0 Hlt0) as (c1 & Hstep1 & _ & _ & _ & _ & _ & Hkept).
  rewrite Hstep in Hstep1. injection Hstep1 as <-.
  destruct (Hkept k) as [Hk|Hw].
  - destruct Hk as [Hgone|[Hm Hf]]; [by left|].
    destruct HP0 as [Hnone|Hitem]; [left; congruence|right; congruence].
  - exfalso. apply (Hkeys o Hin). destruct o; try done. by destruct Hw as [-> _].
Qed.

(** The test of [Get] on an entry created at [T], when [T + ttl] is an
    [int64]. *)
Lemma fresh_iff (T ttl T' : Z) :
  is_int64 (T + ttl) → (add64 T ttl > T' ↔ T' - T < ttl).
Proof. intros Hr. rewrite add64_id by done. lia. Qed.

(** C2, as amended: provided [T + ttl] does not overflow [int64]. [Update(k,
    v)] runs at time [T]; calls follow, none of them an [Update] of [k]; then
    [Get(k)] runs at time [T']. No call panics. If [T' - T >= ttl], [Get(k)]
    returns not found. If [T' - T < ttl] and [k] is still in the index,
    [Get(k)] returns [v]. In both files. *)
Theorem C2_ttl_correctness :
  (∀ (c : Lru.LRUCache V) k v T T2 os T' T2',
     Lru.Inv c → Lru.keyCount c + Z.of_nat (length os) < int64_max →
     (∀ o, o ∈ os → ¬ Lru.inserts k o) → is_int64 (T + Lru.ttl c) →
     ∃ c1 c2 r c3,
       Lru.Update k v T T2 c = Some (None, c1) ∧ Lru.run os c1 = Some c2 ∧
       Lru.Get k T' T2' c2 = Some (r, c3) ∧
       (Lru.ttl c ≤ T' - T → r = (None, Some ErrLruNotFoundKey)) ∧
       (T' - T < Lru.ttl c → is_Some (Lru.lruMap c2 !! k) → r = (Some v, None)))
  ∧
  (∀ (c : Cache.LRUCache V) k v T os T',
     Cache.Inv c → Cache.keyCount c + Z.of_nat (length os) < int64_max →
     (∀ o, o ∈ os → ¬ Cache.inserts k o) → is_int64 (T + Cache.ttl c) →
     ∃ c1 c2 r c3,
       Cache.Update k v T c = Some (None, c1) ∧ Cache.run os c1 = Some c2 ∧
       Cache.Get k T' c2 = Some (r, c3) ∧
       (Cache.ttl c ≤ T' - T → r = (None, Some ErrKeyNotFound)) ∧
       (T' - T < Cache.ttl c → is_Some (Cache.lruMap c2 !! k) → r = (Some v, None))).
Proof.
  split.
  - intros c k v T T2 os T' T2' Hc Hlen Hkeys Hrange.
    destruct (Lru_Update_spec k v T T2 c Hc)
      as (c1 & Hupd & Hc1 & _ & Httl1 & _ & _ & Hcnt1 & _ & Hk1 & _); [lia|].
    destruct (Lru_run_no_update k (Entry k v T) os c1)
      as (c2 & Hrun & Hc2 & Httl2 & Hk2); [done|lia|done|done|].
    destruct (Lru_Get_spec k T' T2' c2 Hc2)
      as (r & c3 & Hget & _ & _ & _ & _ & _ & _ & _ & _ & Hres).
    exists c1, c2, r, c3. split_and!; [done..| |].
    + intros Hold. destruct Hres as [[-> _]|(item & Hitem & Hfresh & _)]; [done|].
      exfalso. destruct Hk2 as [Hnone|Hitem2].
      * unfold find in Hitem. by rewrite Hnone in Hitem.
      * rewrite Hitem2 in Hitem. injection Hitem as <-. simpl in Hfresh.
        rewrite Httl2, Httl1 in Hfresh. apply fresh_iff in Hfresh; [lia|done].
    + intros Hyoung [e He]. destruct Hk2 as [Hnone|Hitem2]; [congruence|].
      destruct (find_Some_lookup _ _ _ _ Hitem2) as (e' & He' & Hitem').
      assert (add64 (createAt (Entry k v T)) (Lru.ttl c2) > T') as Hfresh.
      { simpl. rewrite Httl2, Httl1. by apply fresh_iff. }
      unfold Lru.Get in Hget.
      rewrite (Lru_Get_body_hit _ _ _ _ _ He' Hitem' Hfresh) in Hget. simpl in Hget.
      destruct (Lru.checkWithLocked _ _); [|done]. simpl in Hget. by simplify_eq.
  - intros c k v T os T' Hc Hlen Hkeys Hrange.
    destruct (Cache_Update_spec k v T c Hc)
      as (c1 & Hupd & Hc1 & _ & Httl1 & _ & _ & Hcnt1 & _ & Hk1 & _); [lia|].
    destruct (Cache_run_no_update k (Entry k v T) os c1)
      as (c2 & Hrun & Hc2 & Httl2 & Hk2); [done|lia|done|done|].
    destruct (Cache_Get_spec k T' c2 Hc2)
      as (r & c3 & Hget & _ & _ & _ & _ & _ & _ & _ & Hres).
    exists c1, c2, r, c3. split_and!; [done..| |].
    + intros Hold. destruct Hres as [[-> _]|(item & Hitem & Hfresh & _)]; [done|].
      exfalso. destruct Hk2 as [Hnone|Hitem2].
      * unfold find in Hitem. by rewrite Hnone in Hitem.
      * rewrite Hitem2 in Hitem. injection Hitem as <-. simpl in Hfresh.
        rewrite Httl2, Httl1 in Hfresh. apply fresh_iff in Hfresh; [lia|done].
    + intros Hyoung [e He]. destruct Hk2 as [Hnone|Hitem2]; [congruence|].
      destruct (find_Some_lookup _ _ _ _ Hitem2) as (e' & He' & Hitem').
      assert (add64 (createAt (Entry k v T)) (Cache.ttl c2) > T') as Hfresh.
      { simpl. rewrite Httl2, Httl1. by apply fresh_iff. }
      rewrite (Cache_Get_hit _ _ _ _ _ He' Hitem' Hfresh) in Hget. by simplify_eq.
Qed.
End Claim2.

(** C2 at a concrete run of each file: a cache for 2 keys that live 10
    seconds, [Update("k", 7)] at time 100, an [Update] of another key at 101
    and a [Get("k")] at 102, then [Get("k")] at 105. *)
Lemma C2_ttl_correctness_witness :
  (∃ c1 c2 r c3,
     Lru.Update "k" 7 100 100 (Lru.NewLRUCache 2 10) = Some (None, c1) ∧
     Lru.run [Lru.OpUpdate "x" 1 101 101; Lru.OpGet "k" 102 102] c1 = Some c2 ∧
     Lru.Get "k" 105 105 c2 = Some (r, c3) ∧
     (Lru.ttl (Lru.NewLRUCache (V:=Z) 2 10) ≤ 105 - 100 →
      r = (None, Some ErrLruNotFoundKey)) ∧
     (105 - 100 < Lru.ttl (Lru.NewLRUCache (V:=Z) 2 10) →
      is_Some (Lru.lruMap c2 !! "k") → r = (Some 7, None)))
  ∧
  (∃ c1 c2 r c3,
     Cache.Update "k" 7 100 (Cache.NewLRUCache 2 10) = Some (None, c1) ∧
     Cache.run [Cache.OpUpdate "x" 1 101; Cache.OpGet "k" 102] c1 = Some c2 ∧
     Cache.Get "k" 105 c2 = Some (r, c3) ∧
     (Cache.ttl (Cache.NewLRUCache (V:=Z) 2 10) ≤ 105 - 100 →
      r = (None, Some ErrKeyNotFound)) ∧
     (105 - 100 < Cache.ttl (Cache.NewLRUCache (V:=Z) 2 10) →
      is_Some (Cache.lruMap c2 !! "k") → r = (Some 7, None))).
Proof.
  destruct (C2_ttl_correctness (V:=Z)) as [Hlru Hcache]. split.
  - apply (Hlru (Lru.NewLRUCache 2 10) "k" 7 100 100
                [Lru.OpUpdate "x" 1 101 101; Lru.OpGet "k" 102 102] 105 105).
    + compute_done.
    + by vm_compute.
    + intros o Ho. repeat (apply elem_of_cons in Ho as [->|Ho]); [by intros [=]|by intros []|].
      by apply elem_of_nil in Ho.
    + unfold is_int64, int64_min, int64_max. simpl. lia.
  - apply (Hcache (Cache.NewLRUCache 2 10) "k" 7 100
                  [Cache.OpUpdate "x" 1 101; Cache.OpGet "k" 102] 105).
    + compute_done.
    + by vm_compute.
    + intros o Ho. repeat (apply elem_of_cons in Ho as [->|Ho]); [by intros [=]|by intros []|].
      by apply elem_of_nil in Ho.
    + unfold is_int64, int64_min, int64_max. simpl. lia.
Defined.

(** C2 fails when [T + ttl] overflows. A cache of [src/lru_cache.go] for 1
    key, with [ttl] the largest [int64]: [Update("k", 7)] at time 1700000000
    puts [k] in the index, [Get("k")] in the same second finds it there
    ([T' - T = 0 < ttl], nothing evicted), and returns not found, because
    [createAt + ttl] wraps around to a negative number. *)
Lemma C2_counterexample :
  ∃ c1 c2 : Cache.LRUCache Z,
    Cache.Update "k" 7 1700000000 (Cache.NewLRUCache 1 int64_max) = Some (None, c1) ∧
    is_Some (Cache.lruMap c1 !! "k") ∧
    1700000000 - 1700000000 < Cache.ttl c1 ∧
    Cache.Get "k" 1700000000 c1 = Some ((None, Some ErrKeyNotFound), c2) ∧
    ¬ is_int64 (1700000000 + Cache.ttl c1).
Proof.
  eexists _, _. split_and!.
  - by vm_compute.
  - eexists. by vm_compute.
  - by vm_compute.
  - by vm_compute.
  - unfold is_int64, int64_min, int64_max. simpl. lia.
Qed.

(** ** C3: the capacity bound *)

Section Claim3.
Context {V : Type}.

(** C3, as amended: the bound is the larger of [maxCount] and 0. From a new
    cache, after every call of every run (so after every [Update] of a
    sequence of [Update]s, with distinct keys or not), no call having
    panicked, the key count is at most [maxCount] if [maxCount] is not
    negative, and 0 if it is. In both files. *)
Theorem C3_capacity_bound :
  (∀ maxCount ttl (os : list (Lru.op V)),
     Z.of_nat (length os) ≤ int64_max →
     ∃ c, Lru.run os (Lru.NewLRUCache maxCount ttl) = Some c ∧
          0 ≤ Lru.GetKeysCount c ≤ Z.max 0 maxCount ∧
          (0 ≤ maxCount → Lru.GetKeysCount c ≤ maxCount))
  ∧
  (∀ maxCount ttl (os : list (Cache.op V)),
     Z.of_nat (length os) ≤ int64_max →
     ∃ c, Cache.run os (Cache.NewLRUCache maxCount ttl) = Some c ∧
          0 ≤ Cache.GetKeyCount c ≤ Z.max 0 maxCount ∧
          (0 ≤ maxCount → Cache.GetKeyCount c ≤ maxCount)).
Proof.
  split.
  - intros maxCount ttl os Hlen.
    destruct (Lru_run_spec (λ _, True) os (Lru.NewLRUCache maxCount ttl))
      as (c & Hrun & Hc & _ & Hmax & _ & _ & Hbound); [done|apply Lru_New_Inv|done..|].
    exists c. split; [done|].
    assert (Lru.keyCount c ≤ Z.max 0 maxCount) as Hle.
    { destruct os as [|o os]; [|by apply Hbound].
      simpl in Hrun. injection Hrun as <-. simpl. lia. }
    destruct (consistent_count _ _ _ _ Hc) as [_ [Hpos _]].
    unfold Lru.GetKeysCount. split; [done|lia].
  - intros maxCount ttl os Hlen.
    destruct (Cache_run_spec (λ _, True) os (Cache.NewLRUCache maxCount ttl))
      as (c & Hrun & Hc & _ & Hmax & _ & _ & Hbound); [done|apply Cache_New_Inv|done..|].
    exists c. split; [done|].
    assert (Cache.keyCount c ≤ Z.max 0 maxCount) as Hle.
    { apply Hbound. simpl. lia. }
    destruct (consistent_count _ _ _ _ Hc) as [_ [Hpos _]].
    unfold Cache.GetKeyCount. split; [done|lia].
Qed.
End Claim3.

(** C3 on three [Update]s with distinct keys, into a cache for 2 keys. *)
Lemma C3_capacity_bound_witness :
  (∃ c, Lru.run [Lru.OpUpdate "a" 1 0 0; Lru.OpUpdate "b" 2 1 1; Lru.OpUpdate "c" 3 2 2]
                (Lru.NewLRUCache 2 10) = Some c ∧
        0 ≤ Lru.GetKeysCount c ≤ Z.max 0 2 ∧ (0 ≤ 2 → Lru.GetKeysCount c ≤ 2))
  ∧
  (∃ c, Cache.run [Cache.OpUpdate "a" 1 0; Cache.OpUpdate "b" 2 1; Cache.OpUpdate "c" 3 2]
                  (Cache.NewLRUCache 2 10) = Some c ∧
        0 ≤ Cache.GetKeyCount c ≤ Z.max 0 2 ∧ (0 ≤ 2 → Cache.GetKeyCount c ≤ 2)).
Proof.
  destruct (C3_capacity_bound (V:=Z)) as [Hlru Hcache]. split.
  - apply (Hlru 2 10). by vm_compute.
  - apply (Hcache 2 10). by vm_compute.
Defined.

(** C3 fails for a negative [maxCount]: one [Update] into a cache made with
    [maxCount = -1] leaves the cache empty, and the key count 0 is above
    [maxCount]. In both files. *)
Lemma C3_counterexample :
  (∃ c : Lru.LRUCache Z,
     Lru.Update "a" 1 0 0 (Lru.NewLRUCache (-1) 10) = Some (None, c) ∧
     Lru.GetKeysCount c = 0 ∧ ¬ (Lru.GetKeysCount c ≤ Lru.maxCount c))
  ∧
  (∃ c : Cache.LRUCache Z,
     Cache.Update "a" 1 0 (Cache.NewLRUCache (-1) 10) = Some (None, c) ∧
     Cache.GetKeyCount c = 0 ∧ ¬ (Cache.GetKeyCount c ≤ Cache.maxCount c)).
Proof.
  split; eexists; (split_and!; [by vm_compute|by vm_compute|]); vm_compute; by intros H.
Qed.

(** ** C4: a miss on a key that was never inserted *)

Section Claim4.
Context {V : Type}.

(** A key that no call of the run inserts is not in the index. *)
Lemma Lru_run_never_inserted (k : string) os (c : Lru.LRUCache V) :
  Lru.Inv c → Lru.keyCount c + Z.of_nat (length os) ≤ int64_max →
  (∀ o, o ∈ os → ¬ Lru.inserts k o) →
  Lru.lruMap c !! k = None →
  ∃ c', Lru.run os c = Some c' ∧ Lru.Inv c' ∧ Lru.lruMap c' !! k = None.
Proof.
  intros Hc Hlen Hkeys HP.
  destruct (Lru_run_spec (λ c, Lru.lruMap c !! k = None) os c)
    as (c' & Hrun & Hc' & HP' & _); [|done..|by exists c'].
  intros o c0 c0' Hin Hc0 Hlt0 HP0 Hstep.
  destruct (Lru_step_spec o c0 Hc0 Hlt0) as (c1 & Hstep1 & _ & _ & _ & _ & _ & Hkept).
  rewrite Hstep in Hstep1. injection Hstep1 as <-.
  destruct (Hkept k) as [Hk|Hw]; [by eapply kept_or_gone_None|].
  exfalso. apply (Hkeys o Hin). destruct o; [|done]. by destruct Hw as [-> _].
Qed.

Lemma Cache_run_never_inserted (k : string) os (c : Cache.LRUCache V) :
  Cache.Inv c → Cache.keyCount c + Z.of_nat (length os) ≤ int64_max →
  (∀ o, o ∈ os → ¬ Cache.inserts k o) →
  Cache.lruMap c !! k = None →
  ∃ c', Cache.run os c = Some c' ∧ Cache.Inv c' ∧ Cache.lruMap c' !! k = None.
Proof.
  intros Hc Hlen Hkeys HP.
  destruct (Cache_run_spec (λ c, Cache.lruMap c !! k = None) os c)
    as (c' & Hrun & Hc' & HP' & _); [|done..|by exists c'].
  intros o c0 c0' Hin Hc0 Hlt0 HP0 Hstep.
  destruct (Cache_step_spec o c0 Hc0 Hlt0) as (c1 & Hstep1 & _ & _ & _ & _ & _ & Hkept).
  rewrite Hstep in Hstep1. injection Hstep1 as <-.
  destruct (Hkept k) as [Hk|Hw]; [by eapply kept_or_gone_None|].
  exfalso. apply (Hkeys o Hin). destruct o; try done. by destruct Hw as [-> _].
Qed.

(** A pass of [src/lru.go] on a state at rest does nothing. *)
Lemma Lru_checkWithLocked_at_rest now (c : Lru.LRUCache V) :
  Lru.at_rest now c → Lru.checkWithLocked now c = Some c.
Proof.
  intros Hrest. rewrite Lru_checkWithLocked_unfold. unfold Lru.at_rest in Hrest.
  destruct (Lru.lruList c) as [|front rest]; simpl; [done|].
  destruct Hrest as (item & -> & Hsettled). by rewrite decide_True.
Qed.

(** C4, as amended: the key count is unchanged in [src/lru_cache.go] only.
    In a run from a new cache in which no call is an [Update] of [k] (calls
    of [Get(k)] may be among them), no call panics and [Get(k)] returns not
    found. In [src/lru_cache.go] that [Get] changes nothing but the request
    count, so the key count after it is the key count before it. In
    [src/lru.go] the [Get] ends with the eviction pass: the key count after
    it is the key count before it less the number [n] of entries the pass
    takes out, which is 0 exactly when the state before the call was at
    rest for the clock of the pass. *)
Theorem C4_miss_on_unknown_key :
  (∀ maxCount ttl (os : list (Lru.op V)) k now now',
     Z.of_nat (length os) ≤ int64_max →
     (∀ o, o ∈ os → ¬ Lru.inserts k o) →
     ∃ c c' n,
       Lru.run os (Lru.NewLRUCache maxCount ttl) = Some c ∧
       Lru.Get k now now' c = Some ((None, Some ErrLruNotFoundKey), c') ∧
       Lru.checkWithLocked now' (Lru.count_request c) = Some c' ∧
       Lru.GetKeysCount c' = Lru.GetKeysCount c - Z.of_nat n ∧
       Lru.lruList c' = drop n (Lru.lruList c) ∧
       (Lru.at_rest now' c ↔ n = 0%nat))
  ∧
  (∀ maxCount ttl (os : list (Cache.op V)) k now,
     Z.of_nat (length os) ≤ int64_max →
     (∀ o, o ∈ os → ¬ Cache.inserts k o) →
     ∃ c,
       Cache.run os (Cache.NewLRUCache maxCount ttl) = Some c ∧
       Cache.Get k now c = Some ((None, Some ErrKeyNotFound), Cache.count_request c) ∧
       Cache.GetKeyCount (Cache.count_request c) = Cache.GetKeyCount c).
Proof.
  split.
  - intros maxCount ttl os k now now' Hlen Hkeys.
    destruct (Lru_run_never_inserted k os (Lru.NewLRUCache maxCount ttl))
      as (c & Hrun & Hc & Hk); [apply Lru_New_Inv|done..|].
    destruct (Lru_checkWithLocked_spec now' (Lru.count_request c))
      as (c' & n & Hpass & _ & Hsame & (Hn & Hdrop & _ & Hcnt) & Hrest' & _); [done|].
    assert (Lru.at_rest now' c ↔ n = 0%nat) as Hzero.
    { split.
      - intros Hrest.
        rewrite (Lru_checkWithLocked_at_rest now' (Lru.count_request c)) in Hpass by done.
        injection Hpass as <-. simpl in Hcnt. lia.
      - intros ->. destruct Hsame as (Hmax & Httl & _ & _ & Hheap).
        unfold Lru.at_rest, Lru.settled in *.
        rewrite Hdrop, Hcnt, Hheap, Hmax, Httl in Hrest'. simpl in Hrest'.
        by rewrite Z.sub_0_r in Hrest'. }
    exists c, c', n. split_and!; try done.
    unfold Lru.Get. rewrite (Lru_Get_body_miss _ _ _ Hk). simpl.
    by rewrite Hpass.
  - intros maxCount ttl os k now Hlen Hkeys.
    destruct (Cache_run_never_inserted k os (Cache.NewLRUCache maxCount ttl))
      as (c & Hrun & Hc & Hk); [apply Cache_New_Inv|done..|].
    exists c. split_and!; [done| |done]. by apply Cache_Get_miss.
Qed.
End Claim4.

(** C4 on a run that inserts ["a"] and looks up ["b"] twice. *)
Lemma C4_miss_on_unknown_key_witness :
  (∃ c c' n,
     Lru.run [Lru.OpUpdate "a" 1 0 0; Lru.OpGet "b" 1 1] (Lru.NewLRUCache 2 10) = Some c ∧
     Lru.Get "b" 2 2 c = Some ((None, Some ErrLruNotFoundKey), c') ∧
     Lru.checkWithLocked 2 (Lru.count_request c) = Some c' ∧
     Lru.GetKeysCount c' = Lru.GetKeysCount c - Z.of_nat n ∧
     Lru.lruList c' = drop n (Lru.lruList c) ∧
     (Lru.at_rest 2 c ↔ n = 0%nat))
  ∧
  (∃ c,
     Cache.run [Cache.OpUpdate "a" 1 0; Cache.OpGet "b" 1] (Cache.NewLRUCache 2 10) = Some c ∧
     Cache.Get "b" 2 c = Some ((None, Some ErrKeyNotFound), Cache.count_request c) ∧
     Cache.GetKeyCount (Cache.count_request c) = Cache.GetKeyCount c).
Proof.
  destruct (C4_miss_on_unknown_key (V:=Z)) as [Hlru Hcache]. split.
  - apply (Hlru 2 10); [by vm_compute|].
    intros o Ho. repeat (apply elem_of_cons in Ho as [->|Ho]); [by intros [=]|by intros []|].
    by apply elem_of_nil in Ho.
  - apply (Hcache 2 10); [by vm_compute|].
    intros o Ho. repeat (apply elem_of_cons in Ho as [->|Ho]); [by intros [=]|by intros []|].
    by apply elem_of_nil in Ho.
Defined.

(** C4 fails on [src/lru.go]: in a cache for 10 keys that live 5 seconds,
    ["a"] is written at time 0; ["b"] was never inserted; [Get("b")] at time
    100 returns not found, and the pass it ends with evicts ["a"]: the key
    count is 1 before the call and 0 after it. *)
Lemma C4_counterexample :
  ∃ c c' : Lru.LRUCache Z,
    Lru.run [Lru.OpUpdate "a" 1 0 0] (Lru.NewLRUCache 10 5) = Some c ∧
    Lru.Get "b" 100 100 c = Some ((None, Some ErrLruNotFoundKey), c') ∧
    Lru.GetKeysCount c = 1 ∧ Lru.GetKeysCount c' = 0.
Proof.
  eexists _, _. split_and!.
  - by vm_compute.
  - by vm_compute.
  - by vm_compute.
  - by vm_compute.
Qed.

(** ** C5: [Get] on a stale entry *)

Section Claim5.
Context {V : Type}.

(** An entry that is stale fails the test of [Get], for Unix timestamps:
    [createAt] not before the epoch, [ttl] and [now] of type [int64]. *)
Lemma stale_expired (now ttl : Z) (item : entry V) :
  stale now ttl item → 0 ≤ createAt item → is_int64 ttl → is_int64 now →
  ¬ add64 (createAt item) ttl > now.
Proof.
  unfold stale, is_int64, int64_min, int64_max. intros Hs Hc Httl Hnow.
  rewrite add64_id; [lia|]. unfold is_int64, int64_min, int64_max. lia.
Qed.

(** C5, as amended: in [src/lru.go] the key count goes down by one or more.
    [k] is in the index and its entry is stale ([now - createAt >= ttl], on
    Unix timestamps). [Get(k)] returns not found, counts the request, counts
    no hit, and [k] and its element are gone from the index and from the
    list. In [src/lru_cache.go] nothing else changes: the list is the list
    before without that element, and the key count is one less. In
    [src/lru.go] the eviction pass follows: it takes [n] more entries from
    the front of the list, and the key count is [1 + n] less. *)
Theorem C5_get_stale :
  (∀ (c : Lru.LRUCache V) k e item now now',
     Lru.Inv c → Lru.lruMap c !! k = Some e → Lru.heap c !! e = Some item →
     stale now (Lru.ttl c) item →
     0 ≤ createAt item → is_int64 (Lru.ttl c) → is_int64 now →
     ∃ c' n,
       Lru.Get k now now' c = Some ((None, Some ErrLruNotFoundKey), c') ∧
       Lru.checkWithLocked now' (Lru.remove_entry e (key item) (Lru.count_request c))
         = Some c' ∧
       Lru.Inv c' ∧
       Lru.lruMap c' !! k = None ∧ (e ∉ Lru.lruList c') ∧
       Lru.lruList c' = drop n (Remove e (Lru.lruList c)) ∧
       Lru.keyCount c' = Lru.keyCount c - 1 - Z.of_nat n ∧
       Lru.hitCount c' = Lru.hitCount c ∧
       Lru.reqCount c' = incr64 (Lru.reqCount c))
  ∧
  (∀ (c : Cache.LRUCache V) k e item now,
     Cache.Inv c → Cache.lruMap c !! k = Some e → Cache.heap c !! e = Some item →
     stale now (Cache.ttl c) item →
     0 ≤ createAt item → is_int64 (Cache.ttl c) → is_int64 now →
     ∃ c',
       Cache.Get k now c = Some ((None, Some ErrKeyNotFound), c') ∧
       c' = Cache.remove_entry e k (Cache.count_request c) ∧
       Cache.Inv c' ∧
       Cache.lruMap c' = delete k (Cache.lruMap c) ∧
       Cache.lruMap c' !! k = None ∧ (e ∉ Cache.lruList c') ∧
       Cache.lruList c' = Remove e (Cache.lruList c) ∧
       Cache.keyCount c' = Cache.keyCount c - 1 ∧
       Cache.totalHitTimes c' = Cache.totalHitTimes c ∧
       Cache.totalReqTimes c' = incr64 (Cache.totalReqTimes c) ∧
       Cache.heap c' = Cache.heap c).
Proof.
  split.
  - intros c k e item now now' Hc Hk Hitem Hstale Hpos Httl Hnow.
    pose proof (stale_expired _ _ _ Hstale Hpos Httl Hnow) as Hexp.
    destruct (consistent_find _ _ _ _ _ _ Hc Hk) as (item' & Hitem' & Hkey & _).
    rewrite Hitem in Hitem'. injection Hitem' as <-.
    set (c1 := Lru.remove_entry e (key item) (Lru.count_request c)).
    destruct (Lru_remove_entry_Inv (Lru.count_request c) (key item) e)
      as [Hc1 Hcnt1]; [done|by rewrite Hkey|]. fold c1 in Hc1, Hcnt1.
    destruct (Lru_checkWithLocked_spec now' c1 Hc1)
      as (c' & n & Hpass & Hc' & (_ & _ & Hreq & Hhit & _) & Hsw & _ & _).
    exists c', n. split_and!.
    + unfold Lru.Get. rewrite (Lru_Get_body_stale _ _ _ _ _ Hk Hitem Hexp).
      simpl. fold c1. by rewrite Hpass.
    + exact Hpass.
    + exact Hc'.
    + eapply swept_lookup_None; [exact Hsw|]. simpl. rewrite Hkey.
      apply lookup_delete_eq.
    + destruct Hsw as (_ & -> & _). simpl.
      intros Hin%subseteq_drop. apply elem_of_Remove in Hin as [_ Hne]. by apply Hne.
    + by destruct Hsw as (_ & -> & _).
    + destruct Hsw as (_ & _ & _ & ->). rewrite Hcnt1. done.
    + by rewrite Hhit.
    + by rewrite Hreq.
  - intros c k e item now Hc Hk Hitem Hstale Hpos Httl Hnow.
    pose proof (stale_expired _ _ _ Hstale Hpos Httl Hnow) as Hexp.
    destruct (Cache_remove_entry_Inv (Cache.count_request c) k e)
      as [Hc1 Hcnt1]; [done..|].
    eexists. split; [by apply (Cache_Get_stale _ _ _ _ _ Hk Hitem Hexp)|].
    split_and!; simpl; try done.
    + apply lookup_delete_eq.
    + intros Hin. apply elem_of_Remove in Hin as [_ Hne]. by apply Hne.
Qed.
End Claim5.

(** C5 at time 100 on [Get("b")], in [lru_two_old] and in [cache_two_old]. *)
Lemma C5_get_stale_witness :
  (∃ c' n,
     Lru.Get "b" 100 100 lru_two_old = Some ((None, Some ErrLruNotFoundKey), c') ∧
     Lru.checkWithLocked 100
       (Lru.remove_entry 1%nat (key (Entry "b" 8 0)) (Lru.count_request lru_two_old))
       = Some c' ∧
     Lru.Inv c' ∧
     Lru.lruMap c' !! "b" = None ∧ (1%nat ∉ Lru.lruList c') ∧
     Lru.lruList c' = drop n (Remove 1%nat (Lru.lruList lru_two_old)) ∧
     Lru.keyCount c' = Lru.keyCount lru_two_old - 1 - Z.of_nat n ∧
     Lru.hitCount c' = Lru.hitCount lru_two_old ∧
     Lru.reqCount c' = incr64 (Lru.reqCount lru_two_old))
  ∧
  (∃ c',
     Cache.Get "b" 100 cache_two_old = Some ((None, Some ErrKeyNotFound), c') ∧
     c' = Cache.remove_entry 1%nat "b" (Cache.count_request cache_two_old) ∧
     Cache.Inv c' ∧
     Cache.lruMap c' = delete "b" (Cache.lruMap cache_two_old) ∧
     Cache.lruMap c' !! "b" = None ∧ (1%nat ∉ Cache.lruList c') ∧
     Cache.lruList c' = Remove 1%nat (Cache.lruList cache_two_old) ∧
     Cache.keyCount c' = Cache.keyCount cache_two_old - 1 ∧
     Cache.totalHitTimes c' = Cache.totalHitTimes cache_two_old ∧
     Cache.totalReqTimes c' = incr64 (Cache.totalReqTimes cache_two_old) ∧
     Cache.heap c' = Cache.heap cache_two_old).
Proof.
  destruct (C5_get_stale (V:=Z)) as [Hlru Hcache]. split.
  - apply (Hlru lru_two_old "b" 1%nat (Entry "b" 8 0) 100 100).
    + compute_done.
    + by vm_compute.
    + by vm_compute.
    + unfold stale. simpl. lia.
    + simpl. lia.
    + unfold is_int64, int64_min, int64_max. simpl. lia.
    + unfold is_int64, int64_min, int64_max. simpl. lia.
  - apply (Hcache cache_two_old "b" 1%nat (Entry "b" 8 0) 100).
    + compute_done.
    + by vm_compute.
    + by vm_compute.
    + unfold stale. simpl. lia.
    + simpl. lia.
    + unfold is_int64, int64_min, int64_max. simpl. lia.
    + unfold is_int64, int64_min, int64_max. simpl. lia.
Defined.

(** C5 fails on [src/lru.go]: [lru_two_old] is the state after two
    [Update]s at time 0, and at time 100 both entries are stale; [Get("b")] removes the entry of ["b"], and the pass it ends with
    removes the entry of ["a"] too: the key count goes from 2 to 0, not to
    1. *)
Lemma C5_counterexample :
  Lru.run [Lru.OpUpdate "a" 7 0 0; Lru.OpUpdate "b" 8 0 0] (Lru.NewLRUCache 10 5)
    = Some lru_two_old ∧
  (∃ item, find (Lru.lruMap lru_two_old) (Lru.heap lru_two_old) "b" = Some item ∧
           stale 100 (Lru.ttl lru_two_old) item) ∧
  ∃ c', Lru.Get "b" 100 100 lru_two_old = Some ((None, Some ErrLruNotFoundKey), c') ∧
        Lru.GetKeysCount lru_two_old = 2 ∧ Lru.GetKeysCount c' = 0 ∧
        Lru.GetKeysCount c' ≠ Lru.GetKeysCount lru_two_old - 1.
Proof.
  split_and!.
  - by vm_compute.
  - eexists. split; [by vm_compute|]. unfold stale. simpl. lia.
  - eexists. split_and!.
    + by vm_compute.
    + done.
    + done.
    + by vm_compute.
Qed.

(** ** C6: the index and the list are in bijection *)

Section Claim6.
Context {V : Type}.

Lemma consistent_bijection l m (heap : list (entry V)) n :
  consistent l m heap n → bijection l m heap n.
Proof.
  intros Hc. destruct (consistent_keys_NoDup _ _ _ _ Hc) as [Hnd Hlen].
  unfold bijection. split_and!.
  - apply Hc.
  - done.
  - done.
  - by eapply consistent_dom.
  - intros k e. split.
    + by eapply consistent_lookup.
    + intros [Hin Hkey]. destruct (consistent_elem _ _ _ _ _ Hc Hin) as (item & Hi & Hm).
      apply key_at_Some in Hkey as (item' & Hi' & <-). congruence.
  - by eapply consistent_size.
Qed.

(** C6. From a new cache, after every call of every run of [Update], [Get]
    and [Delete] (none of which panics), and after construction (the empty
    run): the keys of the entries of the list are the keys of the index, each
    once; a key is mapped to an element exactly when that element is in the
    list and holds the key; and the key count is the size of the index. In
    both files. The runs are those of fewer than 2^63 calls. *)
Theorem C6_index_list_bijection :
  (∀ maxCount ttl (os : list (Lru.op V)),
     Z.of_nat (length os) ≤ int64_max →
     ∃ c, Lru.run os (Lru.NewLRUCache maxCount ttl) = Some c ∧
          bijection (Lru.lruList c) (Lru.lruMap c) (Lru.heap c) (Lru.GetKeysCount c))
  ∧
  (∀ maxCount ttl (os : list (Cache.op V)),
     Z.of_nat (length os) ≤ int64_max →
     ∃ c, Cache.run os (Cache.NewLRUCache maxCount ttl) = Some c ∧
          bijection (Cache.lruList c) (Cache.lruMap c) (Cache.heap c)
                    (Cache.GetKeyCount c)).
Proof.
  split.
  - intros maxCount ttl os Hlen.
    destruct (Lru_run_spec (λ _, True) os (Lru.NewLRUCache maxCount ttl))
      as (c & Hrun & Hc & _); [done|apply Lru_New_Inv|done..|].
    exists c. split; [done|]. by apply consistent_bijection.
  - intros maxCount ttl os Hlen.
    destruct (Cache_run_spec (λ _, True) os (Cache.NewLRUCache maxCount ttl))
      as (c & Hrun & Hc & _); [done|apply Cache_New_Inv|done..|].
    exists c. split; [done|]. by apply consistent_bijection.
Qed.
End Claim6.

(** C6 on a run of each file that inserts, reads, overwrites, evicts and
    deletes. *)
Lemma C6_index_list_bijection_witness :
  (∃ c, Lru.run [Lru.OpUpdate "a" 1 0 0; Lru.OpUpdate "b" 2 1 1; Lru.OpGet "a" 2 2;
                 Lru.OpUpdate "c" 3 3 3; Lru.OpUpdate "a" 4 4 4; Lru.OpGet "b" 20 20]
                (Lru.NewLRUCache 2 10) = Some c ∧
        bijection (Lru.lruList c) (Lru.lruMap c) (Lru.heap c) (Lru.GetKeysCount c))
  ∧
  (∃ c, Cache.run [Cache.OpUpdate "a" 1 0; Cache.OpUpdate "b" 2 1; Cache.OpGet "a" 2;
                   Cache.OpUpdate "c" 3 3; Cache.OpDelete "a"; Cache.OpGet "b" 20]
                  (Cache.NewLRUCache 2 10) = Some c ∧
        bijection (Cache.lruList c) (Cache.lruMap c) (Cache.heap c) (Cache.GetKeyCount c)).
Proof.
  destruct (C6_index_list_bijection (V:=Z)) as [Hlru Hcache]. split.
  - apply (Hlru 2 10). by vm_compute.
  - apply (Hcache 2 10). by vm_compute.
Defined.

(** ** C7: [Delete] *)

Section Claim7.
Context {V : Type}.

(** C7. [Delete(k)] of [src/lru_cache.go] counts the request. If [k] is in
    the index, it returns no error, counts a hit, takes [k] out of the index
    and its element out of the list, and the key count is one less. If [k]
    is not in the index, it returns the error and counts no hit (and the key
    count, the index and the list are as before). The counters go up by one
    as [int64]s do, which is by one below the largest [int64]. *)
Theorem C7_delete (c : Cache.LRUCache V) (k : string) :
  Cache.Inv c →
  let r := fst (Cache.Delete k c) in
  let c' := snd (Cache.Delete k c) in
  Cache.Inv c' ∧
  Cache.totalReqTimes c' = incr64 (Cache.totalReqTimes c) ∧
  (int64_min ≤ Cache.totalReqTimes c < int64_max →
   Cache.totalReqTimes c' = Cache.totalReqTimes c + 1) ∧
  (∀ e, Cache.lruMap c !! k = Some e →
     r = None ∧
     Cache.lruMap c' = delete k (Cache.lruMap c) ∧ Cache.lruMap c' !! k = None ∧
     Cache.lruList c' = Remove e (Cache.lruList c) ∧ (e ∉ Cache.lruList c') ∧
     Cache.keyCount c' = Cache.keyCount c - 1 ∧
     Cache.totalHitTimes c' = incr64 (Cache.totalHitTimes c) ∧
     (int64_min ≤ Cache.totalHitTimes c < int64_max →
      Cache.totalHitTimes c' = Cache.totalHitTimes c + 1)) ∧
  (Cache.lruMap c !! k = None →
     r = Some ErrKeyNotFound ∧
     Cache.totalHitTimes c' = Cache.totalHitTimes c ∧
     Cache.lruMap c' = Cache.lruMap c ∧ Cache.lruList c' = Cache.lruList c ∧
     Cache.keyCount c' = Cache.keyCount c).
Proof.
  intros Hc r c'. subst r c'.
  destruct (Cache_Delete_spec k c Hc) as (Hc' & _).
  split; [done|]. destruct (Cache.lruMap c !! k) as [e|] eqn:Hk.
  - rewrite (Cache_Delete_present _ _ _ Hk). simpl. split_and!; try done.
    + apply incr64_id.
    + intros e' [= <-].
      destruct (Cache_remove_entry_Inv (Cache.count_hit (Cache.count_request c)) k e)
        as [_ Hcnt]; [done..|].
      split_and!; try done.
      * apply lookup_delete_eq.
      * intros Hin. apply elem_of_Remove in Hin as [_ Hne]. by apply Hne.
      * apply incr64_id.
  - rewrite (Cache_Delete_absent _ _ Hk). simpl. split_and!; try done.
    apply incr64_id.
Qed.
End Claim7.

(** C7 on [cache_two_old]: [Delete("b")], a key of the index. *)
Lemma C7_delete_witness :
  Cache.Inv cache_two_old ∧
  fst (Cache.Delete "b" cache_two_old) = None ∧
  Cache.keyCount (snd (Cache.Delete "b" cache_two_old)) = 1 ∧
  Cache.totalReqTimes (snd (Cache.Delete "b" cache_two_old)) = 1 ∧
  Cache.totalHitTimes (snd (Cache.Delete "b" cache_two_old)) = 1.
Proof.
  assert (Cache.Inv cache_two_old) as Hc by compute_done.
  destruct (C7_delete cache_two_old "b" Hc) as (_ & _ & Hreq & Hpresent & _).
  destruct (Hpresent 1%nat) as (Hr & _ & _ & _ & _ & Hcnt & _ & Hhit); [by vm_compute|].
  split_and!; [done|done|by rewrite Hcnt| |].
  - rewrite Hreq; [done|]. unfold int64_min, int64_max. simpl. lia.
  - rewrite Hhit; [done|]. unfold int64_min, int64_max. simpl. lia.
Defined.

(** ** C8: the counters *)

Section Claim8.
Context {V : Type}.

(** C8. In both files, every call of [Get], whether its key is in the index
    or not, returns (it does not panic) and leaves the request count one
    higher, as an [int64] goes up by one: that is [+ 1] below the largest
    [int64]. Every call of [Update] returns and leaves the request count and
    the hit count as they were. *)
Theorem C8_counters :
  (∀ (c : Lru.LRUCache V) k now now', Lru.Inv c →
     ∃ r c', Lru.Get k now now' c = Some (r, c') ∧
       Lru.GetReqCount c' = incr64 (Lru.GetReqCount c) ∧
       (int64_min ≤ Lru.GetReqCount c < int64_max →
        Lru.GetReqCount c' = Lru.GetReqCount c + 1))
  ∧
  (∀ (c : Lru.LRUCache V) k v now now', Lru.Inv c → Lru.keyCount c < int64_max →
     ∃ c', Lru.Update k v now now' c = Some (None, c') ∧
       Lru.GetReqCount c' = Lru.GetReqCount c ∧
       Lru.GetHitCount c' = Lru.GetHitCount c)
  ∧
  (∀ (c : Cache.LRUCache V) k now, Cache.Inv c →
     ∃ r c', Cache.Get k now c = Some (r, c') ∧
       Cache.GetTotalReqTimes c' = incr64 (Cache.GetTotalReqTimes c) ∧
       (int64_min ≤ Cache.GetTotalReqTimes c < int64_max →
        Cache.GetTotalReqTimes c' = Cache.GetTotalReqTimes c + 1))
  ∧
  (∀ (c : Cache.LRUCache V) k v now, Cache.Inv c → Cache.keyCount c < int64_max →
     ∃ c', Cache.Update k v now c = Some (None, c') ∧
       Cache.GetTotalReqTimes c' = Cache.GetTotalReqTimes c ∧
       Cache.GetTotalHitTimes c' = Cache.GetTotalHitTimes c).
Proof.
  split_and!.
  - intros c k now now' Hc.
    destruct (Lru_Get_spec k now now' c Hc)
      as (r & c' & Hget & _ & _ & _ & _ & Hreq & _).
    exists r, c'. unfold Lru.GetReqCount. split_and!; [done..|].
    intros Hr. rewrite Hreq. by apply incr64_id.
  - intros c k v now now' Hc Hlt.
    destruct (Lru_Update_spec k v now now' c Hc Hlt)
      as (c' & Hupd & _ & _ & _ & Hreq & Hhit & _).
    by exists c'.
  - intros c k now Hc.
    destruct (Cache_Get_spec k now c Hc)
      as (r & c' & Hget & _ & _ & _ & _ & Hreq & _).
    exists r, c'. unfold Cache.GetTotalReqTimes. split_and!; [done..|].
    intros Hr. rewrite Hreq. by apply incr64_id.
  - intros c k v now Hc Hlt.
    destruct (Cache_Update_spec k v now c Hc Hlt)
      as (c' & Hupd & _ & _ & _ & Hreq & Hhit & _).
    by exists c'.
Qed.
End Claim8.

(** C8 on a [Get] of a key that is not in the index, and on an [Update]. *)
Lemma C8_counters_witness :
  (∃ r c', Lru.Get "z" 1 1 lru_two_old = Some (r, c') ∧
           Lru.GetReqCount c' = incr64 (Lru.GetReqCount lru_two_old) ∧
           (int64_min ≤ Lru.GetReqCount lru_two_old < int64_max →
            Lru.GetReqCount c' = Lru.GetReqCount lru_two_old + 1))
  ∧
  (∃ c', Lru.Update "z" 9 1 1 lru_two_old = Some (None, c') ∧
         Lru.GetReqCount c' = Lru.GetReqCount lru_two_old ∧
         Lru.GetHitCount c' = Lru.GetHitCount lru_two_old)
  ∧
  (∃ r c', Cache.Get "z" 1 cache_two_old = Some (r, c') ∧
           Cache.GetTotalReqTimes c' = incr64 (Cache.GetTotalReqTimes cache_two_old) ∧
           (int64_min ≤ Cache.GetTotalReqTimes cache_two_old < int64_max →
            Cache.GetTotalReqTimes c' = Cache.GetTotalReqTimes cache_two_old + 1))
  ∧
  (∃ c', Cache.Update "z" 9 1 cache_two_old = Some (None, c') ∧
         Cache.GetTotalReqTimes c' = Cache.GetTotalReqTimes cache_two_old ∧
         Cache.GetTotalHitTimes c' = Cache.GetTotalHitTimes cache_two_old).
Proof.
  destruct (C8_counters (V:=Z)) as (HLget & HLupd & HCget & HCupd).
  split_and!.
  - apply HLget. compute_done.
  - apply HLupd; [compute_done|by vm_compute].
  - apply HCget. compute_done.
  - apply HCupd; [compute_done|by vm_compute].
Defined.

(** ** C9: a time to live of 0 or less *)

Section Claim9.
Context {V : Type}.

Lemma last_cons_default (t : Z) ts d d' :
  List.last (t :: ts) d = List.last (t :: ts) d'.
Proof.
  revert t. induction ts as [|t' ts IH]; intros t; [done|].
  change (List.last (t :: t' :: ts) d) with (List.last (t' :: ts) d).
  change (List.last (t :: t' :: ts) d') with (List.last (t' :: ts) d').
  apply IH.
Qed.

Lemma last_cons (t : Z) ts d : List.last (t :: ts) d = List.last ts t.
Proof.
  destruct ts as [|t' ts]; [done|].
  change (List.last (t :: t' :: ts) d) with (List.last (t' :: ts) d).
  apply last_cons_default.
Qed.

Lemma nondecreasing_from_app t0 ts1 ts2 :
  nondecreasing_from t0 (ts1 ++ ts2) ↔
  nondecreasing_from t0 ts1 ∧ nondecreasing_from (List.last ts1 t0) ts2.
Proof.
  revert t0. induction ts1 as [|t ts1 IH]; intros t0.
  - simpl. tauto.
  - change ((t :: ts1) ++ ts2) with (t :: (ts1 ++ ts2)).
    change (nondecreasing_from t0 (t :: ts1 ++ ts2))
      with (t0 ≤ t ∧ nondecreasing_from t (ts1 ++ ts2)).
    change (nondecreasing_from t0 (t :: ts1))
      with (t0 ≤ t ∧ nondecreasing_from t ts1).
    rewrite IH, last_cons. tauto.
Qed.

Lemma nondecreasing_from_last t0 ts :
  nondecreasing_from t0 ts → t0 ≤ List.last ts t0.
Proof.
  revert t0. induction ts as [|t ts IH]; intros t0; [simpl; lia|].
  intros [Hle Hts]. specialize (IH t Hts). rewrite last_cons. lia.
Qed.

Lemma last_app_default (ts1 ts2 : list Z) t0 :
  List.last (ts1 ++ ts2) t0 = List.last ts2 (List.last ts1 t0).
Proof.
  revert t0. induction ts1 as [|t ts1 IH]; intros t0; [done|].
  change ((t :: ts1) ++ ts2) with (t :: (ts1 ++ ts2)).
  by rewrite !last_cons, IH.
Qed.

(** An entry made by a Unix clock fails the test of [Get] from then on, when
    [ttl] is 0 or less. *)
Lemma nonpositive_ttl_expired (ttl now : Z) (item : entry V) :
  ttl ≤ 0 → is_int64 ttl → 0 ≤ createAt item ≤ now → now ≤ int64_max →
  ¬ add64 (createAt item) ttl > now.
Proof.
  unfold is_int64, int64_min, int64_max. intros Httl Hr Hc Hnow.
  rewrite add64_id; [lia|]. unfold is_int64, int64_min, int64_max. lia.
Qed.

(** A call at clock readings after [T] makes entries created within
    [t0] and its last reading, from entries created within [t0] and [T]. *)
Lemma Lru_step_created t0 T o (c : Lru.LRUCache V) :
  Lru.Inv c → Lru.keyCount c < int64_max → t0 ≤ T →
  Lru.created_within t0 T c → nondecreasing_from T (Lru.op_clock o) →
  ∃ c', Lru.step o c = Some c' ∧ Lru.Inv c' ∧ Lru.ttl c' = Lru.ttl c ∧
        Lru.keyCount c' ≤ Lru.keyCount c + 1 ∧
        Lru.created_within t0 (List.last (Lru.op_clock o) T) c'.
Proof.
  intros Hc Hlt Ht0 Hcr Hclock.
  destruct (Lru_step_spec o c Hc Hlt) as (c' & Hstep & Hc' & _ & Httl & Hcnt & _ & Hkept).
  exists c'. split_and!; [done..|].
  pose proof (nondecreasing_from_last _ _ Hclock) as Hlast.
  intros k item Hfind. destruct (Hkept k) as [Hk|Hw].
  - pose proof (Hcr k item (kept_or_gone_find _ _ _ _ _ _ Hk Hfind)). lia.
  - destruct o as [k0 v now now'|]; [|done]. destruct Hw as [-> Hw].
    rewrite Hw in Hfind. injection Hfind as <-. simpl in *. lia.
Qed.

Lemma Cache_step_created t0 T o (c : Cache.LRUCache V) :
  Cache.Inv c → Cache.keyCount c < int64_max → t0 ≤ T →
  Cache.created_within t0 T c → nondecreasing_from T (Cache.op_clock o) →
  ∃ c', Cache.step o c = Some c' ∧ Cache.Inv c' ∧ Cache.ttl c' = Cache.ttl c ∧
        Cache.keyCount c' ≤ Cache.keyCount c + 1 ∧
        Cache.created_within t0 (List.last (Cache.op_clock o) T) c'.
Proof.
  intros Hc Hlt Ht0 Hcr Hclock.
  destruct (Cache_step_spec o c Hc Hlt) as (c' & Hstep & Hc' & _ & Httl & Hcnt & _ & Hkept).
  exists c'. split_and!; [done..|].
  pose proof (nondecreasing_from_last _ _ Hclock) as Hlast.
  intros k item Hfind. destruct (Hkept k) as [Hk|Hw].
  - pose proof (Hcr k item (kept_or_gone_find _ _ _ _ _ _ Hk Hfind)). lia.
  - destruct o as [k0 v now| |]; try done. destruct Hw as [-> Hw].
    rewrite Hw in Hfind. injection Hfind as <-. simpl in *. lia.
Qed.

Lemma Lru_run_created t0 os : ∀ T (c : Lru.LRUCache V),
  Lru.Inv c → Lru.keyCount c + Z.of_nat (length os) ≤ int64_max → t0 ≤ T →
  Lru.created_within t0 T c → nondecreasing_from T (Lru.clock os) →
  ∃ c', Lru.run os c = Some c' ∧ Lru.Inv c' ∧ Lru.ttl c' = Lru.ttl c ∧
        Lru.created_within t0 (List.last (Lru.clock os) T) c'.
Proof.
  induction os as [|o os IH]; intros T c Hc Hlen Ht0 Hcr Hclock.
  - exists c. by split_and!.
  - simpl in Hlen. change (Lru.clock (o :: os)) with (Lru.op_clock o ++ Lru.clock os) in *.
    apply nondecreasing_from_app in Hclock as [Hclock1 Hclock2].
    destruct (Lru_step_created t0 T o c) as (c1 & Hstep & Hc1 & Httl1 & Hcnt1 & Hcr1);
      [done|lia|done..|].
    destruct (IH (List.last (Lru.op_clock o) T) c1) as (c' & Hrun & Hc' & Httl & Hcr');
      [done|lia| |done..|].
    { pose proof (nondecreasing_from_last _ _ Hclock1). lia. }
    exists c'. simpl. rewrite Hstep. simpl. split_and!; [done..|congruence|].
    by rewrite last_app_default.
Qed.

Lemma Cache_run_created t0 os : ∀ T (c : Cache.LRUCache V),
  Cache.Inv c → Cache.keyCount c + Z.of_nat (length os) ≤ int64_max → t0 ≤ T →
  Cache.created_within t0 T c → nondecreasing_from T (Cache.clock os) →
  ∃ c', Cache.run os c = Some c' ∧ Cache.Inv c' ∧ Cache.ttl c' = Cache.ttl c ∧
        Cache.created_within t0 (List.last (Cache.clock os) T) c'.
Proof.
  induction os as [|o os IH]; intros T c Hc Hlen Ht0 Hcr Hclock.
  - exists c. by split_and!.
  - simpl in Hlen.
    change (Cache.clock (o :: os)) with (Cache.op_clock o ++ Cache.clock os) in *.
    apply nondecreasing_from_app in Hclock as [Hclock1 Hclock2].
    destruct (Cache_step_created t0 T o c) as (c1 & Hstep & Hc1 & Httl1 & Hcnt1 & Hcr1);
      [done|lia|done..|].
    destruct (IH (List.last (Cache.op_clock o) T) c1) as (c' & Hrun & Hc' & Httl & Hcr');
      [done|lia| |done..|].
    { pose proof (nondecreasing_from_last _ _ Hclock1). lia. }
    exists c'. simpl. rewrite Hstep. simpl. split_and!; [done..|congruence|].
    by rewrite last_app_default.
Qed.

(** C9, as amended: the clock is a Unix clock, not only one that never goes
    back. The cache is made with [ttl <= 0]; the readings of the clock are
    [int64]s, not before the epoch, and never go back. Then no call of any
    run panics, and every [Get], after any run, returns not found. In both
    files. The runs are those of fewer than 2^63 calls. *)
Theorem C9_nonpositive_ttl :
  (∀ maxCount ttl (os : list (Lru.op V)) k now now',
     ttl ≤ 0 → is_int64 ttl →
     unix_clock (Lru.clock (os ++ [Lru.OpGet k now now'])) →
     Z.of_nat (length os) ≤ int64_max →
     ∃ c c', Lru.run os (Lru.NewLRUCache maxCount ttl) = Some c ∧
             Lru.Get k now now' c = Some ((None, Some ErrLruNotFoundKey), c'))
  ∧
  (∀ maxCount ttl (os : list (Cache.op V)) k now,
     ttl ≤ 0 → is_int64 ttl →
     unix_clock (Cache.clock (os ++ [Cache.OpGet k now])) →
     Z.of_nat (length os) ≤ int64_max →
     ∃ c c', Cache.run os (Cache.NewLRUCache maxCount ttl) = Some c ∧
             Cache.Get k now c = Some ((None, Some ErrKeyNotFound), c')).
Proof.
  split.
  - intros maxCount ttl os k now now' Httl Hr [Hclock Hint] Hlen.
    unfold Lru.clock in Hclock, Hint. rewrite bind_app in Hclock, Hint.
    simpl in Hclock, Hint.
    apply nondecreasing_from_app in Hclock as [Hclock1 (Hnow & _)].
    apply Forall_app in Hint as [_ Hint]. apply Forall_cons in Hint as [[_ Hmax] _].
    destruct (Lru_run_created 0 os 0 (Lru.NewLRUCache maxCount ttl))
      as (c & Hrun & Hc & Httlc & Hcr); [apply Lru_New_Inv|done|done| |done|].
    { intros k0 item Hfind. by vm_compute in Hfind. }
    destruct (Lru_Get_spec k now now' c Hc)
      as (r & c' & Hget & _ & _ & _ & _ & _ & _ & _ & _ & Hres).
    exists c, c'. split; [done|].
    destruct Hres as [[-> _]|(item & Hitem & Hfresh & _)]; [done|].
    exfalso. revert Hfresh. rewrite Httlc. simpl.
    pose proof (Hcr k item Hitem). fold (Lru.clock os) in Hnow.
    apply nonpositive_ttl_expired; [done|done|lia|done].
  - intros maxCount ttl os k now Httl Hr [Hclock Hint] Hlen.
    unfold Cache.clock in Hclock, Hint. rewrite bind_app in Hclock, Hint.
    simpl in Hclock, Hint.
    apply nondecreasing_from_app in Hclock as [Hclock1 (Hnow & _)].
    apply Forall_app in Hint as [_ Hint]. apply Forall_cons in Hint as [[_ Hmax] _].
    destruct (Cache_run_created 0 os 0 (Cache.NewLRUCache maxCount ttl))
      as (c & Hrun & Hc & Httlc & Hcr); [apply Cache_New_Inv|done|done| |done|].
    { intros k0 item Hfind. by vm_compute in Hfind. }
    destruct (Cache_Get_spec k now c Hc)
      as (r & c' & Hget & _ & _ & _ & _ & _ & _ & _ & Hres).
    exists c, c'. split; [done|].
    destruct Hres as [[-> _]|(item & Hitem & Hfresh & _)]; [done|].
    exfalso. revert Hfresh. rewrite Httlc. simpl.
    pose proof (Hcr k item Hitem). fold (Cache.clock os) in Hnow.
    apply nonpositive_ttl_expired; [done|done|lia|done].
Qed.
End Claim9.

(** C9 with [ttl = 0]: a key is written, and read in the same second. *)
Lemma C9_nonpositive_ttl_witness :
  (∃ c c', Lru.run [Lru.OpUpdate "a" 1 5 5] (Lru.NewLRUCache 2 0) = Some c ∧
           Lru.Get "a" 5 5 c = Some ((None, Some ErrLruNotFoundKey), c'))
  ∧
  (∃ c c', Cache.run [Cache.OpUpdate "a" 1 5] (Cache.NewLRUCache 2 0) = Some c ∧
           Cache.Get "a" 5 c = Some ((None, Some ErrKeyNotFound), c')).
Proof.
  destruct (C9_nonpositive_ttl (V:=Z)) as [Hlru Hcache]. split.
  - apply (Hlru 2 0 [Lru.OpUpdate "a" 1 5 5] "a" 5 5).
    + lia.
    + unfold is_int64, int64_min, int64_max. simpl. lia.
    + split; [simpl; lia|].
      repeat constructor; unfold int64_min, int64_max; simpl; lia.
    + by vm_compute.
  - apply (Hcache 2 0 [Cache.OpUpdate "a" 1 5] "a" 5).
    + lia.
    + unfold is_int64, int64_min, int64_max. simpl. lia.
    + split; [simpl; lia|].
      repeat constructor; unfold int64_min, int64_max; simpl; lia.
    + by vm_compute.
Defined.

(** C9 fails for a clock that never goes back but reads before the epoch.
    The cache is made with the least [int64] as [ttl], and every reading of
    the clock is [-1]: [createAt + ttl] wraps around to the largest [int64],
    which is greater than [-1], so the [Get] that follows [Update("a", 1)]
    is a hit, in both files. *)
Lemma C9_counterexample :
  int64_min ≤ 0 ∧ is_int64 int64_min ∧
  nondecreasing_from (-1)
    (Lru.clock [Lru.OpUpdate "a" 1 (-1) (-1); Lru.OpGet "a" (-1) (-1)]) ∧
  Forall is_int64
    (Lru.clock [Lru.OpUpdate "a" 1 (-1) (-1); Lru.OpGet "a" (-1) (-1)]) ∧
  add64 (-1) int64_min = int64_max ∧
  (∃ c c', Lru.run [Lru.OpUpdate "a" 1 (-1) (-1)] (Lru.NewLRUCache 2 int64_min)
             = Some c ∧
           Lru.Get "a" (-1) (-1) c = Some ((Some 1, None), c')) ∧
  (∃ c c', Cache.run [Cache.OpUpdate "a" 1 (-1)] (Cache.NewLRUCache 2 int64_min)
             = Some c ∧
           Cache.Get "a" (-1) c = Some ((Some 1, None), c')).
Proof.
  split_and!.
  - by vm_compute.
  - by vm_compute.
  - simpl. lia.
  - repeat constructor; by vm_compute.
  - by vm_compute.
  - eexists _, _. split.
    + by vm_compute.
    + by vm_compute.
  - eexists _, _. split.
    + by vm_compute.
    + by vm_compute.
Qed.

(** ** C10: what [Delete] leaves alone *)

Section Claim10.
Context {V : Type}.

(** C10. [Delete(k)] of [src/lru_cache.go] runs no eviction pass. It takes
    out of the list the element of [k] and no other, so the other elements
    keep their order; every other key is mapped as before, to the same entry
    (value and [createAt]), and no entry is written. When [k] is not in the
    index, the state after the call is the state before it with one more
    request counted. *)
Theorem C10_delete_frame (c : Cache.LRUCache V) (k : string) :
  let c' := snd (Cache.Delete k c) in
  Cache.heap c' = Cache.heap c ∧
  Cache.maxCount c' = Cache.maxCount c ∧ Cache.ttl c' = Cache.ttl c ∧
  (∀ k', k' ≠ k →
     Cache.lruMap c' !! k' = Cache.lruMap c !! k' ∧
     find (Cache.lruMap c') (Cache.heap c') k' = find (Cache.lruMap c) (Cache.heap c) k') ∧
  (∀ e, Cache.lruMap c !! k = Some e →
     Cache.lruList c' = Remove e (Cache.lruList c) ∧
     (∀ e', e' ∈ Cache.lruList c → e' ≠ e → e' ∈ Cache.lruList c')) ∧
  Cache.lruList c' `sublist_of` Cache.lruList c ∧
  (Cache.lruMap c !! k = None → c' = Cache.count_request c).
Proof.
  intros c'. subst c'. destruct (Cache.lruMap c !! k) as [e|] eqn:Hk.
  - rewrite (Cache_Delete_present _ _ _ Hk). simpl. split_and!; try done.
    + intros k' Hne. split; [by rewrite lookup_delete_ne|by apply find_delete_ne].
    + intros e' [= <-]. split; [done|]. intros e' Hin Hne. by apply elem_of_Remove.
    + apply sublist_filter.
  - rewrite (Cache_Delete_absent _ _ Hk). simpl. split_and!; try done.
Qed.
End Claim10.

(** C10 on [cache_two_old]: [Delete("b")] leaves ["a"] with its element, its
    entry and its place, and [Delete("z")], of a key that is not there, only
    counts a request. *)
Lemma C10_delete_frame_witness :
  (Cache.lruMap (snd (Cache.Delete "b" cache_two_old)) !! "a"
     = Cache.lruMap cache_two_old !! "a" ∧
   find (Cache.lruMap (snd (Cache.Delete "b" cache_two_old)))
        (Cache.heap (snd (Cache.Delete "b" cache_two_old))) "a"
     = Some (Entry "a" 7 0) ∧
   Cache.lruList (snd (Cache.Delete "b" cache_two_old)) = [0%nat])
  ∧ snd (Cache.Delete "z" cache_two_old) = Cache.count_request cache_two_old.
Proof.
  destruct (C10_delete_frame cache_two_old "b") as (_ & _ & _ & Hother & Hlist & _).
  destruct (C10_delete_frame cache_two_old "z") as (_ & _ & _ & _ & _ & _ & Habsent).
  destruct (Hother "a") as [Hmap Hfind]; [done|].
  destruct (Hlist 1%nat) as [Hl _]; [by vm_compute|].
  split_and!.
  - exact Hmap.
  - rewrite Hfind. by vm_compute.
  - rewrite Hl. by vm_compute.
  - apply Habsent. by vm_compute.
Defined.

(** * More properties of the two files *)

(** ** Lists of keys, and passes that stop early *)

Section MoreFacts.
Context {V : Type}.
Implicit Types (l : list handle) (m : gmap string handle).
Implicit Types (heap : list (entry V)) (e : handle) (k : string).

Lemma keys_of_app l1 l2 heap :
  keys_of (l1 ++ l2) heap = keys_of l1 heap ++ keys_of l2 heap.
Proof. unfold keys_of. apply omap_app. Qed.

Lemma keys_of_drop (n : nat) l heap :
  Forall (λ e, is_Some (key_at heap e)) l →
  keys_of (drop n l) heap = drop n (keys_of l heap).
Proof.
  revert n. induction l as [|e l IH]; intros n Hall; [by destruct n|].
  apply Forall_cons in Hall as [[k Hk] Hall]. destruct n as [|n]; [done|].
  unfold keys_of in *. simpl. rewrite Hk. simpl. by apply IH.
Qed.

Lemma consistent_all_keys l m heap n :
  consistent l m heap n → Forall (λ e, is_Some (key_at heap e)) l.
Proof.
  intros Hc. apply Forall_forall. intros e He.
  destruct (consistent_elem _ _ _ _ _ Hc He) as (item & Hitem & _).
  exists (key item). apply key_at_Some. eauto.
Qed.

Lemma keys_of_allocated l heap item :
  Forall (λ e, (e < length heap)%nat) l →
  keys_of l (heap ++ [item]) = keys_of l heap.
Proof.
  intros Hall. unfold keys_of. apply list_omap_ext, Forall_Forall2_diag.
  eapply Forall_impl; [exact Hall|]. intros e He. unfold key_at.
  by rewrite lookup_app_l.
Qed.

Lemma consistent_Forall_allocated l m heap n :
  consistent l m heap n → Forall (λ e, (e < length heap)%nat) l.
Proof.
  intros Hc. apply Forall_forall. intros e He. by eapply consistent_allocated.
Qed.

(** A key of the index whose element is behind the first [i] elements of
    the list is not among their keys. *)
Lemma consistent_not_in_front l m heap n (i : nat) k e :
  consistent l m heap n → m !! k = Some e → e ∉ take i l →
  k ∉ keys_of (take i l) heap.
Proof.
  intros Hc Hk Hnot (e' & He' & Hkey)%elem_of_keys_of.
  assert (e' ∈ l) as Hin by (by eapply subseteq_take).
  destruct (consistent_elem _ _ _ _ _ Hc Hin) as (item & Hitem & Hm).
  apply key_at_Some in Hkey as (item' & Hitem' & <-).
  rewrite Hitem in Hitem'. injection Hitem' as <-. congruence.
Qed.

(** A pass that stops before the last element leaves its key where it
    is. *)
Lemma swept_keeps_back (i : nat) l e m heap n l' m' n' k :
  consistent (l ++ [e]) m heap n → m !! k = Some e →
  swept i (l ++ [e]) m heap n l' m' n' → (i ≤ length l)%nat →
  m' !! k = Some e ∧ ∃ l0, l' = l0 ++ [e].
Proof.
  intros Hc Hk (_ & Hl' & Hm' & _) Hi. split.
  - rewrite Hm', decide_False; [done|].
    eapply consistent_not_in_front; [exact Hc|exact Hk|].
    rewrite take_app_le by done. intros Hin%subseteq_take.
    destruct Hc as (Hnd & _). apply NoDup_app in Hnd as (_ & Hnd & _).
    apply (Hnd e Hin). apply list_elem_of_here.
  - exists (drop i l). rewrite Hl', drop_app_le by done. done.
Qed.
End MoreFacts.

(** ** Inserts and evictions in [src/lru_cache.go] *)

Section CacheInsert.
Context {V : Type}.
Implicit Types (c : Cache.LRUCache V) (k : string) (e : handle).

(** A pass of [src/lru_cache.go] on a state at rest does nothing. *)
Lemma Cache_checkWithLocked_at_rest c :
  Cache.at_rest c → Cache.checkWithLocked c = Some c.
Proof.
  intros Hrest. rewrite Cache_checkWithLocked_unfold.
  case_decide as Hover; [|done]. destruct Hrest as [Hle|Hnil]; [lia|].
  by rewrite Hnil.
Qed.

(** How many entries the pass takes out: the excess of the count over
    [maxCount], and all of them when [maxCount] is negative. *)
Lemma Cache_checkWithLocked_count c :
  Cache.Inv c →
  ∃ c' n, Cache.checkWithLocked c = Some c' ∧ Cache.Inv c' ∧
    Cache.same_rest c c' ∧
    swept n (Cache.lruList c) (Cache.lruMap c) (Cache.heap c) (Cache.keyCount c)
            (Cache.lruList c') (Cache.lruMap c') (Cache.keyCount c') ∧
    Z.of_nat n = Z.max 0 (Z.min (Cache.keyCount c)
                                  (Cache.keyCount c - Cache.maxCount c)).
Proof.
  intros Hc.
  destruct (Cache_checkWithLocked_spec c Hc)
    as (c' & n & Hrun & Hc' & Hsame & Hsw & Hrest & Hdue).
  exists c', n. split_and!; [done..|].
  destruct (consistent_count _ _ _ _ Hc) as [Hcnt _].
  pose proof Hsw as (Hn & Hl' & _ & Hcnt').
  destruct Hsame as (Hmax & _).
  assert (0 < Z.of_nat n → Cache.keyCount c - (Z.of_nat n - 1) > Cache.maxCount c)
    as Hlast.
  { intros Hpos. specialize (Hdue (n - 1)%nat). rewrite Nat2Z.inj_sub in Hdue by lia.
    apply Hdue. lia. }
  assert (Cache.keyCount c - Z.of_nat n ≤ Cache.maxCount c
          ∨ Z.of_nat n = Cache.keyCount c) as Hstop.
  { destruct Hrest as [Hle|Hnil]; [left; lia|right].
    rewrite Hl' in Hnil. apply (f_equal length) in Hnil.
    rewrite length_drop in Hnil. simpl in Hnil. lia. }
  lia.
Qed.

(** [Update] of a key that is not in the index: the entry is appended, and
    the pass takes the excess from the front. *)
Lemma Cache_Update_new k v now c :
  Cache.Inv c → Cache.keyCount c < int64_max → Cache.lruMap c !! k = None →
  ∃ c' n, Cache.Update k v now c = Some (None, c') ∧ Cache.Inv c' ∧
    Cache.maxCount c' = Cache.maxCount c ∧ Cache.ttl c' = Cache.ttl c ∧
    Cache.heap c' = Cache.heap c ++ [Entry k v now] ∧
    consistent (Cache.lruList c ++ [length (Cache.heap c)])
               (<[k := length (Cache.heap c)]> (Cache.lruMap c))
               (Cache.heap c') (Cache.keyCount c + 1) ∧
    swept n (Cache.lruList c ++ [length (Cache.heap c)])
            (<[k := length (Cache.heap c)]> (Cache.lruMap c))
            (Cache.heap c') (Cache.keyCount c + 1)
            (Cache.lruList c') (Cache.lruMap c') (Cache.keyCount c') ∧
    Z.of_nat n = Z.max 0 (Z.min (Cache.keyCount c + 1)
                                  (Cache.keyCount c + 1 - Cache.maxCount c)).
Proof.
  intros Hc Hlt Hk. unfold Cache.Update. rewrite Hk.
  destruct (consistent_PushBack _ _ _ _ k v now Hc Hk Hlt) as [Hc1 Hcnt1].
  set (c1 := Cache.push_back k (Entry k v now) c).
  destruct (Cache_checkWithLocked_count c1 Hc1)
    as (c' & n & Hpass & Hc' & (Hmax & Httl & _ & _ & Hheap) & Hsw & Hn).
  rewrite Hpass. simpl. exists c', n. split; [done|].
  simpl in Hsw, Hn. rewrite Hcnt1 in Hsw, Hn. rewrite Hcnt1 in Hc1.
  rewrite Hheap. split_and!; done.
Qed.
End CacheInsert.

Section UpdateHolds.
Context {V : Type}.

(** After [Update(k, v)] of [src/lru_cache.go], made for one key or more,
    [k] is in the index with the entry written, and its element is the back
    of the list. *)
Lemma Cache_Update_holds (c : Cache.LRUCache V) k v now :
  Cache.Inv c → Cache.keyCount c < int64_max → 1 ≤ Cache.maxCount c →
  ∃ c1 e l0, Cache.Update k v now c = Some (None, c1) ∧ Cache.Inv c1 ∧
    Cache.ttl c1 = Cache.ttl c ∧ Cache.maxCount c1 = Cache.maxCount c ∧
    Cache.lruMap c1 !! k = Some e ∧ Cache.heap c1 !! e = Some (Entry k v now) ∧
    Cache.lruList c1 = l0 ++ [e].
Proof.
  intros Hc Hlt Hcap. destruct (Cache.lruMap c !! k) as [e|] eqn:Hk.
  - destruct (consistent_find _ _ _ _ _ _ Hc Hk) as (item & Hitem & Hkey & _).
    destruct (consistent_lookup _ _ _ _ _ _ Hc Hk) as [Hin _].
    unfold Cache.Update. rewrite Hk, Hitem. simpl.
    eexists _, e, (Remove e (Cache.lruList c)). split; [done|]. split_and!; try done.
    + by apply consistent_refresh.
    + simpl. rewrite list_lookup_insert_eq by (by eapply lookup_lt_Some).
      unfold refresh. by rewrite Hkey.
    + simpl. unfold MoveToBack. by rewrite decide_True.
  - destruct (Cache_Update_new k v now c Hc Hlt Hk)
      as (c1 & n & Hupd & Hc1 & Hmax & Httl & Hheap & Hcons & Hsw & Hn).
    destruct (consistent_count _ _ _ _ Hc) as [Hcnt [Hpos _]].
    assert (<[k := length (Cache.heap c)]> (Cache.lruMap c) !! k
            = Some (length (Cache.heap c))) as Hk0 by apply lookup_insert_eq.
    assert (n ≤ length (Cache.lruList c))%nat as Hle by lia.
    destruct (swept_keeps_back n _ _ _ _ _ _ _ _ k Hcons Hk0 Hsw Hle)
      as [Hk1 [l0 Hl0]].
    exists c1, (length (Cache.heap c)), l0. split_and!; try done.
    rewrite Hheap. apply list_lookup_middle. done.
Qed.

(** The body of [Update] of [src/lru.go] leaves [k] in the index with the
    entry written, its element at the back of the list. *)
Lemma Lru_Update_body_back (c : Lru.LRUCache V) k v now :
  Lru.Inv c → Lru.keyCount c < int64_max →
  ∃ c1 e l0, Lru.Update_body k v now c = Some c1 ∧ Lru.Inv c1 ∧
    Lru.ttl c1 = Lru.ttl c ∧ Lru.maxCount c1 = Lru.maxCount c ∧
    Lru.lruMap c1 !! k = Some e ∧ Lru.heap c1 !! e = Some (Entry k v now) ∧
    Lru.lruList c1 = l0 ++ [e].
Proof.
  intros Hc Hlt. unfold Lru.Update_body.
  destruct (Lru.lruMap c !! k) as [e|] eqn:Hk.
  - destruct (consistent_find _ _ _ _ _ _ Hc Hk) as (item & Hitem & Hkey & _).
    destruct (consistent_lookup _ _ _ _ _ _ Hc Hk) as [Hin _].
    rewrite Hitem. simpl.
    eexists _, e, (Remove e (Lru.lruList c)). split; [done|]. split_and!; try done.
    + by apply consistent_refresh.
    + simpl. rewrite list_lookup_insert_eq by (by eapply lookup_lt_Some).
      unfold refresh. by rewrite Hkey.
    + simpl. unfold MoveToBack. by rewrite decide_True.
  - destruct (consistent_PushBack _ _ _ _ k v now Hc Hk Hlt) as [Hc1 _].
    eexists _, (length (Lru.heap c)), (Lru.lruList c). split; [done|].
    split_and!; try done.
    + simpl. apply lookup_insert_eq.
    + simpl. by apply list_lookup_middle.
Qed.

(** After [Update(k, v)] of [src/lru.go], made for one key or more, with
    the entry not expired when the pass runs: the same. *)
Lemma Lru_Update_holds (c : Lru.LRUCache V) k v now now' :
  Lru.Inv c → Lru.keyCount c < int64_max → 1 ≤ Lru.maxCount c →
  now' < add64 now (Lru.ttl c) →
  ∃ c1 e l0, Lru.Update k v now now' c = Some (None, c1) ∧ Lru.Inv c1 ∧
    Lru.ttl c1 = Lru.ttl c ∧ Lru.maxCount c1 = Lru.maxCount c ∧
    Lru.lruMap c1 !! k = Some e ∧ Lru.heap c1 !! e = Some (Entry k v now) ∧
    Lru.lruList c1 = l0 ++ [e].
Proof.
  intros Hc Hlt Hcap Hfresh.
  destruct (Lru_Update_body_back c k v now Hc Hlt)
    as (c1 & e & l0 & Hbody & Hc1 & Httl1 & Hmax1 & Hk1 & He1 & Hl1).
  destruct (Lru_checkWithLocked_spec now' c1 Hc1)
    as (c' & n & Hpass & Hc' & (Hmax & Httl & _ & _ & Hheap) & Hsw & _ & Hdue).
  assert (n ≤ length l0)%nat as Hn.
  { destruct (decide (n ≤ length l0)%nat) as [|Hgt]; [done|exfalso].
    apply (Hdue (length l0) e (Entry k v now)); [lia| | |].
    - rewrite Hl1. by apply list_lookup_middle.
    - done.
    - destruct (consistent_count _ _ _ _ Hc1) as [Hcnt _].
      rewrite Hl1, length_app in Hcnt. simpl in Hcnt.
      unfold Lru.settled. simpl. rewrite Httl1, Hmax1. lia. }
  unfold Lru.Inv in Hc1. rewrite Hl1 in Hc1, Hsw.
  destruct (swept_keeps_back n _ _ _ _ _ _ _ _ k Hc1 Hk1 Hsw Hn) as [Hk' [l0' Hl']].
  exists c', e, l0'. unfold Lru.Update. rewrite Hbody. simpl. rewrite Hpass. simpl.
  split_and!; try done; congruence.
Qed.

(** X1. Read your write. A cache made for one key or more, in a consistent
    state; [T + ttl] is an [int64]. [Update(k, v)] at time [T], then at once
    [Get(k)] at a time [T'] with [T' - T < ttl], returns [v] and no error,
    whether [k] was in the index before or not, expired or not. In
    [src/lru.go] the entry must also be unexpired at the time [T2] of the
    pass that ends [Update]. *)
Theorem X1_read_your_write :
  (∀ (c : Lru.LRUCache V) k v T T2 T' T2',
     Lru.Inv c → Lru.keyCount c < int64_max → 1 ≤ Lru.maxCount c →
     is_int64 (T + Lru.ttl c) → T2 - T < Lru.ttl c → T' - T < Lru.ttl c →
     ∃ c1 c2, Lru.Update k v T T2 c = Some (None, c1) ∧
              Lru.Get k T' T2' c1 = Some ((Some v, None), c2))
  ∧
  (∀ (c : Cache.LRUCache V) k v T T',
     Cache.Inv c → Cache.keyCount c < int64_max → 1 ≤ Cache.maxCount c →
     is_int64 (T + Cache.ttl c) → T' - T < Cache.ttl c →
     ∃ c1 c2, Cache.Update k v T c = Some (None, c1) ∧
              Cache.Get k T' c1 = Some ((Some v, None), c2)).
Proof.
  split.
  - intros c k v T T2 T' T2' Hc Hlt Hcap Hr H2 H'.
    destruct (Lru_Update_holds c k v T T2 Hc Hlt Hcap)
      as (c1 & e & l0 & Hupd & Hc1 & Httl & _ & Hk & He & _).
    { rewrite add64_id by done. lia. }
    assert (add64 (createAt (Entry k v T)) (Lru.ttl c1) > T') as Hfresh.
    { simpl. rewrite Httl, add64_id by done. lia. }
    pose proof (Lru_Get_body_hit k T' c1 e _ Hk He Hfresh) as Hbody.
    destruct (Lru_checkWithLocked_spec T2'
                (Lru.move_to_back e (Lru.count_hit (Lru.count_request c1))))
      as (c2 & n & Hpass & _).
    { by apply Lru_move_to_back_Inv. }
    exists c1, c2. split; [done|]. unfold Lru.Get. rewrite Hbody. simpl.
    by rewrite Hpass.
  - intros c k v T T' Hc Hlt Hcap Hr H'.
    destruct (Cache_Update_holds c k v T Hc Hlt Hcap)
      as (c1 & e & l0 & Hupd & Hc1 & Httl & _ & Hk & He & _).
    assert (add64 (createAt (Entry k v T)) (Cache.ttl c1) > T') as Hfresh.
    { simpl. rewrite Httl, add64_id by done. lia. }
    eexists c1, _. split; [done|].
    by rewrite (Cache_Get_hit k T' c1 e _ Hk He Hfresh).
Qed.
End UpdateHolds.

(** X1 on [lru_two_old] and [cache_two_old], for a new key and the value 9,
    written at time 3 and read at time 4. *)
Lemma X1_read_your_write_witness :
  (∃ c1 c2, Lru.Update "z" 9 3 3 lru_two_old = Some (None, c1) ∧
            Lru.Get "z" 4 4 c1 = Some ((Some 9, None), c2))
  ∧
  (∃ c1 c2, Cache.Update "z" 9 3 cache_two_old = Some (None, c1) ∧
            Cache.Get "z" 4 c1 = Some ((Some 9, None), c2)).
Proof.
  destruct (X1_read_your_write (V:=Z)) as [Hlru Hcache]. split.
  - apply Hlru.
    + compute_done.
    + by vm_compute.
    + by vm_compute.
    + unfold is_int64, int64_min, int64_max. simpl. lia.
    + simpl. lia.
    + simpl. lia.
  - apply Hcache.
    + compute_done.
    + by vm_compute.
    + by vm_compute.
    + unfold is_int64, int64_min, int64_max. simpl. lia.
    + simpl. lia.
Defined.

(** ** Which entry an insert evicts, in [src/lru_cache.go] *)

Section CacheEvicts.
Context {V : Type}.

(** X2. [Update(k, v)] of [src/lru_cache.go], of a key that is not in the
    index, in a consistent state. Below [maxCount], nothing is evicted: the
    new element is appended to the list, [k] is added to the index and the
    key count is one more. At [maxCount], with a list that is not empty,
    exactly the front of the list (the least recently used entry) is
    evicted: its key leaves the index, every other key stays, [k] is added,
    and the key count is unchanged. *)
Theorem X2_cache_insert_evicts_front (c : Cache.LRUCache V) k v now :
  Cache.Inv c → Cache.keyCount c < int64_max → Cache.lruMap c !! k = None →
  ∃ c', Cache.Update k v now c = Some (None, c') ∧
    Cache.heap c' = Cache.heap c ++ [Entry k v now] ∧
    (Cache.keyCount c < Cache.maxCount c →
       Cache.lruList c' = Cache.lruList c ++ [length (Cache.heap c)] ∧
       Cache.lruMap c' = <[k := length (Cache.heap c)]> (Cache.lruMap c) ∧
       Cache.keyCount c' = Cache.keyCount c + 1) ∧
    (Cache.keyCount c = Cache.maxCount c →
     ∀ front rest item,
       Cache.lruList c = front :: rest → Cache.heap c !! front = Some item →
       Cache.lruList c' = rest ++ [length (Cache.heap c)] ∧
       Cache.lruMap c' =
         delete (key item) (<[k := length (Cache.heap c)]> (Cache.lruMap c)) ∧
       Cache.lruMap c' !! k = Some (length (Cache.heap c)) ∧
       Cache.keyCount c' = Cache.keyCount c).
Proof.
  intros Hc Hlt Hk.
  destruct (Cache_Update_new k v now c Hc Hlt Hk)
    as (c' & n & Hupd & Hc' & _ & _ & Hheap & Hcons & (_ & Hl' & Hm' & Hcnt') & Hn).
  destruct (consistent_count _ _ _ _ Hc) as [Hcnt [Hpos _]].
  exists c'. split_and!; [done..| |].
  - intros Hbelow. assert (n = 0%nat) as -> by lia. split_and!.
    + by rewrite Hl'.
    + apply map_eq. intros k0. rewrite Hm', decide_False; [done|].
      unfold keys_of. rewrite take_0. apply not_elem_of_nil.
    + lia.
  - intros Hfull front rest item Hl Hitem.
    assert (n = 1%nat) as ->.
    { rewrite Hl in Hcnt. simpl in Hcnt. lia. }
    assert (keys_of (take 1 (Cache.lruList c ++ [length (Cache.heap c)])) (Cache.heap c')
            = [key item]) as Hkeys.
    { rewrite Hl. change (take 1 ((front :: rest) ++ [length (Cache.heap c)]))
        with [front].
      apply (keys_of_cons _ front [] item).
      rewrite Hheap, lookup_app_l by (by eapply lookup_lt_Some). done. }
    assert (key item ≠ k) as Hne.
    { intros <-. destruct (consistent_elem _ _ _ _ front Hc) as (item' & Hitem' & Hm).
      - rewrite Hl. apply list_elem_of_here.
      - rewrite Hitem in Hitem'. injection Hitem' as <-. congruence. }
    split_and!.
    + by rewrite Hl', Hl.
    + apply map_eq. intros k0. rewrite Hm', Hkeys.
      destruct (decide (k0 = key item)) as [->|Hne0].
      * rewrite lookup_delete_eq, decide_True; [done|apply list_elem_of_here].
      * rewrite lookup_delete_ne by done. rewrite decide_False; [done|].
        by intros ->%list_elem_of_singleton.
    + rewrite Hm', Hkeys, decide_False.
      * apply lookup_insert_eq.
      * intros Hin%list_elem_of_singleton. by apply Hne.
    + lia.
Qed.
End CacheEvicts.

(** X2 on [cache_two_full]: the insert of ["z"] evicts ["a"], the front. *)
Lemma X2_cache_insert_evicts_front_witness :
  ∃ c', Cache.Update "z" 9 3 cache_two_full = Some (None, c') ∧
        Cache.lruList c' = [1%nat; 2%nat] ∧
        Cache.lruMap c' !! "a" = None ∧
        Cache.lruMap c' !! "b" = Some 1%nat ∧
        Cache.lruMap c' !! "z" = Some 2%nat.
Proof.
  destruct (X2_cache_insert_evicts_front cache_two_full "z" 9 3)
    as (c' & Hupd & _ & _ & Hfull).
  - compute_done.
  - by vm_compute.
  - by vm_compute.
  - destruct (Hfull eq_refl 0%nat [1%nat] (Entry "a" 7 0)) as (Hl & Hm & Hz & _);
      [done..|].
    exists c'. split; [done|]. rewrite Hl, Hm. split_and!; by vm_compute.
Defined.

(** ** What a hit does, and does not *)

Section Hit.
Context {V : Type}.

(** X3. A hit does not prolong the life of an entry. [Get(k)] on an entry
    that is not expired returns its value, moves its element to the back of
    the list, keeps the order of the other elements, and writes no entry:
    [createAt] stays. So a later [Get(k)], at a time when [createAt + ttl]
    is past, returns not found, however recent the hit. In [src/lru.go] the
    pass that ends the first [Get] may take [n] entries from the front. *)
Theorem X3_hit_does_not_refresh :
  (∀ (c : Lru.LRUCache V) k e item now now',
     Lru.Inv c → Lru.lruMap c !! k = Some e → Lru.heap c !! e = Some item →
     add64 (createAt item) (Lru.ttl c) > now →
     ∃ c1 n, Lru.Get k now now' c = Some ((Some (value item), None), c1) ∧
       Lru.heap c1 = Lru.heap c ∧
       Lru.lruList c1 = drop n (Remove e (Lru.lruList c) ++ [e]) ∧
       (∀ now2 now2', ¬ add64 (createAt item) (Lru.ttl c) > now2 →
          ∃ c2, Lru.Get k now2 now2' c1 = Some ((None, Some ErrLruNotFoundKey), c2)))
  ∧
  (∀ (c : Cache.LRUCache V) k e item now,
     Cache.Inv c → Cache.lruMap c !! k = Some e → Cache.heap c !! e = Some item →
     add64 (createAt item) (Cache.ttl c) > now →
     ∃ c1, Cache.Get k now c = Some ((Some (value item), None), c1) ∧
       Cache.heap c1 = Cache.heap c ∧ Cache.lruMap c1 = Cache.lruMap c ∧
       Cache.keyCount c1 = Cache.keyCount c ∧
       Cache.lruList c1 = Remove e (Cache.lruList c) ++ [e] ∧
       (∀ now2, ¬ add64 (createAt item) (Cache.ttl c) > now2 →
          ∃ c2, Cache.Get k now2 c1 = Some ((None, Some ErrKeyNotFound), c2))).
Proof.
  split.
  - intros c k e item now now' Hc Hk Hitem Hfresh.
    destruct (consistent_lookup _ _ _ _ _ _ Hc Hk) as [Hin _].
    pose proof (Lru_Get_body_hit k now c e item Hk Hitem Hfresh) as Hbody.
    set (cb := Lru.move_to_back e (Lru.count_hit (Lru.count_request c))) in *.
    assert (Lru.Inv cb) as Hcb by (by apply Lru_move_to_back_Inv).
    destruct (Lru_checkWithLocked_spec now' cb Hcb)
      as (c1 & n & Hpass & Hc1 & (_ & Httl & _ & _ & Hheap) & Hsw & _ & _).
    exists c1, n. unfold Lru.Get. rewrite Hbody. simpl. rewrite Hpass. simpl.
    split_and!; [done|done| |].
    + destruct Hsw as (_ & -> & _). simpl. unfold MoveToBack.
      by rewrite decide_True.
    + intros now2 now2' Hstale.
      destruct (Lru_Get_spec k now2 now2' c1 Hc1)
        as (r & c2 & Hget & _ & _ & _ & _ & _ & _ & _ & _ & Hres).
      exists c2. destruct Hres as [[-> _]|(item' & Hfind & Hfresh' & _)]; [done|].
      exfalso. apply Hstale.
      pose proof (swept_kept_or_gone _ _ _ _ _ _ _ _ k Hsw) as Hkept.
      rewrite Hheap in Hfind.
      apply (kept_or_gone_find _ _ _ _ _ _ Hkept) in Hfind.
      apply find_Some_lookup in Hfind as (e0 & Hk0 & Hitem0).
      change (Lru.lruMap cb) with (Lru.lruMap c) in Hk0.
      change (Lru.heap cb) with (Lru.heap c) in Hitem0.
      assert (item' = item) as -> by congruence.
      rewrite Httl in Hfresh'. exact Hfresh'.
  - intros c k e item now Hc Hk Hitem Hfresh.
    destruct (consistent_lookup _ _ _ _ _ _ Hc Hk) as [Hin _].
    rewrite (Cache_Get_hit k now c e item Hk Hitem Hfresh).
    eexists. split; [done|]. split_and!; try done.
    + simpl. unfold MoveToBack. by rewrite decide_True.
    + intros now2 Hstale. eexists.
      by apply (Cache_Get_stale k now2 _ e item).
Qed.
End Hit.

(** X3 on [lru_two_old] and [cache_two_old]: ["b"], written at time 0 to live 5
    seconds, is read at time 4 and again at time 5. *)
Lemma X3_hit_does_not_refresh_witness :
  (∃ c1 c2, Lru.Get "b" 4 4 lru_two_old = Some ((Some 8, None), c1) ∧
            Lru.Get "b" 5 5 c1 = Some ((None, Some ErrLruNotFoundKey), c2))
  ∧
  (∃ c1 c2, Cache.Get "b" 4 cache_two_old = Some ((Some 8, None), c1) ∧
            Cache.Get "b" 5 c1 = Some ((None, Some ErrKeyNotFound), c2)).
Proof.
  destruct (X3_hit_does_not_refresh (V:=Z)) as [Hlru Hcache]. split.
  - destruct (Hlru lru_two_old "b" 1%nat (Entry "b" 8 0) 4 4)
      as (c1 & n & Hget & _ & _ & Hlater);
      [compute_done|by vm_compute|by vm_compute|by vm_compute|].
    destruct (Hlater 5 5) as [c2 Hget2]; [by vm_compute|]. by exists c1, c2.
  - destruct (Hcache cache_two_old "b" 1%nat (Entry "b" 8 0) 4)
      as (c1 & Hget & _ & _ & _ & _ & Hlater);
      [compute_done|by vm_compute|by vm_compute|by vm_compute|].
    destruct (Hlater 5) as [c2 Hget2]; [by vm_compute|]. by exists c1, c2.
Defined.

(** ** The most recently used key *)

Section MostRecent.
Context {V : Type}.

(** X4. After [Update(k, v)] at time [now], in a cache made for one key or
    more, [k] is in the index, its entry holds [v] and [now], and its
    element is the back of the list: [k] is the most recently used key,
    whether it was inserted or overwritten. In [src/lru.go] this needs the
    entry unexpired at the time [now'] of the pass that ends [Update]. *)
Theorem X4_update_makes_most_recent :
  (∀ (c : Lru.LRUCache V) k v now now',
     Lru.Inv c → Lru.keyCount c < int64_max → 1 ≤ Lru.maxCount c →
     now' < add64 now (Lru.ttl c) →
     ∃ c1 e l0, Lru.Update k v now now' c = Some (None, c1) ∧
       Lru.lruMap c1 !! k = Some e ∧ Lru.heap c1 !! e = Some (Entry k v now) ∧
       Lru.lruList c1 = l0 ++ [e])
  ∧
  (∀ (c : Cache.LRUCache V) k v now,
     Cache.Inv c → Cache.keyCount c < int64_max → 1 ≤ Cache.maxCount c →
     ∃ c1 e l0, Cache.Update k v now c = Some (None, c1) ∧
       Cache.lruMap c1 !! k = Some e ∧ Cache.heap c1 !! e = Some (Entry k v now) ∧
       Cache.lruList c1 = l0 ++ [e]).
Proof.
  split.
  - intros c k v now now' Hc Hlt Hcap Hfresh.
    destruct (Lru_Update_holds c k v now now' Hc Hlt Hcap Hfresh)
      as (c1 & e & l0 & Hupd & _ & _ & _ & Hk & He & Hl).
    by exists c1, e, l0.
  - intros c k v now Hc Hlt Hcap.
    destruct (Cache_Update_holds c k v now Hc Hlt Hcap)
      as (c1 & e & l0 & Hupd & _ & _ & _ & Hk & He & Hl).
    by exists c1, e, l0.
Qed.
End MostRecent.

(** X4 on [lru_two_old] and [cache_two_full]: ["a"], the front, is overwritten
    at time 3 and becomes the back. *)
Lemma X4_update_makes_most_recent_witness :
  (∃ c1 e l0, Lru.Update "a" 9 3 3 lru_two_old = Some (None, c1) ∧
     Lru.lruMap c1 !! "a" = Some e ∧ Lru.heap c1 !! e = Some (Entry "a" 9 3) ∧
     Lru.lruList c1 = l0 ++ [e])
  ∧
  (∃ c1 e l0, Cache.Update "a" 9 3 cache_two_full = Some (None, c1) ∧
     Cache.lruMap c1 !! "a" = Some e ∧ Cache.heap c1 !! e = Some (Entry "a" 9 3) ∧
     Cache.lruList c1 = l0 ++ [e]).
Proof.
  destruct (X4_update_makes_most_recent (V:=Z)) as [Hlru Hcache]. split.
  - apply Hlru; [compute_done|by vm_compute..].
  - apply Hcache; [compute_done|by vm_compute..].
Defined.

(** ** What [Get] and [Delete] of [src/lru_cache.go] leave alone *)

Section CacheFrame.
Context {V : Type}.

(** X5. [Get(k)] of [src/lru_cache.go] runs no eviction pass and touches no
    other key. In a consistent state it returns; no entry is written; every
    other key is mapped as before, to the same entry, expired or not; the
    other elements keep their order in the list; the key count is as before
    or one less; and when [k] is not in the index the state after the call
    is the state before it with one more request counted. *)
Theorem X5_cache_get_frame (c : Cache.LRUCache V) k now :
  Cache.Inv c →
  ∃ r c', Cache.Get k now c = Some (r, c') ∧
    Cache.heap c' = Cache.heap c ∧
    Cache.maxCount c' = Cache.maxCount c ∧ Cache.ttl c' = Cache.ttl c ∧
    (∀ k', k' ≠ k →
       Cache.lruMap c' !! k' = Cache.lruMap c !! k' ∧
       find (Cache.lruMap c') (Cache.heap c') k'
         = find (Cache.lruMap c) (Cache.heap c) k') ∧
    (∀ e, Cache.lruMap c !! k = Some e →
       Remove e (Cache.lruList c') = Remove e (Cache.lruList c)) ∧
    Cache.keyCount c - 1 ≤ Cache.keyCount c' ≤ Cache.keyCount c ∧
    (Cache.lruMap c !! k = None → c' = Cache.count_request c).
Proof.
  intros Hc. destruct (Cache.lruMap c !! k) as [e|] eqn:Hk.
  - destruct (consistent_find _ _ _ _ _ _ Hc Hk) as (item & Hitem & _ & _).
    destruct (consistent_lookup _ _ _ _ _ _ Hc Hk) as [Hin _].
    destruct (decide (add64 (createAt item) (Cache.ttl c) > now)) as [Hfresh|Hstale].
    + rewrite (Cache_Get_hit _ _ _ _ _ Hk Hitem Hfresh).
      eexists _, _. split; [done|]. split_and!; try done; try (simpl; lia).
      intros e' [= <-]. simpl. apply MoveToBack_Remove; [apply Hc|done].
    + rewrite (Cache_Get_stale _ _ _ _ _ Hk Hitem Hstale).
      destruct (Cache_remove_entry_Inv (Cache.count_request c) k e)
        as [_ Hcnt]; [done..|].
      eexists _, _. split; [done|].
      split_and!; try done; try (rewrite Hcnt; simpl; lia).
      * intros k' Hne. simpl. split; [by rewrite lookup_delete_ne|].
        by apply find_delete_ne.
      * intros e' [= <-]. simpl. unfold Remove. rewrite list_filter_filter.
        apply list_filter_iff. intros x. tauto.
  - rewrite (Cache_Get_miss _ _ _ Hk).
    eexists _, _. split; [done|]. split_and!; try done; simpl; lia.
Qed.

(** X6. A deleted key is gone. After [Delete(k)] of [src/lru_cache.go], in
    any state, [k] is not in the index: [Get(k)] returns not found and a
    second [Delete(k)] returns the error, each changing nothing but the
    request count. And after [Update(k, v)] in a consistent cache made for
    one key or more, [Delete(k)] finds the key: it returns no error and
    counts a hit. *)
Theorem X6_delete_round_trips (c : Cache.LRUCache V) k :
  let c1 := snd (Cache.Delete k c) in
  Cache.lruMap c1 !! k = None ∧
  (∀ now, Cache.Get k now c1
          = Some ((None, Some ErrKeyNotFound), Cache.count_request c1)) ∧
  Cache.Delete k c1 = (Some ErrKeyNotFound, Cache.count_request c1) ∧
  (∀ v now, Cache.Inv c → Cache.keyCount c < int64_max → 1 ≤ Cache.maxCount c →
     ∃ c2, Cache.Update k v now c = Some (None, c2) ∧
           fst (Cache.Delete k c2) = None ∧
           Cache.lruMap (snd (Cache.Delete k c2)) !! k = None ∧
           Cache.totalHitTimes (snd (Cache.Delete k c2))
             = incr64 (Cache.totalHitTimes c)).
Proof.
  intros c1. assert (Cache.lruMap c1 !! k = None) as Hnone.
  { subst c1. destruct (Cache.lruMap c !! k) as [e|] eqn:Hk.
    - rewrite (Cache_Delete_present _ _ _ Hk). simpl. apply lookup_delete_eq.
    - by rewrite (Cache_Delete_absent _ _ Hk). }
  split_and!.
  - done.
  - intros now. by apply Cache_Get_miss.
  - by apply Cache_Delete_absent.
  - intros v now Hc Hlt Hcap.
    destruct (Cache_Update_spec k v now c Hc Hlt) as (c2' & Hupd' & _ & _ & _ & _ & Hhit & _).
    destruct (Cache_Update_holds c k v now Hc Hlt Hcap)
      as (c2 & e & l0 & Hupd & _ & _ & _ & Hk & _).
    rewrite Hupd in Hupd'. injection Hupd' as <-.
    exists c2. split; [done|]. rewrite (Cache_Delete_present _ _ _ Hk). simpl.
    split_and!; [done|apply lookup_delete_eq|by rewrite Hhit].
Qed.
End CacheFrame.

(** X5 on [cache_two_old]: [Get("b")] at time 100 finds ["b"] expired and
    removes it; ["a"], as old, stays in the index with its entry. *)
Lemma X5_cache_get_frame_witness :
  ∃ r c', Cache.Get "b" 100 cache_two_old = Some (r, c') ∧
    Cache.lruMap c' !! "a" = Some 0%nat ∧
    find (Cache.lruMap c') (Cache.heap c') "a" = Some (Entry "a" 7 0).
Proof.
  destruct (X5_cache_get_frame cache_two_old "b" 100)
    as (r & c' & Hget & _ & _ & _ & Hother & _); [compute_done|].
  destruct (Hother "a") as [Hm Hf]; [done|].
  exists r, c'. split; [exact Hget|]. split.
  - etrans; [exact Hm|]. by vm_compute.
  - etrans; [exact Hf|]. by vm_compute.
Defined.

(** X6 on [cache_two_old] and the key ["b"]. *)
Lemma X6_delete_round_trips_witness :
  Cache.lruMap (snd (Cache.Delete "b" cache_two_old)) !! "b" = None ∧
  ∃ c2, Cache.Update "b" 9 3 cache_two_old = Some (None, c2) ∧
        fst (Cache.Delete "b" c2) = None.
Proof.
  destruct (X6_delete_round_trips cache_two_old "b") as (Hgone & _ & _ & Hupd).
  split; [exact Hgone|].
  destruct (Hupd 9 3) as (c2 & Hu & Hd & _); [compute_done|by vm_compute..|].
  by exists c2.
Defined.

(** ** A cache made for no key *)

Section NoRoom.
Context {V : Type}.

Lemma consistent_zero (l : list handle) (m : gmap string handle)
    (heap : list (entry V)) :
  consistent l m heap 0 → l = [] ∧ m = ∅.
Proof.
  intros (_ & Hm & _ & Hn & _).
  assert (l = []) as -> by (destruct l; [done|simpl in Hn; lia]).
  split; [done|]. apply map_empty. intros k.
  destruct (m !! k) as [e|] eqn:Hk; [|done].
  apply Hm in Hk as [Hin _]. by apply elem_of_nil in Hin.
Qed.

(** X7. A cache made with [maxCount] 0 or less stores nothing. After any
    run of calls from [NewLRUCache], no call having panicked, the list and
    the index are empty and the key count is 0: every [Update] returned
    [nil], and its entry was taken out by the pass that ended it. A [Get]
    of any key then returns not found and changes the request count
    alone. In both files. *)
Theorem X7_no_room_stores_nothing :
  (∀ maxCount ttl (os : list (Lru.op V)) k now now',
     maxCount ≤ 0 → Z.of_nat (length os) ≤ int64_max →
     ∃ c, Lru.run os (Lru.NewLRUCache maxCount ttl) = Some c ∧
          Lru.lruList c = [] ∧ Lru.lruMap c = ∅ ∧ Lru.GetKeysCount c = 0 ∧
          Lru.Get k now now' c
            = Some ((None, Some ErrLruNotFoundKey), Lru.count_request c))
  ∧
  (∀ maxCount ttl (os : list (Cache.op V)) k now,
     maxCount ≤ 0 → Z.of_nat (length os) ≤ int64_max →
     ∃ c, Cache.run os (Cache.NewLRUCache maxCount ttl) = Some c ∧
          Cache.lruList c = [] ∧ Cache.lruMap c = ∅ ∧ Cache.GetKeyCount c = 0 ∧
          Cache.Get k now c
            = Some ((None, Some ErrKeyNotFound), Cache.count_request c)).
Proof.
  split.
  - intros maxCount ttl os k now now' Hmax Hlen.
    destruct (Lru_run_spec (λ _, True) os (Lru.NewLRUCache maxCount ttl))
      as (c & Hrun & Hc & _ & _ & _ & _ & Hbound); [done|apply Lru_New_Inv|done..|].
    assert (Lru.keyCount c = 0) as Hzero.
    { destruct (consistent_count _ _ _ _ Hc) as [_ [Hpos _]].
      destruct os as [|o os].
      - simpl in Hrun. by injection Hrun as <-.
      - specialize (Hbound ltac:(done)). simpl in Hbound. lia. }
    unfold Lru.Inv in Hc. rewrite Hzero in Hc.
    destruct (consistent_zero _ _ _ Hc) as [Hl Hm].
    exists c. split_and!; [done..|].
    unfold Lru.Get. rewrite Lru_Get_body_miss by (by rewrite Hm). simpl.
    rewrite Lru_checkWithLocked_at_rest; [done|].
    unfold Lru.at_rest. simpl. by rewrite Hl.
  - intros maxCount ttl os k now Hmax Hlen.
    destruct (Cache_run_spec (λ _, True) os (Cache.NewLRUCache maxCount ttl))
      as (c & Hrun & Hc & _ & _ & _ & _ & Hbound); [done|apply Cache_New_Inv|done..|].
    assert (Cache.keyCount c = 0) as Hzero.
    { destruct (consistent_count _ _ _ _ Hc) as [_ [Hpos _]].
      simpl in Hbound. lia. }
    unfold Cache.Inv in Hc. rewrite Hzero in Hc.
    destruct (consistent_zero _ _ _ Hc) as [Hl Hm].
    exists c. split_and!; [done..|].
    apply Cache_Get_miss. by rewrite Hm.
Qed.
End NoRoom.

(** X7 on an [Update] and a [Get] of its key, in caches made for 0 keys. *)
Lemma X7_no_room_stores_nothing_witness :
  (∃ c, Lru.run [Lru.OpUpdate "a" 1 0 0] (Lru.NewLRUCache 0 10) = Some c ∧
        Lru.Get "a" 1 1 c
          = Some ((None, Some ErrLruNotFoundKey), Lru.count_request c))
  ∧
  (∃ c, Cache.run [Cache.OpUpdate "a" 1 0] (Cache.NewLRUCache 0 10) = Some c ∧
        Cache.Get "a" 1 c
          = Some ((None, Some ErrKeyNotFound), Cache.count_request c)).
Proof.
  destruct (X7_no_room_stores_nothing (V:=Z)) as [Hlru Hcache]. split.
  - destruct (Hlru 0 10 [Lru.OpUpdate "a" 1 0 0] "a" 1 1)
      as (c & Hrun & _ & _ & _ & Hget); [done|by vm_compute|].
    by exists c.
  - destruct (Hcache 0 10 [Cache.OpUpdate "a" 1 0] "a" 1)
      as (c & Hrun & _ & _ & _ & Hget); [done|by vm_compute|].
    by exists c.
Defined.

(** ** The counters along a run *)

Section Counters.
Context {V : Type}.

Lemma Lru_run_counters (os : list (Lru.op V)) c :
  Lru.Inv c → Lru.keyCount c + Z.of_nat (length os) ≤ int64_max →
  0 ≤ Lru.hitCount c ≤ Lru.reqCount c →
  Lru.reqCount c + Z.of_nat (length os) ≤ int64_max →
  ∃ c', Lru.run os c = Some c' ∧
    Lru.reqCount c' = Lru.reqCount c + Z.of_nat (lru_requests os) ∧
    Lru.hitCount c ≤ Lru.hitCount c' ∧
    Lru.hitCount c' - Lru.hitCount c ≤ Z.of_nat (lru_requests os).
Proof.
  revert c. induction os as [|o os IH]; intros c Hc Hkeys Hhit Hreq.
  - exists c. simpl. split_and!; [done|lia..].
  - simpl in Hkeys, Hreq. destruct o as [k v now now'|k now now'].
    + destruct (Lru_Update_spec k v now now' c Hc)
        as (c1 & Hupd & Hc1 & _ & _ & Hreq1 & Hhit1 & Hcnt1 & _); [lia|].
      destruct (IH c1) as (c' & Hrun & Hr & Hh1 & Hh2); [done|lia..|].
      exists c'. simpl. rewrite Hupd. simpl. split; [done|]. lia.
    + destruct (Lru_Get_spec k now now' c Hc)
        as (r & c1 & Hget & Hc1 & _ & _ & _ & Hreq1 & Hcnt1 & _ & _ & Hres).
      rewrite incr64_id in Hreq1 by (unfold int64_min; lia).
      assert (Lru.hitCount c ≤ Lru.hitCount c1 ≤ Lru.hitCount c + 1) as Hhit1.
      { destruct Hres as [[_ ->]|(item & _ & _ & _ & ->)]; [lia|].
        rewrite incr64_id by (unfold int64_min; lia). lia. }
      destruct (IH c1) as (c' & Hrun & Hr & Hh1 & Hh2); [done|lia..|].
      exists c'. simpl. rewrite Hget. simpl. split; [done|]. lia.
Qed.

Lemma Cache_run_counters (os : list (Cache.op V)) c :
  Cache.Inv c → Cache.keyCount c + Z.of_nat (length os) ≤ int64_max →
  0 ≤ Cache.totalHitTimes c ≤ Cache.totalReqTimes c →
  Cache.totalReqTimes c + Z.of_nat (length os) ≤ int64_max →
  ∃ c', Cache.run os c = Some c' ∧
    Cache.totalReqTimes c'
      = Cache.totalReqTimes c + Z.of_nat (cache_requests os) ∧
    Cache.totalHitTimes c ≤ Cache.totalHitTimes c' ∧
    Cache.totalHitTimes c' - Cache.totalHitTimes c
      ≤ Z.of_nat (cache_requests os).
Proof.
  revert c. induction os as [|o os IH]; intros c Hc Hkeys Hhit Hreq.
  - exists c. simpl. split_and!; [done|lia..].
  - simpl in Hkeys, Hreq. destruct o as [k v now|k now|k].
    + destruct (Cache_Update_spec k v now c Hc)
        as (c1 & Hupd & Hc1 & _ & _ & Hreq1 & Hhit1 & Hcnt1 & _); [lia|].
      destruct (IH c1) as (c' & Hrun & Hr & Hh1 & Hh2); [done|lia..|].
      exists c'. simpl. rewrite Hupd. simpl. split; [done|]. lia.
    + destruct (Cache_Get_spec k now c Hc)
        as (r & c1 & Hget & Hc1 & _ & _ & _ & Hreq1 & Hcnt1 & _ & Hres).
      rewrite incr64_id in Hreq1 by (unfold int64_min; lia).
      assert (Cache.totalHitTimes c ≤ Cache.totalHitTimes c1
              ≤ Cache.totalHitTimes c + 1) as Hhit1.
      { destruct Hres as [(_ & -> & _)|(item & _ & _ & _ & -> & _)]; [lia|].
        rewrite incr64_id by (unfold int64_min; lia). lia. }
      destruct (IH c1) as (c' & Hrun & Hr & Hh1 & Hh2); [done|lia..|].
      exists c'. simpl. rewrite Hget. simpl. split; [done|]. lia.
    + destruct (Cache_Delete_spec k c Hc) as (Hc1 & _ & _ & _ & Hcnt1 & _).
      set (c1 := snd (Cache.Delete k c)) in *.
      assert (Cache.totalReqTimes c1 = Cache.totalReqTimes c + 1 ∧
              Cache.totalHitTimes c ≤ Cache.totalHitTimes c1
                ≤ Cache.totalHitTimes c + 1) as [Hreq1 Hhit1].
      { subst c1. destruct (Cache.lruMap c !! k) as [e|] eqn:Hk.
        - rewrite (Cache_Delete_present _ _ _ Hk). simpl.
          rewrite !incr64_id by (unfold int64_min; lia). lia.
        - rewrite (Cache_Delete_absent _ _ Hk). simpl.
          rewrite incr64_id by (unfold int64_min; lia). lia. }
      destruct (IH c1) as (c' & Hrun & Hr & Hh1 & Hh2); [done|lia..|].
      exists c'. simpl. split; [done|]. lia.
Qed.

(** X8. The counters count calls. After a run of calls from
    [NewLRUCache], of fewer than 2^63 calls, the request count of
    [src/lru.go] is the number of [Get]s of the run, and that of
    [src/lru_cache.go] the number of its [Get]s and [Delete]s; the hit
    count is between 0 and the request count. [Update] is not a
    request. *)
Theorem X8_counters_count_calls :
  (∀ maxCount ttl (os : list (Lru.op V)),
     Z.of_nat (length os) ≤ int64_max →
     ∃ c, Lru.run os (Lru.NewLRUCache maxCount ttl) = Some c ∧
          Lru.GetReqCount c = Z.of_nat (lru_requests os) ∧
          0 ≤ Lru.GetHitCount c ≤ Lru.GetReqCount c)
  ∧
  (∀ maxCount ttl (os : list (Cache.op V)),
     Z.of_nat (length os) ≤ int64_max →
     ∃ c, Cache.run os (Cache.NewLRUCache maxCount ttl) = Some c ∧
          Cache.GetTotalReqTimes c = Z.of_nat (cache_requests os) ∧
          0 ≤ Cache.GetTotalHitTimes c ≤ Cache.GetTotalReqTimes c).
Proof.
  split.
  - intros maxCount ttl os Hlen.
    destruct (Lru_run_counters os (Lru.NewLRUCache maxCount ttl))
      as (c & Hrun & Hreq & Hh1 & Hh2);
      [apply Lru_New_Inv|simpl; lia..|].
    exists c. unfold Lru.GetReqCount, Lru.GetHitCount.
    simpl in Hreq, Hh1, Hh2. split; [done|]. lia.
  - intros maxCount ttl os Hlen.
    destruct (Cache_run_counters os (Cache.NewLRUCache maxCount ttl))
      as (c & Hrun & Hreq & Hh1 & Hh2);
      [apply Cache_New_Inv|simpl; lia..|].
    exists c. unfold Cache.GetTotalReqTimes, Cache.GetTotalHitTimes.
    simpl in Hreq, Hh1, Hh2. split; [done|]. lia.
Qed.
End Counters.

(** X8 on runs of one [Update], a [Get] that hits, a [Get] that misses and,
    in [src/lru_cache.go], a [Delete]. *)
Lemma X8_counters_count_calls_witness :
  (∃ c, Lru.run [Lru.OpUpdate "a" 1 0 0; Lru.OpGet "a" 1 1; Lru.OpGet "b" 2 2]
                (Lru.NewLRUCache 2 10) = Some c ∧
        Lru.GetReqCount c = 2 ∧ 0 ≤ Lru.GetHitCount c ≤ Lru.GetReqCount c)
  ∧
  (∃ c, Cache.run [Cache.OpUpdate "a" 1 0; Cache.OpGet "a" 1; Cache.OpGet "b" 2;
                   Cache.OpDelete "a"]
                  (Cache.NewLRUCache 2 10) = Some c ∧
        Cache.GetTotalReqTimes c = 3 ∧
        0 ≤ Cache.GetTotalHitTimes c ≤ Cache.GetTotalReqTimes c).
Proof.
  destruct (X8_counters_count_calls (V:=Z)) as [Hlru Hcache]. split.
  - apply (Hlru 2 10). by vm_compute.
  - apply (Hcache 2 10). by vm_compute.
Defined.

(** ** The eviction pass, twice *)

Section PassTwice.
Context {V : Type}.

(** X9. The eviction pass is idempotent. On a consistent state the pass
    returns, and a second pass on its result changes nothing: in
    [src/lru.go] when the second pass reads the same clock value or an
    earlier one, in [src/lru_cache.go], where the pass reads no clock,
    always. *)
Theorem X9_pass_idempotent :
  (∀ (c : Lru.LRUCache V) now now2, Lru.Inv c → now2 ≤ now →
     ∃ c', Lru.checkWithLocked now c = Some c' ∧
           Lru.checkWithLocked now2 c' = Some c')
  ∧
  (∀ (c : Cache.LRUCache V), Cache.Inv c →
     ∃ c', Cache.checkWithLocked c = Some c' ∧
           Cache.checkWithLocked c' = Some c').
Proof.
  split.
  - intros c now now2 Hc Hle.
    destruct (Lru_checkWithLocked_spec now c Hc)
      as (c' & n & Hpass & _ & _ & _ & Hrest & _).
    exists c'. split; [done|]. apply Lru_checkWithLocked_at_rest.
    unfold Lru.at_rest in *. destruct (Lru.lruList c') as [|front rest]; [done|].
    destruct Hrest as (item & Hitem & Hcnt & Hfresh).
    exists item. split; [done|]. split; [done|lia].
  - intros c Hc.
    destruct (Cache_checkWithLocked_spec c Hc)
      as (c' & n & Hpass & _ & _ & _ & Hrest & _).
    exists c'. split; [done|]. by apply Cache_checkWithLocked_at_rest.
Qed.
End PassTwice.

(** X9 on [lru_two_old] at time 100, when both entries are expired, and on
    [cache_two_full] with a third entry pushed, as [Update] leaves it to the
    pass. *)
Lemma X9_pass_idempotent_witness :
  (∃ c', Lru.checkWithLocked 100 lru_two_old = Some c' ∧
         Lru.checkWithLocked 100 c' = Some c')
  ∧
  (∃ c', Cache.checkWithLocked (Cache.push_back "c" (Entry "c" 9 3) cache_two_full)
           = Some c' ∧
         Cache.checkWithLocked c' = Some c').
Proof.
  destruct (X9_pass_idempotent (V:=Z)) as [Hlru Hcache]. split.
  - apply Hlru; [compute_done|lia].
  - apply Hcache. compute_done.
Defined.

(** ** Inserts of distinct keys into [src/lru_cache.go] *)

Section DistinctKeys.
Context {V : Type}.

Lemma Cache_run_app (os1 os2 : list (Cache.op V)) c :
  Cache.run (os1 ++ os2) c = Cache.run os1 c ≫= Cache.run os2.
Proof.
  revert c. induction os1 as [|o os1 IH]; intros c; [done|].
  simpl. destruct (Cache.step o c) as [c1|]; [|done]. simpl. apply IH.
Qed.

(** The keys of the cells of a heap, when every cell is in the list in the
    order of allocation. *)
Lemma keys_of_seq (heap : list (entry V)) :
  keys_of (seq 0 (length heap)) heap = key <$> heap.
Proof.
  induction heap as [|item heap IH] using rev_ind; [done|].
  rewrite length_app.
  replace (length heap + length [item])%nat with (S (length heap))
    by (simpl; lia).
  rewrite seq_S, keys_of_app, fmap_app. simpl. rewrite keys_of_allocated, IH.
  - f_equal. unfold keys_of, key_at. simpl.
    rewrite lookup_app_r by done. by rewrite Nat.sub_diag.
  - apply Forall_forall. intros e He. apply elem_of_seq in He. lia.
Qed.

(** The state after inserts of distinct keys: every entry is a cell of its
    own, and the list holds the last cells. *)
Lemma Cache_run_updates maxCount ttl (us : list (string * V * Z)) :
  NoDup (us.*1.*1) → Z.of_nat (length us) ≤ int64_max →
  ∃ c, Cache.run (cache_updates us) (Cache.NewLRUCache maxCount ttl) = Some c ∧
    Cache.Inv c ∧ Cache.maxCount c = maxCount ∧
    Cache.heap c = (λ u, Entry u.1.1 u.1.2 u.2) <$> us ∧
    Cache.lruList c
      = drop (length us - capacity maxCount) (seq 0 (length us)).
Proof.
  induction us as [|[[k v] now] us IH] using rev_ind; intros Hnd Hlen.
  - exists (Cache.NewLRUCache maxCount ttl). split_and!; try done.
    apply Cache_New_Inv.
  - rewrite !fmap_app in Hnd. simpl in Hnd.
    apply NoDup_app in Hnd as (Hnd & Hfresh & _).
    rewrite length_app in Hlen. simpl in Hlen.
    destruct IH as (c & Hrun & Hc & Hmax & Hheap & Hlist); [done|lia|].
    destruct (consistent_count _ _ _ _ Hc) as [Hcnt _].
    assert (length (Cache.heap c) = length us) as Hhlen
        by (by rewrite Hheap, length_fmap).
    assert (Cache.keyCount c
            = Z.of_nat (length us - (length us - capacity maxCount))) as Hkeys.
    { rewrite Hcnt, Hlist, length_drop, length_seq. done. }
    assert (Cache.lruMap c !! k = None) as Hk.
    { destruct (Cache.lruMap c !! k) as [e|] eqn:Hk; [|done]. exfalso.
      destruct (consistent_find _ _ _ _ _ _ Hc Hk) as (item & Hitem & Hkey & _).
      rewrite Hheap in Hitem.
      apply list_lookup_fmap_Some_1 in Hitem as (u & -> & Hu). simpl in Hkey.
      apply (Hfresh k); [|apply list_elem_of_here].
      rewrite <- Hkey. apply list_elem_of_fmap. exists u.1. split; [done|].
      apply list_elem_of_fmap. exists u. split; [done|].
      by eapply list_elem_of_lookup_2. }
    destruct (Cache_Update_new k v now c Hc ltac:(lia) Hk)
      as (c' & n & Hupd & Hc' & Hmax' & _ & Hheap' & _ & Hsw & Hn).
    exists c'. split_and!.
    + unfold cache_updates. rewrite fmap_app, Cache_run_app.
      fold (cache_updates us). rewrite Hrun. simpl. by rewrite Hupd.
    + done.
    + congruence.
    + rewrite Hheap', Hheap, fmap_app. done.
    + destruct Hsw as (_ & -> & _). rewrite Hhlen, Hlist.
      rewrite length_app.
      replace (length us + length [(k, v, now)])%nat with (S (length us))
        by (simpl; lia).
      rewrite seq_S. simpl.
      rewrite <- (drop_app_le (seq 0 (length us)) [length us])
        by (rewrite length_seq; lia).
      rewrite drop_drop. f_equal.
      rewrite Hkeys, Hmax in Hn. unfold capacity in *. lia.
Qed.

(** X10. [src/lru_cache.go] keeps the keys written last. After [Update]s
    of pairwise distinct keys into a new cache made with [maxCount], fewer
    than 2^63 of them, the list holds the keys of the last [maxCount]
    [Update]s (of all of them if there are fewer, of none if [maxCount] is
    not positive), in the order they were written, oldest at the front;
    these are the keys of the index; each has the value and the time of
    its [Update]; and the key count is their number. *)
Theorem X10_cache_keeps_last_written maxCount ttl (us : list (string * V * Z)) :
  NoDup (us.*1.*1) → Z.of_nat (length us) ≤ int64_max →
  let kept := drop (length us - capacity maxCount) us in
  ∃ c, Cache.run (cache_updates us) (Cache.NewLRUCache maxCount ttl) = Some c ∧
    keys_of (Cache.lruList c) (Cache.heap c) = kept.*1.*1 ∧
    (∀ k, is_Some (Cache.lruMap c !! k) ↔ k ∈ kept.*1.*1) ∧
    (∀ k v now, (k, v, now) ∈ kept →
       find (Cache.lruMap c) (Cache.heap c) k = Some (Entry k v now)) ∧
    Cache.GetKeyCount c = Z.of_nat (length kept).
Proof.
  intros Hnd Hlen kept.
  destruct (Cache_run_updates maxCount ttl us Hnd Hlen)
    as (c & Hrun & Hc & Hmax & Hheap & Hlist).
  assert (length (Cache.heap c) = length us) as Hhlen
      by (by rewrite Hheap, length_fmap).
  assert (keys_of (Cache.lruList c) (Cache.heap c) = kept.*1.*1) as Hkeys.
  { rewrite Hlist, <- Hhlen, keys_of_drop, keys_of_seq.
    - rewrite Hhlen, Hheap. subst kept. rewrite !fmap_drop, <- !list_fmap_compose.
      done.
    - apply Forall_forall. intros e He. apply elem_of_seq in He.
      destruct (lookup_lt_is_Some_2 (Cache.heap c) e) as [item Hitem]; [lia|].
      exists (key item). apply key_at_Some. eauto. }
  exists c. split_and!.
  - done.
  - done.
  - intros k. rewrite <- Hkeys. symmetry. by eapply consistent_keys.
  - intros k v now Hin. subst kept.
    apply list_elem_of_lookup_1 in Hin as [i Hi]. rewrite lookup_drop in Hi.
    set (e := (length us - capacity maxCount + i)%nat) in *.
    assert (e ∈ Cache.lruList c) as He.
    { rewrite Hlist. apply list_elem_of_lookup_2 with i.
      rewrite lookup_drop. fold e. apply lookup_seq.
      split; [done|]. by eapply lookup_lt_Some. }
    destruct (consistent_elem _ _ _ _ _ Hc He) as (item & Hitem & Hm).
    rewrite Hheap, list_lookup_fmap, Hi in Hitem. simpl in Hitem.
    injection Hitem as <-. simpl in Hm. unfold find. rewrite Hm. simpl.
    by rewrite Hheap, list_lookup_fmap, Hi.
  - unfold Cache.GetKeyCount. destruct (consistent_count _ _ _ _ Hc) as [-> _].
    subst kept. by rewrite Hlist, !length_drop, length_seq.
Qed.
End DistinctKeys.

(** X10 on three [Update]s into a cache for 2 keys: ["b"] and ["c"] are
    kept, ["b"] at the front. *)
Lemma X10_cache_keeps_last_written_witness :
  ∃ c, Cache.run (cache_updates [("a", 1, 0); ("b", 2, 1); ("c", 3, 2)])
                 (Cache.NewLRUCache 2 10) = Some c ∧
       keys_of (Cache.lruList c) (Cache.heap c) = ["b"; "c"] ∧
       find (Cache.lruMap c) (Cache.heap c) "c" = Some (Entry "c" 3 2) ∧
       Cache.GetKeyCount c = 2.
Proof.
  destruct (X10_cache_keeps_last_written 2 10 [("a", 1, 0); ("b", 2, 1); ("c", 3, 2)])
    as (c & Hrun & Hkeys & _ & Hfind & Hcount).
  - compute_done.
  - by vm_compute.
  - exists c. split_and!; [exact Hrun|exact Hkeys| |exact Hcount].
    apply Hfind. compute_done.
Defined.

(** ** The two files agree while no entry is expired *)

Section Agree.
Context {V : Type}.
Implicit Types (c : Lru.LRUCache V) (k : string) (e : handle).

(** On a state with nothing to evict, neither pass does anything. *)
Lemma pass_quiet now c :
  Lru.Inv c → unexpired now c → Cache.at_rest (to_cache c) →
  Lru.checkWithLocked now c = Some c ∧
  Cache.checkWithLocked (to_cache c) = Some (to_cache c).
Proof.
  intros Hc Hfresh Hrest. split; [|by apply Cache_checkWithLocked_at_rest].
  apply Lru_checkWithLocked_at_rest. unfold Lru.at_rest.
  destruct (Lru.lruList c) as [|front rest] eqn:Hl; [done|].
  destruct (consistent_front _ _ _ _ _ _ Hc Hl) as (item & Hitem & Hm & _).
  exists item. split; [done|]. split.
  - destruct Hrest as [Hle|Hnil]; [done|]. simpl in Hnil. congruence.
  - apply (Hfresh (key item)). unfold find. by rewrite Hm.
Qed.

(** On a state with one entry too many, both passes take out the front. *)
Lemma pass_one now c front rest item :
  Lru.Inv c → unexpired now c → Lru.keyCount c > Lru.maxCount c →
  Lru.lruList c = front :: rest → Lru.heap c !! front = Some item →
  Lru.keyCount c - 1 ≤ Lru.maxCount c ∨ rest = [] →
  let c' := Lru.remove_entry front (key item) c in
  Lru.checkWithLocked now c = Some c' ∧
  Cache.checkWithLocked (to_cache c) = Some (to_cache c') ∧
  Lru.Inv c' ∧ Cache.at_rest (to_cache c').
Proof.
  intros Hc Hfresh Hover Hl Hitem Hnext c'.
  destruct (consistent_front _ _ _ _ _ _ Hc Hl) as (item' & Hitem' & Hm & Hrem).
  rewrite Hitem in Hitem'. injection Hitem' as <-.
  destruct (Lru_remove_entry_Inv c (key item) front Hc Hm) as [Hc' Hcnt'].
  assert (Cache.at_rest (to_cache c')) as Hrest'.
  { unfold Cache.at_rest. simpl. fold c' in Hcnt'. rewrite Hrem.
    destruct Hnext as [Hle|Hnil]; [left|by right].
    change (Lru.keyCount c' ≤ Lru.maxCount c). lia. }
  destruct (pass_quiet now c') as [Hlru Hcache]; [done| |done|].
  { intros k' item' Hfind. apply (Hfresh k').
    destruct (decide (k' = key item)) as [->|Hne].
    - unfold find in Hfind. simpl in Hfind. by rewrite lookup_delete_eq in Hfind.
    - rewrite <- Hfind. symmetry. by apply find_delete_ne. }
  split_and!; [| |done..].
  - rewrite Lru_checkWithLocked_unfold, Hl. simpl. rewrite Hitem.
    rewrite decide_False by lia. exact Hlru.
  - rewrite Cache_checkWithLocked_unfold.
    rewrite decide_True by done.
    change (Cache.lruList (to_cache c)) with (Lru.lruList c). rewrite Hl.
    change (Front (front :: rest)) with (Some front).
    change (Cache.heap (to_cache c)) with (Lru.heap c). cbv beta iota.
    rewrite Hitem. exact Hcache.
Qed.

Lemma Update_agree c k v now now' :
  Lru.Inv c → Lru.keyCount c < int64_max → Cache.at_rest (to_cache c) →
  unexpired now' c → now' < add64 now (Lru.ttl c) →
  ∃ c', Lru.Update k v now now' c = Some (None, c') ∧
        Cache.Update k v now (to_cache c) = Some (None, to_cache c') ∧
        Lru.Inv c' ∧ Cache.at_rest (to_cache c').
Proof.
  intros Hc Hlt Hrest Hfresh Hnew.
  destruct (Lru.lruMap c !! k) as [e|] eqn:Hk.
  - destruct (consistent_find _ _ _ _ _ _ Hc Hk) as (item & Hitem & Hkey & _).
    destruct (consistent_lookup _ _ _ _ _ _ Hc Hk) as [Hin _].
    set (c1 := Lru.move_to_back e (Lru.set_entry e (refresh item v now) c)).
    assert (Lru.Update_body k v now c = Some c1) as Hbody.
    { unfold Lru.Update_body. rewrite Hk, Hitem. done. }
    assert (Lru.Inv c1) as Hc1 by (by apply consistent_refresh).
    assert (Cache.at_rest (to_cache c1)) as Hrest1.
    { destruct Hrest as [Hle|Hnil]; [by left|].
      simpl in Hnil. rewrite Hnil in Hin. by apply elem_of_nil in Hin. }
    destruct (pass_quiet now' c1) as [Hlru Hcache]; [done| |done|].
    { intros k' item' Hfind. simpl in Hfind.
      destruct (decide (k' = k)) as [->|Hne].
      - rewrite (find_refresh_eq _ _ _ _ _ v now Hk Hitem Hkey) in Hfind.
        injection Hfind as <-. exact Hnew.
      - rewrite (find_refresh_ne _ _ _ _ _ _ _ _ Hc Hk Hne) in Hfind.
        by apply (Hfresh k'). }
    exists c1. split_and!; [| |done..].
    + unfold Lru.Update. rewrite Hbody. simpl. by rewrite Hlru.
    + unfold Cache.Update.
      change (Cache.lruMap (to_cache c)) with (Lru.lruMap c). rewrite Hk.
      change (Cache.heap (to_cache c)) with (Lru.heap c). rewrite Hitem. done.
  - destruct (consistent_PushBack _ _ _ _ k v now Hc Hk Hlt) as [Hc1 Hcnt1].
    set (c1 := Lru.push_back k (Entry k v now) c).
    change (Lru.Inv c1) in Hc1. change (Lru.keyCount c1 = Lru.keyCount c + 1) in Hcnt1.
    assert (Lru.Update_body k v now c = Some c1) as Hbody.
    { unfold Lru.Update_body. by rewrite Hk. }
    assert (unexpired now' c1) as Hfresh1.
    { intros k' item' Hfind. simpl in Hfind.
      destruct (decide (k' = k)) as [->|Hne].
      - rewrite find_PushBack_eq in Hfind. injection Hfind as <-. exact Hnew.
      - rewrite (find_PushBack_ne _ _ _ _ _ _ _ Hc Hne) in Hfind.
        by apply (Hfresh k'). }
    assert (Cache.Update k v now (to_cache c)
            = c' ← Cache.checkWithLocked (to_cache c1); Some (None, c')) as Hupd.
    { unfold Cache.Update.
      change (Cache.lruMap (to_cache c)) with (Lru.lruMap c). by rewrite Hk. }
    destruct (decide (Lru.keyCount c1 ≤ Lru.maxCount c1)) as [Hroom|Hover].
    + destruct (pass_quiet now' c1) as [Hlru Hcache]; [done|done|by left|].
      exists c1. split_and!; [| |done|by left].
      * unfold Lru.Update. rewrite Hbody. simpl. by rewrite Hlru.
      * rewrite Hupd, Hcache. done.
    + assert (∃ front rest, Lru.lruList c1 = front :: rest ∧
                (Lru.keyCount c1 - 1 ≤ Lru.maxCount c1 ∨ rest = []))
        as (front & rest & Hl1 & Hnext).
      { change (Lru.lruList c1)
          with (Lru.lruList c ++ [length (Lru.heap c)]).
        change (Lru.maxCount c1) with (Lru.maxCount c). rewrite Hcnt1.
        destruct Hrest as [Hle|Hnil]; simpl in Hle || simpl in Hnil.
        - destruct (Lru.lruList c) as [|f l]; simpl; eexists _, _;
            (split; [done|left; lia]).
        - rewrite Hnil. simpl. eexists _, _. split; [done|by right]. }
      destruct (consistent_front _ _ _ _ _ _ Hc1 Hl1) as (item & Hitem & _).
      destruct (pass_one now' c1 front rest item Hc1 Hfresh1 ltac:(lia) Hl1 Hitem Hnext)
        as (Hlru & Hcache & Hc2 & Hrest2).
      exists (Lru.remove_entry front (key item) c1). split_and!; [| |done..].
      * unfold Lru.Update. rewrite Hbody. simpl. by rewrite Hlru.
      * rewrite Hupd, Hcache. done.
Qed.

Lemma Get_agree c k now now' :
  Lru.Inv c → Cache.at_rest (to_cache c) → unexpired now c → unexpired now' c →
  ∃ r err c', Lru.Get k now now' c = Some ((r, err), c') ∧
        Cache.Get k now (to_cache c) = Some ((r, to_cache_error err), to_cache c') ∧
        Lru.Inv c' ∧ Cache.at_rest (to_cache c') ∧
        Lru.heap c' = Lru.heap c ∧ Lru.lruMap c' = Lru.lruMap c.
Proof.
  intros Hc Hrest Hfresh Hfresh'.
  destruct (Lru.lruMap c !! k) as [e|] eqn:Hk.
  - destruct (consistent_find _ _ _ _ _ _ Hc Hk) as (item & Hitem & Hkey & Hfind).
    pose proof (Hfresh k item Hfind) as Hlive.
    set (c1 := Lru.move_to_back e (Lru.count_hit (Lru.count_request c))).
    assert (Lru.Inv c1) as Hc1 by (by apply consistent_MoveToBack).
    destruct (consistent_lookup _ _ _ _ _ _ Hc Hk) as [Hin _].
    assert (Cache.at_rest (to_cache c1)) as Hrest1.
    { destruct Hrest as [Hle|Hnil]; [by left|].
      simpl in Hnil. rewrite Hnil in Hin. by apply elem_of_nil in Hin. }
    destruct (pass_quiet now' c1) as [Hlru Hcache]; [done| |done|].
    { intros k' item' Hfind'. by apply (Hfresh' k'). }
    exists (Some (value item)), None, c1. split_and!; [| |done..].
    + assert (Lru.Get_body k now c = Some ((Some (value item), None), c1))
        as Hbody by (by rewrite (Lru_Get_body_hit _ _ _ _ _ Hk Hitem) by lia).
      unfold Lru.Get. rewrite Hbody. simpl. by rewrite Hlru.
    + by rewrite (Cache_Get_hit k now (to_cache c) e item Hk Hitem) by (simpl; lia).
  - set (c1 := Lru.count_request c).
    destruct (pass_quiet now' c1) as [Hlru Hcache]; [done|done|done|].
    exists None, (Some ErrLruNotFoundKey), c1. split_and!; [| |done..].
    + assert (Lru.Get_body k now c = Some ((None, Some ErrLruNotFoundKey), c1))
        as Hbody by (by rewrite (Lru_Get_body_miss _ _ _ Hk)).
      unfold Lru.Get. rewrite Hbody. simpl. by rewrite Hlru.
    + by rewrite (Cache_Get_miss k now (to_cache c) Hk).
Qed.

(** X11. While no entry is expired, the two files do the same. Take a
    consistent state of [src/lru.go] whose key count is within [maxCount]
    (or whose list is empty), and the state of [src/lru_cache.go] with the
    same fields. [Update(k, v)], with no entry expired when the pass of
    [src/lru.go] reads the clock, leaves the two in states with the same
    fields again. So does [Get(k)], with no entry expired at the times
    [src/lru.go] reads the clock, and it returns the same value in both
    files, with an error in one exactly when there is one in the other. *)
Theorem X11_files_agree_while_fresh c :
  Lru.Inv c → Lru.keyCount c < int64_max → Cache.at_rest (to_cache c) →
  (∀ k v now now', unexpired now' c → now' < add64 now (Lru.ttl c) →
     ∃ c', Lru.Update k v now now' c = Some (None, c') ∧
           Cache.Update k v now (to_cache c) = Some (None, to_cache c'))
  ∧
  (∀ k now now', unexpired now c → unexpired now' c →
     ∃ r err c', Lru.Get k now now' c = Some ((r, err), c') ∧
           Cache.Get k now (to_cache c)
             = Some ((r, to_cache_error err), to_cache c')).
Proof.
  intros Hc Hlt Hrest. split.
  - intros k v now now' Hfresh Hnew.
    destruct (Update_agree c k v now now' Hc Hlt Hrest Hfresh Hnew)
      as (c' & Hlru & Hcache & _).
    by exists c'.
  - intros k now now' Hfresh Hfresh'.
    destruct (Get_agree c k now now' Hc Hrest Hfresh Hfresh')
      as (r & err & c' & Hlru & Hcache & _).
    by exists r, err, c'.
Qed.
End Agree.

(** X11 on [lru_two_old] and [cache_two_old], which have the same fields: an
    [Update] of a new key and a [Get] of ["a"], at times 3 and 4, when the
    entries, written at time 0, have 5 seconds to live. *)
Lemma X11_files_agree_while_fresh_witness :
  (∃ c', Lru.Update "z" 9 3 4 lru_two_old = Some (None, c') ∧
         Cache.Update "z" 9 3 cache_two_old = Some (None, to_cache c'))
  ∧
  (∃ r err c', Lru.Get "a" 3 4 lru_two_old = Some ((r, err), c') ∧
         Cache.Get "a" 3 cache_two_old = Some ((r, to_cache_error err), to_cache c')).
Proof.
  assert (∀ now, now < 5 → unexpired now lru_two_old) as Hfresh.
  { intros now Hnow k item (e & Hm & Hitem)%find_Some_lookup.
    assert (Lru.Inv lru_two_old) as Hc by compute_done.
    destruct (consistent_lookup _ _ _ _ _ _ Hc Hm) as [Hin _].
    simpl in Hin, Hitem.
    apply elem_of_cons in Hin as [->|Hin]; [|apply elem_of_cons in Hin as [->|Hin]].
    - injection Hitem as <-. exact Hnow.
    - injection Hitem as <-. exact Hnow.
    - by apply elem_of_nil in Hin. }
  destruct (X11_files_agree_while_fresh lru_two_old) as [Hupd Hget].
  - compute_done.
  - by vm_compute.
  - left. by vm_compute.
  - split.
    + apply Hupd; [apply Hfresh; lia|by vm_compute].
    + apply Hget; apply Hfresh; lia.
Defined.

(** ** Runs within the life of an entry *)

Section AgreeRuns.
Context {V : Type}.

Lemma window_unexpired lo t (c : Lru.LRUCache V) :
  is_int64 lo → lo + 2 * Lru.ttl c ≤ int64_max →
  Lru.created_within lo (lo + Lru.ttl c - 1) c → lo ≤ t < lo + Lru.ttl c →
  unexpired t c.
Proof.
  intros Hlo Hhi Hcr Ht k item Hfind. specialize (Hcr k item Hfind).
  rewrite add64_id; [lia|]. unfold is_int64, int64_min in *. lia.
Qed.

Lemma step_agree lo o (c : Lru.LRUCache V) :
  Lru.Inv c → Lru.keyCount c < int64_max → Cache.at_rest (to_cache c) →
  is_int64 lo → lo + 2 * Lru.ttl c ≤ int64_max →
  Lru.created_within lo (lo + Lru.ttl c - 1) c →
  (∀ t, t ∈ Lru.op_clock o → lo ≤ t < lo + Lru.ttl c) →
  ∃ c', Lru.step o c = Some c' ∧
        Cache.step (to_cache_op o) (to_cache c) = Some (to_cache c') ∧
        Lru.Inv c' ∧ Cache.at_rest (to_cache c') ∧
        Lru.ttl c' = Lru.ttl c ∧ Lru.keyCount c' ≤ Lru.keyCount c + 1 ∧
        Lru.created_within lo (lo + Lru.ttl c - 1) c'.
Proof.
  intros Hc Hlt Hrest Hlo Hhi Hcr Hclock.
  destruct (Lru_step_spec o c Hc Hlt)
    as (c' & Hstep & Hc' & _ & Httl & Hcnt & _ & Hkept).
  assert (Lru.created_within lo (lo + Lru.ttl c - 1) c') as Hcr'.
  { intros k item Hfind. destruct (Hkept k) as [Hk|Hw].
    - exact (Hcr k item (kept_or_gone_find _ _ _ _ _ _ Hk Hfind)).
    - destruct o as [k0 v now now'|]; [|done]. destruct Hw as [-> Hw].
      rewrite Hw in Hfind. injection Hfind as <-. simpl.
      specialize (Hclock now). simpl in Hclock.
      specialize (Hclock ltac:(apply list_elem_of_here)). lia. }
  destruct o as [k v now now'|k now now'].
  - assert (lo ≤ now < lo + Lru.ttl c) as Hnow
        by (apply Hclock; simpl; apply list_elem_of_here).
    assert (lo ≤ now' < lo + Lru.ttl c) as Hnow'
        by (apply Hclock; simpl; apply elem_of_cons; right; apply list_elem_of_here).
    destruct (Update_agree c k v now now') as (c1 & Hlru & Hcache & _ & Hrest1);
      [done|done|done|by apply (window_unexpired lo)| |].
    { rewrite add64_id; [lia|]. unfold is_int64, int64_min in *. lia. }
    simpl in Hstep. rewrite Hlru in Hstep. simpl in Hstep. injection Hstep as <-.
    exists c1. split_and!; [|simpl; by rewrite Hcache|done..].
    simpl. by rewrite Hlru.
  - assert (lo ≤ now < lo + Lru.ttl c) as Hnow
        by (apply Hclock; simpl; apply list_elem_of_here).
    assert (lo ≤ now' < lo + Lru.ttl c) as Hnow'
        by (apply Hclock; simpl; apply elem_of_cons; right; apply list_elem_of_here).
    destruct (Get_agree c k now now')
      as (r & err & c1 & Hlru & Hcache & _ & Hrest1 & _);
      [done|done|by apply (window_unexpired lo)..|].
    simpl in Hstep. rewrite Hlru in Hstep. simpl in Hstep. injection Hstep as <-.
    exists c1. split_and!; [|simpl; by rewrite Hcache|done..].
    simpl. by rewrite Hlru.
Qed.

Lemma run_agree lo (os : list (Lru.op V)) : ∀ c,
  Lru.Inv c → Lru.keyCount c + Z.of_nat (length os) ≤ int64_max →
  Cache.at_rest (to_cache c) →
  is_int64 lo → lo + 2 * Lru.ttl c ≤ int64_max →
  Lru.created_within lo (lo + Lru.ttl c - 1) c →
  (∀ t, t ∈ Lru.clock os → lo ≤ t < lo + Lru.ttl c) →
  ∃ c', Lru.run os c = Some c' ∧
        Cache.run (to_cache_op <$> os) (to_cache c) = Some (to_cache c').
Proof.
  induction os as [|o os IH]; intros c Hc Hlen Hrest Hlo Hhi Hcr Hclock.
  - by exists c.
  - simpl in Hlen.
    change (Lru.clock (o :: os)) with (Lru.op_clock o ++ Lru.clock os) in Hclock.
    destruct (step_agree lo o c)
      as (c1 & Hlru & Hcache & Hc1 & Hrest1 & Httl1 & Hcnt1 & Hcr1);
      [done|lia|done..| |].
    { intros t Ht. apply Hclock, elem_of_app. by left. }
    destruct (IH c1) as (c' & Hlru' & Hcache'); [done|lia|done|done|..].
    { by rewrite Httl1. }
    { by rewrite Httl1. }
    { intros t Ht. rewrite Httl1. apply Hclock, elem_of_app. by right. }
    exists c'. simpl. rewrite Hlru, Hcache. simpl. done.
Qed.

(** X12. A run within the life of an entry goes the same way in the two
    files. If every clock reading of a run of [Update]s and [Get]s from
    [NewLRUCache], of fewer than 2^63 calls, is at [lo] or later and
    earlier than [lo + ttl], these sums being [int64] values, then no call
    panics in either file and, call for call, [src/lru.go] and
    [src/lru_cache.go] end in states with the same fields: the deferred
    pass of [src/lru.go] evicts what the pass of [src/lru_cache.go]
    evicts. *)
Theorem X12_runs_agree_within_ttl maxCount ttl lo (os : list (Lru.op V)) :
  Z.of_nat (length os) ≤ int64_max →
  is_int64 lo → lo + 2 * ttl ≤ int64_max →
  (∀ t, t ∈ Lru.clock os → lo ≤ t < lo + ttl) →
  ∃ c, Lru.run os (Lru.NewLRUCache maxCount ttl) = Some c ∧
       Cache.run (to_cache_op <$> os) (Cache.NewLRUCache maxCount ttl)
         = Some (to_cache c).
Proof.
  intros Hlen Hlo Hhi Hclock.
  apply (run_agree lo os (Lru.NewLRUCache maxCount ttl)); try done.
  - apply Lru_New_Inv.
  - by right.
Qed.
End AgreeRuns.

(** X12 on the run of the LRU test of the specification: capacity 2, and
    four calls within 100 seconds. *)
Lemma X12_runs_agree_within_ttl_witness :
  ∃ c, Lru.run [Lru.OpUpdate "a" 1 0 0; Lru.OpUpdate "b" 2 1 1; Lru.OpGet "a" 2 2;
                Lru.OpUpdate "c" 3 3 3] (Lru.NewLRUCache 2 100) = Some c ∧
       Cache.run [Cache.OpUpdate "a" 1 0; Cache.OpUpdate "b" 2 1; Cache.OpGet "a" 2;
                  Cache.OpUpdate "c" 3 3] (Cache.NewLRUCache 2 100)
         = Some (to_cache c).
Proof.
  apply (X12_runs_agree_within_ttl 2 100 0
           [Lru.OpUpdate "a" 1 0 0; Lru.OpUpdate "b" 2 1 1; Lru.OpGet "a" 2 2;
            Lru.OpUpdate "c" 3 3 3]).
  - by vm_compute.
  - by vm_compute.
  - by vm_compute.
  - intros t Ht. simpl in Ht. set_unfold in Ht. lia.
Defined.
